(** * fhirclient: the shared library functions

    A shallow embedding of the shared helpers of the SMART-on-FHIR client
    (path accessor, request pipeline and its per-URL cache, token lifetime
    computation, patient-parameter selection, target-window resolution and the
    JSON-Patch validator), followed by the properties established for them.

    Modelling conventions.
    - JavaScript data is the JSON fragment of the language: [value] below.
      Objects are plain objects, kept as association lists in insertion
      order whose first binding of a key is the live one; arrays are dense
      lists (a hole reads as [undefined]).
    - A read follows the prototype chain.  The members of the built-in
      prototypes are functions (or, for [__proto__], a prototype object),
      which are not values of the fragment: a read that finds one is
      [Unmodelled].  The lists of member names are those of the language
      standard, its annex for web browsers included, with the array methods
      some engines shipped ahead of it; no prototype is taken to have been
      extended.
    - Numbers are integers; strings are sequences of 8-bit code units.
    - A computation yields [Ok v], raises ([Throw e]) or leaves the fragment
      ([Unmodelled]); nothing is ever concluded from the last outcome.
    - The module is compiled in strict mode, so a write to a property of a
      primitive raises a TypeError.
    - Mutation in place is rendered by returning the updated structure; the
      structure is a tree, so no object is reachable through two paths.
    - The network, the clock, the adapter, the browser, the environment
      variable [NODE_ENV] and the class [HttpError] (which is not part of
      this library) are parameters of the functions that use them. *)

From Stdlib Require Import ZArith List String Ascii Bool Lia Arith DecimalString.
From Stdlib Require Import Floats.
From stdpp Require Import base gmap strings.
Import ListNotations.
Set Warnings "-register-all,-inexact-float".
Local Open Scope string_scope.
Local Open Scope list_scope.

(** ** Outcomes of a computation *)

Inductive exn : Type :=
| Error (message : string)      (* [new Error(message)] raised by the library *)
| TypeError                     (* raised by the host on an illegal access *)
| RangeError
| SyntaxError                   (* raised by [JSON.parse] *)
| InvalidCharacterError         (* raised by the browser's [atob] *)
| HttpError (status : Z) (message : string)   (* raised by [checkResponse] *)
| HostError (tag : string).     (* any other failure of a collaborator *)

Inductive outcome (A : Type) : Type :=
| Ok (a : A)
| Throw (e : exn)
| Unmodelled.
Arguments Ok {A} a.
Arguments Throw {A} e.
Arguments Unmodelled {A}.

Definition bind {A B : Type} (m : outcome A) (k : A -> outcome B) : outcome B :=
  match m with
  | Ok a => k a
  | Throw e => Throw e
  | Unmodelled => Unmodelled
  end.

Notation "x <- m ;; k" := (bind m (fun x => k))
  (at level 100, m at next level, right associativity).
Notation "m ;;; k" := (bind m (fun _ => k))
  (at level 100, right associativity).

Fixpoint map_outcome {A B : Type} (f : A -> outcome B) (l : list A) : outcome (list B) :=
  match l with
  | [] => Ok []
  | x :: r => y <- f x ;; ys <- map_outcome f r ;; Ok (y :: ys)
  end.

(** ** Strings: [trim], [split(".")], [join(".")] *)

(** White space removed by [String.prototype.trim], within 8-bit code units. *)
Definition is_ws (c : ascii) : bool :=
  let n := nat_of_ascii c in
  ((9 <=? n)%nat && (n <=? 13)%nat) || (n =? 32)%nat || (n =? 160)%nat.

Definition is_empty (s : string) : bool :=
  match s with EmptyString => true | String _ _ => false end.

Fixpoint trim_start (s : string) : string :=
  match s with
  | EmptyString => EmptyString
  | String c r => if is_ws c then trim_start r else s
  end.

Fixpoint trim_end (s : string) : string :=
  match s with
  | EmptyString => EmptyString
  | String c r =>
      let r' := trim_end r in
      if is_ws c && is_empty r' then EmptyString else String c r'
  end.

Definition trim (s : string) : string := trim_end (trim_start s).

Definition dot : ascii := "."%char.

Fixpoint split_dot (s : string) : list string :=
  match s with
  | EmptyString => [EmptyString]
  | String c r =>
      if Ascii.eqb c dot then EmptyString :: split_dot r
      else match split_dot r with
           | h :: t => String c h :: t
           | [] => [String c EmptyString]
           end
  end.

Fixpoint join_dot (l : list string) : string :=
  match l with
  | [] => EmptyString
  | [x] => x
  | x :: r => x ++ String dot (join_dot r)
  end.

(** ** JavaScript values (the JSON fragment) *)

Inductive value : Type :=
| VUndefined
| VNull
| VBool (b : bool)
| VNum (n : Z)
| VStr (s : string)
| VArr (elems : list value)
| VObj (props : list (string * value)).

(** [ToBoolean]. *)
Definition truthy (v : value) : bool :=
  match v with
  | VUndefined | VNull => false
  | VBool b => b
  | VNum n => negb (n =? 0)%Z
  | VStr s => negb (is_empty s)
  | VArr _ | VObj _ => true
  end.

Definition isArray (v : value) : bool :=
  match v with VArr _ => true | _ => false end.

Definition is_undefined (v : value) : bool :=
  match v with VUndefined => true | _ => false end.

(** Reference types: values mutated in place through any alias. *)
Definition is_container (v : value) : bool :=
  match v with VArr _ | VObj _ => true | _ => false end.

Definition is_digit (c : ascii) : bool :=
  let n := nat_of_ascii c in (48 <=? n)%nat && (n <=? 57)%nat.

Fixpoint all_digits (s : string) : bool :=
  match s with
  | EmptyString => true
  | String c r => is_digit c && all_digits r
  end.

(** [/^[0-9]+$/] *)
Definition is_numeric (s : string) : bool := negb (is_empty s) && all_digits s.

Fixpoint digits_value (acc : N) (s : string) : N :=
  match s with
  | EmptyString => acc
  | String c r => digits_value (10 * acc + (N_of_ascii c - 48))%N r
  end.

(** A key is an array index when it is the canonical decimal form of an
    integer below 2^32 - 1. *)
Definition array_index (key : string) : option nat :=
  match key with
  | EmptyString => None
  | String c r =>
      if all_digits key && (negb (Ascii.eqb c "0"%char) || is_empty r) then
        let n := digits_value 0 key in
        if (n <? 4294967295)%N then Some (N.to_nat n) else None
      else None
  end.

Fixpoint assoc_get (ps : list (string * value)) (key : string) : option value :=
  match ps with
  | [] => None
  | (k, v) :: r => if String.eqb k key then Some v else assoc_get r key
  end.

Fixpoint assoc_set (ps : list (string * value)) (key : string) (v : value)
  : list (string * value) :=
  match ps with
  | [] => [(key, v)]
  | (k, w) :: r =>
      if String.eqb k key then (k, v) :: r else (k, w) :: assoc_set r key v
  end.

(** [arr[i] = v]: replaces the element, or grows the array with holes. *)
Fixpoint array_store (l : list value) (i : nat) (v : value) : list value :=
  match i, l with
  | O, [] => [v]
  | O, _ :: r => v :: r
  | S j, [] => VUndefined :: array_store [] j v
  | S j, x :: r => x :: array_store r j v
  end.

Fixpoint string_at (s : string) (i : nat) : option ascii :=
  match s, i with
  | EmptyString, _ => None
  | String c _, O => Some c
  | String _ r, S j => string_at r j
  end.

(** *** Members of the built-in prototypes

    The names every object inherits from [Object.prototype], and the names
    arrays, strings, numbers and booleans inherit from their own prototype
    before that. *)

Definition object_members : list string :=
  ["constructor"; "__defineGetter__"; "__defineSetter__"; "hasOwnProperty";
   "__lookupGetter__"; "__lookupSetter__"; "isPrototypeOf";
   "propertyIsEnumerable"; "toString"; "valueOf"; "__proto__"; "toLocaleString"].

Definition array_members : list string :=
  ["at"; "concat"; "copyWithin"; "entries"; "every"; "fill"; "filter"; "find";
   "findIndex"; "findLast"; "findLastIndex"; "flat"; "flatMap"; "forEach";
   "group"; "groupToMap"; "includes"; "indexOf"; "join"; "keys"; "lastIndexOf";
   "map"; "pop"; "push"; "reduce"; "reduceRight"; "reverse"; "shift"; "slice";
   "some"; "sort"; "splice"; "toReversed"; "toSorted"; "toSpliced"; "unshift";
   "values"; "with"].

Definition string_members : list string :=
  ["anchor"; "at"; "big"; "blink"; "bold"; "charAt"; "charCodeAt";
   "codePointAt"; "concat"; "endsWith"; "fixed"; "fontcolor"; "fontsize";
   "includes"; "indexOf"; "isWellFormed"; "italics"; "lastIndexOf"; "link";
   "localeCompare"; "match"; "matchAll"; "normalize"; "padEnd"; "padStart";
   "repeat"; "replace"; "replaceAll"; "search"; "slice"; "small"; "split";
   "startsWith"; "strike"; "sub"; "substr"; "substring"; "sup";
   "toLocaleLowerCase"; "toLocaleUpperCase"; "toLowerCase"; "toUpperCase";
   "toWellFormed"; "trim"; "trimEnd"; "trimLeft"; "trimRight"; "trimStart"].

Definition number_members : list string :=
  ["toExponential"; "toFixed"; "toPrecision"].

Definition named (names : list string) (key : string) : bool :=
  existsb (String.eqb key) names.

(** Whether [key] names a member that [o] inherits. *)
Definition inherited (o : value) (key : string) : bool :=
  match o with
  | VUndefined | VNull => false
  | VBool _ | VObj _ => named object_members key
  | VNum _ => named number_members key || named object_members key
  | VStr _ => named string_members key || named object_members key
  | VArr _ => named array_members key || named object_members key
  end.

(** A read of a key that is not an own property. *)
Definition absent (o : value) (key : string) : outcome value :=
  if inherited o key then Unmodelled else Ok VUndefined.

(** [o[key]] as an rvalue. *)
Definition prop_get (o : value) (key : string) : outcome value :=
  match o with
  | VUndefined | VNull => Throw TypeError
  | VBool _ | VNum _ => absent o key
  | VStr s =>
      if String.eqb key "length" then Ok (VNum (Z.of_nat (String.length s)))
      else match array_index key with
           | Some i => match string_at s i with
                       | Some c => Ok (VStr (String c EmptyString))
                       | None => Ok VUndefined
                       end
           | None => absent o key
           end
  | VArr l =>
      if String.eqb key "length" then Ok (VNum (Z.of_nat (List.length l)))
      else match array_index key with
           | Some i => Ok (nth i l VUndefined)
           | None => absent o key
           end
  | VObj ps =>
      match assoc_get ps key with
      | Some v => Ok v
      | None => absent o key
      end
  end.

(** [o[key] = v] in strict mode; the updated [o] is returned.  Writing a
    non-index key of an array ([length], an expando) leaves the fragment.
    On an object the write adds or replaces an own property, except at the
    key [__proto__] when it is not an own property: the write then goes to
    the setter inherited from [Object.prototype], which adds no property. *)
Definition prop_set (o : value) (key : string) (v : value) : outcome value :=
  match o with
  | VUndefined | VNull | VBool _ | VNum _ | VStr _ => Throw TypeError
  | VArr l =>
      match array_index key with
      | Some i => Ok (VArr (array_store l i v))
      | None => Unmodelled
      end
  | VObj ps =>
      match assoc_get ps key with
      | Some _ => Ok (VObj (assoc_set ps key v))
      | None =>
          if String.eqb key "__proto__" then Unmodelled
          else Ok (VObj (assoc_set ps key v))
      end
  end.

(** ** Path accessor *)

Fixpoint getPath_loop (rec : value -> string -> outcome value)
  (result : value) (segments : list string) : outcome value :=
  match segments with
  | [] => Ok result
  | key :: rest =>
      if truthy result then
        match result with
        | VArr l =>
            if is_empty key then
              r <- map_outcome (fun o => rec o (join_dot rest)) l ;; Ok (VArr r)
            else
              r <- prop_get result key ;; getPath_loop rec r rest
        | _ => r <- prop_get result key ;; getPath_loop rec r rest
        end
      else Ok result
  end.

Fixpoint getPath_fuel (fuel : nat) (obj : value) (path : string) : outcome value :=
  match fuel with
  | O => Unmodelled
  | S fuel' =>
      let path := trim path in
      if is_empty path then Ok obj
      else getPath_loop (getPath_fuel fuel') obj (split_dot path)
  end.

(** Every nested call works on a strictly shorter path, so the length of the
    path bounds the nesting depth. *)
Definition getPath (obj : value) (path : string) : outcome value :=
  getPath_fuel (S (String.length path)) obj path.

(** The value the walk of [setPath] hands to the next segment is a reference
    into the structure; [store_back] records in the parent what the rest of
    the walk did to that child. *)
Definition store_back (out : value) (key : string) (child child' : value) : value :=
  if is_container child then
    match out with
    | VArr l => match array_index key with
                | Some i => VArr (array_store l i child')
                | None => out
                end
    | VObj ps => VObj (assoc_set ps key child')
    | _ => out
    end
  else out.

Fixpoint setPath_walk (out : value) (segments : list string) (v : value)
  (createEmpty : bool) : outcome value :=
  match segments with
  | [] => Ok out
  | key :: rest =>
      match rest with
      | [] => if truthy out then prop_set out key v else Ok out
      | next :: _ =>
          if truthy out then
            cur <- prop_get out key ;;
            if is_undefined cur && createEmpty then
              out1 <- prop_set out key (if is_numeric next then VArr [] else VObj []) ;;
              child <- prop_get out1 key ;;
              child' <- setPath_walk child rest v createEmpty ;;
              Ok (store_back out1 key child child')
            else
              child' <- setPath_walk cur rest v createEmpty ;;
              Ok (store_back out key cur child')
          else Ok out
      end
  end.

(** [setPath] returns the object it was given, updated in place.  When the
    walk raises, what it had created before is not reported. *)
Definition setPath (obj : value) (path : string) (v : value) (createEmpty : bool)
  : outcome value :=
  setPath_walk obj (split_dot (trim path)) v createEmpty.

(** ** [JSON.parse]

    A recursive-descent reader of the JSON grammar.  Number literals with a
    fraction or an exponent, and [\u] escapes above code unit 255, leave the
    fragment. *)

Definition quote : ascii := "034"%char.
Definition backslash : ascii := "092"%char.

Definition is_json_ws (c : ascii) : bool :=
  let n := nat_of_ascii c in
  (n =? 32)%nat || (n =? 9)%nat || (n =? 10)%nat || (n =? 13)%nat.

Fixpoint skip_ws (s : string) : string :=
  match s with
  | EmptyString => EmptyString
  | String c r => if is_json_ws c then skip_ws r else s
  end.

Definition hex_value (c : ascii) : option N :=
  let n := N_of_ascii c in
  if (48 <=? n)%N && (n <=? 57)%N then Some (n - 48)%N
  else if (65 <=? n)%N && (n <=? 70)%N then Some (n - 55)%N
  else if (97 <=? n)%N && (n <=? 102)%N then Some (n - 87)%N
  else None.

Definition unicode_escape (a b c d : ascii) : outcome ascii :=
  match hex_value a, hex_value b, hex_value c, hex_value d with
  | Some x, Some y, Some z, Some w =>
      let code := (((x * 16 + y) * 16 + z) * 16 + w)%N in
      if (code <? 256)%N then Ok (ascii_of_N code) else Unmodelled
  | _, _, _, _ => Throw SyntaxError
  end.

Definition simple_escape (e : ascii) : option ascii :=
  if Ascii.eqb e quote then Some quote
  else if Ascii.eqb e backslash then Some backslash
  else if Ascii.eqb e "/" then Some "/"%char
  else if Ascii.eqb e "b" then Some "008"%char
  else if Ascii.eqb e "f" then Some "012"%char
  else if Ascii.eqb e "n" then Some "010"%char
  else if Ascii.eqb e "r" then Some "013"%char
  else if Ascii.eqb e "t" then Some "009"%char
  else None.

(** The characters of a string literal after its opening quote. *)
Fixpoint parse_string_body (s : string) : outcome (string * string) :=
  match s with
  | EmptyString => Throw SyntaxError
  | String c r =>
      if Ascii.eqb c quote then Ok (EmptyString, r)
      else if Ascii.eqb c backslash then
        match r with
        | EmptyString => Throw SyntaxError
        | String e r1 =>
            if Ascii.eqb e "u" then
              match r1 with
              | String a (String b (String c' (String d r2))) =>
                  u <- unicode_escape a b c' d ;;
                  p <- parse_string_body r2 ;; let '(t, rest) := p in
                  Ok (String u t, rest)
              | _ => Throw SyntaxError
              end
            else
              match simple_escape e with
              | Some u =>
                  p <- parse_string_body r1 ;; let '(t, rest) := p in
                  Ok (String u t, rest)
              | None => Throw SyntaxError
              end
        end
      else if (nat_of_ascii c <? 32)%nat then Throw SyntaxError
      else p <- parse_string_body r ;; let '(t, rest) := p in Ok (String c t, rest)
  end.

Fixpoint take_digits (s : string) : string * string :=
  match s with
  | EmptyString => (EmptyString, EmptyString)
  | String c r =>
      if is_digit c then let (d, rest) := take_digits r in (String c d, rest)
      else (EmptyString, s)
  end.

Definition starts_fraction_or_exponent (s : string) : bool :=
  match s with
  | String c _ => Ascii.eqb c "." || Ascii.eqb c "e" || Ascii.eqb c "E"
  | EmptyString => false
  end.

(** An integer literal: an optional minus sign, then a single zero or a
    non-zero digit followed by digits. *)
Definition parse_number (s : string) : outcome (value * string) :=
  let (neg, body) :=
    match s with
    | String c r => if Ascii.eqb c "-" then (true, r) else (false, s)
    | EmptyString => (false, s)
    end in
  match body with
  | EmptyString => Throw SyntaxError
  | String c r =>
      if negb (is_digit c) then Throw SyntaxError
      else
        let (digits, rest) :=
          if Ascii.eqb c "0" then (String c EmptyString, r) else take_digits body in
        if starts_fraction_or_exponent rest then Unmodelled
        else
          let n := Z.of_N (digits_value 0 digits) in
          Ok (VNum (if neg then - n else n)%Z, rest)
  end.

Fixpoint expect (word s : string) : option string :=
  match word, s with
  | EmptyString, _ => Some s
  | String a w, String b r => if Ascii.eqb a b then expect w r else None
  | String _ _, EmptyString => None
  end.

Fixpoint parse_value (fuel : nat) (s : string) : outcome (value * string) :=
  match fuel with
  | O => Unmodelled
  | S f =>
      match skip_ws s with
      | EmptyString => Throw SyntaxError
      | String c r as s' =>
          if Ascii.eqb c "{" then
            match skip_ws r with
            | String c1 r1 =>
                if Ascii.eqb c1 "}" then Ok (VObj [], r1)
                else p <- parse_members f r [] ;; let '(ps, rest) := p in Ok (VObj ps, rest)
            | EmptyString => Throw SyntaxError
            end
          else if Ascii.eqb c "[" then
            match skip_ws r with
            | String c1 r1 =>
                if Ascii.eqb c1 "]" then Ok (VArr [], r1)
                else p <- parse_elements f r [] ;; let '(l, rest) := p in Ok (VArr l, rest)
            | EmptyString => Throw SyntaxError
            end
          else if Ascii.eqb c quote then
            p <- parse_string_body r ;; let '(t, rest) := p in Ok (VStr t, rest)
          else if Ascii.eqb c "t" then
            match expect "rue" r with
            | Some rest => Ok (VBool true, rest)
            | None => Throw SyntaxError
            end
          else if Ascii.eqb c "f" then
            match expect "alse" r with
            | Some rest => Ok (VBool false, rest)
            | None => Throw SyntaxError
            end
          else if Ascii.eqb c "n" then
            match expect "ull" r with
            | Some rest => Ok (VNull, rest)
            | None => Throw SyntaxError
            end
          else parse_number s'
      end
  end
with parse_elements (fuel : nat) (s : string) (acc : list value)
  : outcome (list value * string) :=
  match fuel with
  | O => Unmodelled
  | S f =>
      p <- parse_value f s ;; let '(v, r) := p in
      match skip_ws r with
      | String c r1 =>
          if Ascii.eqb c "," then parse_elements f r1 (acc ++ [v])
          else if Ascii.eqb c "]" then Ok (acc ++ [v], r1)
          else Throw SyntaxError
      | EmptyString => Throw SyntaxError
      end
  end
with parse_members (fuel : nat) (s : string) (acc : list (string * value))
  : outcome (list (string * value) * string) :=
  match fuel with
  | O => Unmodelled
  | S f =>
      match skip_ws s with
      | String c r =>
          if Ascii.eqb c quote then
            p <- parse_string_body r ;; let '(k, r1) := p in
            match skip_ws r1 with
            | String c2 r2 =>
                if Ascii.eqb c2 ":" then
                  p <- parse_value f r2 ;; let '(v, r3) := p in
                  match skip_ws r3 with
                  | String c4 r4 =>
                      if Ascii.eqb c4 "," then parse_members f r4 (assoc_set acc k v)
                      else if Ascii.eqb c4 "}" then Ok (assoc_set acc k v, r4)
                      else Throw SyntaxError
                  | EmptyString => Throw SyntaxError
                  end
                else Throw SyntaxError
            | EmptyString => Throw SyntaxError
            end
          else Throw SyntaxError
      | EmptyString => Throw SyntaxError
      end
  end.

Definition JSON_parse (text : string) : outcome value :=
  p <- parse_value (2 * String.length text + 2) text ;; let '(v, rest) := p in
  if is_empty (skip_ws rest) then Ok v else Throw SyntaxError.

(** ** Token lifetime *)

(** The part of the adapter this library calls. *)
Record Adapter : Type := { atob : string -> outcome string }.

(** Modelled from the spec: the adapter's [atob] (base64 decoding supplied by
    the host runtime) is not part of these sources; [browser_atob] is the
    browser's forgiving base64 decoder, used to evaluate the library on
    concrete tokens. *)
Definition b64_value (c : ascii) : option N :=
  let n := N_of_ascii c in
  if (65 <=? n)%N && (n <=? 90)%N then Some (n - 65)%N
  else if (97 <=? n)%N && (n <=? 122)%N then Some (n - 71)%N
  else if (48 <=? n)%N && (n <=? 57)%N then Some (n + 4)%N
  else if (n =? 43)%N then Some 62%N
  else if (n =? 47)%N then Some 63%N
  else None.

Definition is_b64_ws (c : ascii) : bool :=
  let n := nat_of_ascii c in
  (n =? 9)%nat || (n =? 10)%nat || (n =? 12)%nat || (n =? 13)%nat || (n =? 32)%nat.

Fixpoint remove_b64_ws (s : string) : list ascii :=
  match s with
  | EmptyString => []
  | String c r => if is_b64_ws c then remove_b64_ws r else c :: remove_b64_ws r
  end.

Definition strip_padding (l : list ascii) : list ascii :=
  if (List.length l mod 4 =? 0)%nat then
    match rev l with
    | a :: b :: r =>
        if Ascii.eqb a "=" then
          if Ascii.eqb b "=" then rev r else rev (b :: r)
        else l
    | _ => l
    end
  else l.

Fixpoint sextets (l : list ascii) : option (list N) :=
  match l with
  | [] => Some []
  | c :: r =>
      match b64_value c, sextets r with
      | Some x, Some xs => Some (x :: xs)
      | _, _ => None
      end
  end.

Fixpoint decode_sextets (l : list N) : string :=
  match l with
  | a :: b :: c :: d :: r =>
      String (ascii_of_N (a * 4 + b / 16))
        (String (ascii_of_N ((b mod 16) * 16 + c / 4))
           (String (ascii_of_N ((c mod 4) * 64 + d)) (decode_sextets r)))
  | [a; b; c] =>
      String (ascii_of_N (a * 4 + b / 16))
        (String (ascii_of_N ((b mod 16) * 16 + c / 4)) EmptyString)
  | [a; b] => String (ascii_of_N (a * 4 + b / 16)) EmptyString
  | _ => EmptyString
  end.

Definition browser_atob (s : string) : outcome string :=
  let l := strip_padding (remove_b64_ws s) in
  if (List.length l mod 4 =? 1)%nat then Throw InvalidCharacterError
  else match sextets l with
       | Some xs => Ok (decode_sextets xs)
       | None => Throw InvalidCharacterError
       end.

Definition browser_env : Adapter := {| atob := browser_atob |}.

Definition jwtDecode (token : string) (env : Adapter) : outcome value :=
  match nth_error (split_dot token) 1 with
  | Some payload =>
      if negb (is_empty payload) then s <- atob env payload ;; JSON_parse s
      else Ok VNull
  | None => Ok VNull
  end.

Record TokenResponse : Type := {
  expires_in : option Z;
  access_token : option string
}.

(** [date_now] is the reading of [Date.now()], in milliseconds. *)
Definition getAccessTokenExpiration (date_now : Z) (tokenResponse : TokenResponse)
  (env : Adapter) : outcome value :=
  let now := (date_now / 1000)%Z in
  let option1 :=
    match expires_in tokenResponse with
    | Some e => negb (e =? 0)%Z
    | None => false
    end in
  if option1 then
    Ok (VNum (now + match expires_in tokenResponse with Some e => e | None => 0 end))
  else
    let fallback := Ok (VNum (now + 300)) in
    match access_token tokenResponse with
    | Some token =>
        if negb (is_empty token) then
          tokenBody <- jwtDecode token env ;;
          if truthy tokenBody then
            exp <- prop_get tokenBody "exp" ;;
            if truthy exp then Ok exp else fallback
          else fallback
        else fallback
    | None => fallback
    end.

(** ** Request pipeline *)

Definition lower_char (c : ascii) : ascii :=
  let n := nat_of_ascii c in
  if ((65 <=? n)%nat && (n <=? 90)%nat)
     || ((192 <=? n)%nat && (n <=? 222)%nat && negb (n =? 215)%nat)
  then ascii_of_nat (n + 32) else c.

Fixpoint toLowerCase (s : string) : string :=
  match s with
  | EmptyString => EmptyString
  | String c r => String (lower_char c) (toLowerCase r)
  end.

Fixpoint chars_from (i : nat) (s : string) : list (string * value) :=
  match s with
  | EmptyString => []
  | String c r =>
      (NilEmpty.string_of_uint (Nat.to_uint i), VStr (String c EmptyString))
        :: chars_from (S i) r
  end.

(** The copy is built by assignments to a fresh object, so an entry whose
    lower-case name is [__proto__] goes to the inherited setter and does not
    become an own property of the copy. *)
Fixpoint loweCaseKeys (obj : value) : value :=
  match obj with
  | VArr l => VArr (map (fun v => if is_container v then loweCaseKeys v else v) l)
  | VObj ps =>
      VObj ((fix each (ps out : list (string * value)) : list (string * value) :=
               match ps with
               | [] => out
               | (key, v) :: r =>
                   let lowerKey := toLowerCase key in
                   each r (if String.eqb lowerKey "__proto__" then out
                           else assoc_set out lowerKey
                                  (if is_container v then loweCaseKeys v else v))
               end) ps [])
  | VStr s => if is_empty s then obj else VObj (chars_from 0 s)
  | VBool b => if b then VObj [] else obj
  | VNum n => if (n =? 0)%Z then obj else VObj []
  | VUndefined | VNull => obj
  end.

(** Own enumerable properties, as an object spread copies them. *)
Definition own_props (v : value) : list (string * value) :=
  match v with
  | VObj ps => ps
  | VArr l =>
      (fix each (i : nat) (l : list value) : list (string * value) :=
         match l with
         | [] => []
         | x :: r => (NilEmpty.string_of_uint (Nat.to_uint i), x) :: each (S i) r
         end) 0%nat l
  | VStr s => chars_from 0 s
  | _ => []
  end.

Record FetchOptions : Type := {
  opt_mode : option string;
  opt_method : option string;
  opt_body : option string;              (* [None]: [null] or absent *)
  opt_headers : value;                   (* [VUndefined] when absent *)
  opt_other : list (string * value);     (* every other entry, passed through *)
  includeResponse : bool
}.

Definition no_options : FetchOptions :=
  {| opt_mode := None; opt_method := None; opt_body := None;
     opt_headers := VUndefined; opt_other := []; includeResponse := false |}.

(** The second argument handed to [fetch]. *)
Record RequestInit : Type := {
  init_mode : string;
  init_method : option string;
  init_body : option string;
  init_headers : list (string * value);
  init_other : list (string * value)
}.

Definition fetch_init (o : FetchOptions) : RequestInit :=
  {| init_mode := match opt_mode o with Some m => m | None => "cors" end;
     init_method := opt_method o;
     init_body := opt_body o;
     init_headers :=
       fold_left (fun acc kv => assoc_set acc (fst kv) (snd kv))
         (own_props (loweCaseKeys (opt_headers o)))
         [("accept", VStr "application/json")];
     init_other := opt_other o |}.

Record Response : Type := {
  status : Z;
  headers : list (string * string);      (* names in lower case *)
  body_text : string
}.

Definition ok (resp : Response) : bool :=
  (200 <=? status resp)%Z && (status resp <=? 299)%Z.

Fixpoint headers_get (hs : list (string * string)) (name : string) : option string :=
  match hs with
  | [] => None
  | (k, v) :: r => if String.eqb k name then Some v else headers_get r name
  end.

(** The class [HttpError] is not part of this library.  [parse resp] stands
    for [new HttpError(resp)] followed by [await error.parse()]: it yields
    the message the error ends up with, or what the two raise. *)
Definition checkResponse (parse : Response -> outcome string) (resp : Response)
  : outcome Response :=
  if negb (ok resp) then
    message <- parse resp ;; Throw (HttpError (status resp) message)
  else Ok resp.

(** [resp.text()] is read instead of [resp.json()], which throws on an
    empty body. *)
Definition responseToJSON (resp : Response) : outcome value :=
  if negb (is_empty (body_text resp)) then JSON_parse (body_text resp)
  else Ok (VStr EmptyString).

Definition is_word_char (c : ascii) : bool :=
  let n := nat_of_ascii c in
  ((48 <=? n)%nat && (n <=? 57)%nat) || ((65 <=? n)%nat && (n <=? 90)%nat)
  || ((97 <=? n)%nat && (n <=? 122)%nat) || (n =? 95)%nat.

Fixpoint strip_prefix_ci (w s : string) : option string :=
  match w, s with
  | EmptyString, _ => Some s
  | String a w', String b r =>
      if Ascii.eqb (lower_char a) (lower_char b) then strip_prefix_ci w' r else None
  | String _ _, EmptyString => None
  end.

Definition at_word_end (s : string) : bool :=
  match s with
  | EmptyString => true
  | String c _ => negb (is_word_char c)
  end.

(** [/\bw\b/i.test(s)] for a word [w] of letters. *)
Fixpoint word_match_from (after_word_char : bool) (w s : string) : bool :=
  match s with
  | EmptyString => false
  | String c r =>
      (negb after_word_char
       && match strip_prefix_ci w s with
          | Some rest => at_word_end rest
          | None => false
          end)
      || word_match_from (is_word_char c) w r
  end.

Definition word_match (w s : string) : bool := word_match_from false w s.

Definition content_type (res : Response) : string :=
  match headers_get (headers res) "content-type" with
  | Some t => t
  | None => "null"
  end.

Inductive FetchResult : Type :=
| Body (body : value)
| RawResponse (res : Response)
| BodyAndResponse (body : value) (res : Response).

Definition follow_up_options (o : FetchOptions) : FetchOptions :=
  {| opt_mode := opt_mode o; opt_method := Some "GET"; opt_body := None;
     opt_headers := opt_headers o; opt_other := opt_other o;
     includeResponse := includeResponse o |}.

Definition read_body (res : Response) : outcome value :=
  let type := content_type res in
  if word_match "json" type then JSON_parse (body_text res)
  else if word_match "text" type then Ok (VStr (body_text res))
  else Ok VUndefined.

Definition location_to_follow (res : Response) (body : value) : option string :=
  if negb (truthy body) && (status res =? 201)%Z then
    match headers_get (headers res) "location" with
    | Some location => if negb (is_empty location) then Some location else None
    | None => None
    end
  else None.

(** [fetch] stands for the network; the fuel bounds the number of
    [Location] hops followed. *)
Fixpoint request (fuel : nat) (parse : Response -> outcome string)
  (fetch : string -> RequestInit -> outcome Response)
  (url : string) (requestOptions : FetchOptions) : outcome FetchResult :=
  match fuel with
  | O => Unmodelled
  | S fuel' =>
      res0 <- fetch url (fetch_init requestOptions) ;;
      res <- checkResponse parse res0 ;;
      body <- read_body res ;;
      match location_to_follow res body with
      | Some location =>
          request fuel' parse fetch location (follow_up_options requestOptions)
      | None =>
          if includeResponse requestOptions then Ok (BodyAndResponse body res)
          else if is_undefined body then Ok (RawResponse res)
          else Ok (Body body)
      end
  end.

(** The result of [request] when some number of hops suffices. *)
Definition request_yields (parse : Response -> outcome string)
  (fetch : string -> RequestInit -> outcome Response)
  (url : string) (o : FetchOptions) (r : FetchResult) : Prop :=
  exists fuel, request fuel parse fetch url o = Ok r.

(** ** The per-URL cache

    The cache is a plain object used as a map from URLs to promises.  A
    promise created by [request] is identified by the rank of the call that
    created it; [issued] is the log of those calls.  [cache] holds the own
    properties of the object and, under the key [__proto__], the promise
    that a write to that key has made the prototype of the object. *)

Record CacheState : Type := {
  cache : gmap string nat;
  issued : list (string * option FetchOptions)
}.

Definition empty_cache : CacheState := {| cache := ∅; issued := [] |}.

(** The names a promise inherits from [Promise.prototype]. *)
Definition promise_members : list string := ["constructor"; "then"; "catch"; "finally"].

(** What [cache[url]] reads: a promise stored there, a member inherited from
    [Object.prototype] (or, once a promise is the prototype, from
    [Promise.prototype]), or [undefined]. *)
Inductive Lookup : Type :=
| Entry (p : nat)
| Member
| Missing.

Definition cache_read (st : CacheState) (url : string) : Lookup :=
  match cache st !! url with
  | Some p => Entry p
  | None =>
      if named object_members url
         || (match cache st !! "__proto__" with Some _ => true | None => false end
             && named promise_members url)
      then Member else Missing
  end.

(** What a caller is handed. *)
Inductive Handed : Type :=
| Shared (p : nat)     (* the promise of the request of rank [p] *)
| Wrapped.             (* a new promise, fulfilled with an inherited member *)

Definition default_force (NODE_ENV : option string) : bool :=
  match NODE_ENV with
  | Some v => String.eqb v "test"
  | None => false
  end.

(** The value of the parameter [force]: the argument, or its default when
    the argument is absent. *)
Definition effective_force (NODE_ENV : option string) (force : option bool) : bool :=
  match force with
  | Some b => b
  | None => default_force NODE_ENV
  end.

(** [cache[url] = request(url, requestOptions); return cache[url]] *)
Definition issue_request (url : string) (requestOptions : option FetchOptions)
  (st : CacheState) : Handed * CacheState :=
  let q := List.length (issued st) in
  (Shared q, {| cache := <[url := q]> (cache st);
                issued := issued st ++ [(url, requestOptions)] |}).

(** [force || !cache[url]]: a promise and an inherited member are both
    truthy.  [Promise.resolve] of a promise is that promise; of anything
    else it is a new promise. *)
Definition getAndCache (NODE_ENV : option string) (url : string)
  (requestOptions : option FetchOptions) (force : option bool) (st : CacheState)
  : Handed * CacheState :=
  if effective_force NODE_ENV force then issue_request url requestOptions st
  else match cache_read st url with
       | Entry p => (Shared p, st)
       | Member => (Wrapped, st)
       | Missing => issue_request url requestOptions st
       end.

Record Call : Type := {
  call_url : string;
  call_options : option FetchOptions;
  call_force : option bool
}.

(** A run of calls in program order, with what each one returned. *)
Fixpoint run_calls (NODE_ENV : option string) (calls : list Call) (st : CacheState)
  : list Handed * CacheState :=
  match calls with
  | [] => ([], st)
  | c :: r =>
      let (h, st1) :=
        getAndCache NODE_ENV (call_url c) (call_options c) (call_force c) st in
      let (hs, st2) := run_calls NODE_ENV r st1 in
      (h :: hs, st2)
  end.

Definition requests_for (url : string) (st : CacheState) : nat :=
  List.length (List.filter (fun e => String.eqb (fst e) url) (issued st)).

(** ** Patient-scoping parameter *)

Definition quoted (s : string) : string := String quote (s ++ String quote EmptyString).


(** [v === s] for a string [s]. *)
Definition strict_eq_string (v : value) (s : string) : bool :=
  match v with VStr t => String.eqb t s | _ => false end.





(** ** Target window *)

Definition Window : Type := nat.

Inductive Target : Type :=
| TFunction (invoke : Invocation)   (* [typeof target == "function"] *)
| TObject (w : Window)              (* a truthy object, taken to be a window *)
| TNull
| TString (s : string)
| TOther                            (* [undefined], a boolean, a number, ... *)
with Invocation : Type :=
| Returns (t : Target)              (* the value [await target()] yields *)
| Raises (e : exn).                 (* the call throws or its promise rejects *)

Inductive OpenRequest : Type :=
| OpenTab                           (* [window.open("", "SMARTAuthPopup")] *)
| OpenPopup (width height : Z).     (* the same with the popup features *)

Inductive OpenResult : Type :=
| Opened (w : Window)
| Blocked                           (* [null] *)
| OpenThrows (e : exn).

Record Browser : Type := {
  win_self : Window;
  win_parent : Window;
  win_top : option Window;
  window_open : OpenRequest -> OpenResult;
  frames : string -> option Window
}.

Definition open_or_self (env : Browser) (req : OpenRequest) : Window :=
  match window_open env req with
  | Opened w => w
  | Blocked | OpenThrows _ => win_self env
  end.

(** The function body after the optional call of a function target. *)
Definition resolve_target (env : Browser) (target : Target) (width height : Z)
  : Window :=
  match target with
  | TObject w => w
  | TString s =>
      if String.eqb s "_self" then win_self env
      else if String.eqb s "_parent" then win_parent env
      else if String.eqb s "_top" then
        match win_top env with Some w => w | None => win_self env end
      else if String.eqb s "_blank" then open_or_self env OpenTab
      else if String.eqb s "popup" then open_or_self env (OpenPopup width height)
      else match frames env s with
           | Some w => w
           | None => win_self env
           end
  | TFunction _ | TNull | TOther => win_self env
  end.

Definition getTargetWindow (env : Browser) (target : Target) (width height : Z)
  : outcome Window :=
  match target with
  | TFunction (Raises e) => Throw e
  | TFunction (Returns t) => Ok (resolve_target env t width height)
  | _ => Ok (resolve_target env target width height)
  end.

(** ** JSON-Patch validation *)

Definition assert (condition : bool) (message : string) : outcome unit :=
  if condition then Ok tt else Throw (Error message).

Definition known_ops : list string :=
  ["add"; "replace"; "test"; "move"; "copy"; "remove"].

Fixpoint distinct_keys (ps : list (string * value)) : list string :=
  match ps with
  | [] => []
  | (k, _) :: r =>
      if existsb (String.eqb k) (distinct_keys r) then distinct_keys r
      else k :: distinct_keys r
  end.

(** [Object.keys(o).length] *)
Definition keys_length (o : value) : outcome nat :=
  match o with
  | VUndefined | VNull => Throw TypeError
  | VBool _ | VNum _ => Ok 0%nat
  | VStr s => Ok (String.length s)
  | VArr l => Ok (List.length l)
  | VObj ps => Ok (List.length (distinct_keys ps))
  end.

(** [key in o]: an own property or an inherited member. *)
Definition has_property (o : value) (key : string) : outcome bool :=
  match o with
  | VObj ps =>
      Ok (match assoc_get ps key with
          | Some _ => true
          | None => inherited o key
          end)
  | VArr l =>
      Ok (String.eqb key "length"
          || match array_index key with
             | Some i => (i <? List.length l)%nat
             | None => inherited o key
             end)
  | _ => Throw TypeError
  end.

Definition typeof_is_string (v : value) : bool :=
  match v with VStr _ => true | _ => false end.

Definition op_name (op : value) : string :=
  match op with VStr s => s | _ => EmptyString end.

Definition msg_op : string :=
  "Each patch operation must have an " ++ quoted "op"
  ++ " property which must be one of: " ++ quoted "add" ++ ", " ++ quoted "replace"
  ++ ", " ++ quoted "test" ++ ", " ++ quoted "move" ++ ", " ++ quoted "copy"
  ++ ", " ++ quoted "remove".

Definition msg_invalid (op : value) (what : string) : string :=
  "Invalid " ++ quoted (op_name op) ++ " operation. " ++ what.

Definition check_operation (operation : value) : outcome unit :=
  op <- prop_get operation "op" ;;
  assert (existsb (strict_eq_string op) known_ops) msg_op ;;;
  path <- prop_get operation "path" ;;
  assert (truthy path) (msg_invalid op ("Missing " ++ quoted "path" ++ " property")) ;;;
  if strict_eq_string op "add" || strict_eq_string op "replace"
     || strict_eq_string op "test" then
    has_value <- has_property operation "value" ;;
    assert has_value (msg_invalid op ("Missing " ++ quoted "value" ++ " property")) ;;;
    n <- keys_length operation ;;
    assert (n =? 3)%nat (msg_invalid op "Contains unknown properties")
  else if strict_eq_string op "move" || strict_eq_string op "copy" then
    from <- prop_get operation "from" ;;
    assert (typeof_is_string from)
      (msg_invalid op ("Requires a string " ++ quoted "from" ++ " property")) ;;;
    n <- keys_length operation ;;
    assert (n =? 3)%nat (msg_invalid op "Contains unknown properties")
  else
    n <- keys_length operation ;;
    assert (n =? 2)%nat (msg_invalid op "Contains unknown properties").

Fixpoint forEach (f : value -> outcome unit) (l : list value) : outcome unit :=
  match l with
  | [] => Ok tt
  | x :: r => f x ;;; forEach f r
  end.

Definition assertJsonPatch (patch : value) : outcome unit :=
  assert (isArray patch) "The JSON patch must be an array" ;;;
  match patch with
  | VArr ops =>
      assert (0 <? List.length ops)%nat "The JSON patch array should not be empty" ;;;
      forEach check_operation ops
  | _ => Ok tt
  end.

(** *** When a write through a path lands

    [writable out key]: the assignment [out[key] = v] adds or replaces an
    own entry: [out] is an array and [key] an array index, or [out] is an
    object and [key] is not [__proto__], unless that is an own entry.

    [settable createEmpty out segments]: every segment is writable where the
    walk stands, and every segment but the last leads through an own entry to
    a container, or to an entry that is missing (and that no prototype
    supplies) when [createEmpty] is set. *)

Definition writable (out : value) (key : string) : bool :=
  match out with
  | VObj ps =>
      match assoc_get ps key with
      | Some _ => true
      | None => negb (String.eqb key "__proto__")
      end
  | VArr _ => match array_index key with Some _ => true | None => false end
  | _ => false
  end.

Fixpoint settable (createEmpty : bool) (out : value) (segments : list string) : bool :=
  match segments with
  | [] => false
  | key :: rest =>
      writable out key
      && match rest with
         | [] => true
         | next :: _ =>
             match prop_get out key with
             | Ok VUndefined =>
                 createEmpty
                 && settable createEmpty (if is_numeric next then VArr [] else VObj []) rest
             | Ok child => settable createEmpty child rest
             | _ => false
             end
         end
  end.

(** *** Well-formed patch documents

    [valid_operation path_ok] spells out the requirements on one operation;
    [path_ok] is the requirement on its [path] field. *)

Definition field_count (ps : list (string * value)) : nat :=
  List.length (distinct_keys ps).

Definition valid_operation (path_ok : option value -> bool) (operation : value) : bool :=
  match operation with
  | VObj ps =>
      match assoc_get ps "op" with
      | Some (VStr op) =>
          existsb (String.eqb op) known_ops
          && path_ok (assoc_get ps "path")
          && (if String.eqb op "add" || String.eqb op "replace" || String.eqb op "test"
              then match assoc_get ps "value" with
                   | Some _ => (field_count ps =? 3)%nat
                   | None => false
                   end
              else if String.eqb op "move" || String.eqb op "copy"
              then match assoc_get ps "from" with
                   | Some (VStr _) => (field_count ps =? 3)%nat
                   | _ => false
                   end
              else (field_count ps =? 2)%nat)
      | _ => false
      end
  | _ => false
  end.

Definition valid_patch (path_ok : option value -> bool) (patch : value) : bool :=
  match patch with
  | VArr ops => negb (Nat.eqb (List.length ops) 0) && forallb (valid_operation path_ok) ops
  | _ => false
  end.

(** The operation has a [path] field (the requirement as the specification
    words it). *)
Definition path_present (path : option value) : bool :=
  match path with Some _ => true | None => false end.

(** The operation has a [path] field whose value is truthy (in particular
    not the empty string). *)
Definition path_truthy (path : option value) : bool :=
  match path with Some v => truthy v | None => false end.

(** *** Statements about tokens *)

Fixpoint no_dot (s : string) : bool :=
  match s with
  | EmptyString => true
  | String c r => negb (Ascii.eqb c dot) && no_dot r
  end.

(** The expiry as the specification words it: [now + expires_in] whenever
    the field is present; otherwise the [exp] claim when the token decodes
    and carries one; otherwise [now + 300]. *)
Definition getAccessTokenExpiration_as_stated (date_now : Z)
  (tokenResponse : TokenResponse) (env : Adapter) : outcome value :=
  let now := (date_now / 1000)%Z in
  match expires_in tokenResponse with
  | Some e => Ok (VNum (now + e))
  | None =>
      match access_token tokenResponse with
      | Some token =>
          match jwtDecode token env with
          | Ok (VObj ps) =>
              match assoc_get ps "exp" with
              | Some exp => Ok exp
              | None => Ok (VNum (now + 300))
              end
          | _ => Ok (VNum (now + 300))
          end
      | None => Ok (VNum (now + 300))
      end
  end.

(** *** Statements about the cache *)

(** No call of the run for [url] reloads it, by its argument or by the
    default of [force]. *)
Definition unforced (NODE_ENV : option string) (url : string) (calls : list Call) : Prop :=
  Forall (fun c => call_url c = url ->
                   effective_force NODE_ENV (call_force c) = false) calls.

(** Every call of the run for [url] was handed [h]. *)
Definition all_handed (url : string) (h : Handed) (calls : list Call)
  (hs : list Handed) : Prop :=
  Forall2 (fun c q => call_url c = url -> q = h) calls hs.

(** The URL names no member the cache object can inherit. *)
Definition plain_url (url : string) : bool :=
  negb (named object_members url || named promise_members url).

(** The first call of the run for [url]. *)
Definition first_call (url : string) (calls : list Call) : option Call :=
  List.find (fun c => String.eqb (call_url c) url) calls.

(** The log of [after] is the log of [before] extended by no request for
    [url]. *)
Definition no_request_added (url : string) (before after : CacheState) : Prop :=
  exists added,
    issued after = issued before ++ added
    /\ Forall (fun e => fst e <> url) added.

(** The log of [after] is the log of [before] extended by exactly one
    request for [url], of rank [p] and made with the options [o]. *)
Definition one_request_added (url : string) (before after : CacheState)
  (p : nat) (o : option FetchOptions) : Prop :=
  exists pre post,
    issued after = issued before ++ pre ++ (url, o) :: post
    /\ p = List.length (issued before ++ pre)
    /\ Forall (fun e => fst e <> url) (pre ++ post).

(** Every promise in the cache was created by an earlier request. *)
Definition promises_known (st : CacheState) : Prop :=
  forall u p, cache st !! u = Some p -> (p < List.length (issued st))%nat.


Definition sample_call (url : string) (force : option bool) : Call :=
  {| call_url := url; call_options := None; call_force := force |}.

(** *** Sample replies of a server *)

Definition created_reply : Response :=
  {| status := 201;
     headers := [("content-type", "application/fhir+json");
                 ("location", "https://fhir.example/Patient/1")];
     body_text := EmptyString |}.

Definition patient_reply : Response :=
  {| status := 200;
     headers := [("content-type", "application/fhir+json")];
     body_text := "{}" |}.

(** A reading of the reply of a failed request that keeps its text. *)
Definition sample_parse (resp : Response) : outcome string := Ok (body_text resp).

Definition sample_server (url : string) (init : RequestInit) : outcome Response :=
  if String.eqb url "https://fhir.example/Patient" then Ok created_reply
  else Ok patient_reply.

(** *** What a conformance statement declares

    A [ResourceDecl] is the part of a resource descriptor the selection
    looks at: its type and the names of its search parameters, if it lists
    any.  [declares conformance decls] relates a conformance statement, as
    the JavaScript object it is, to the descriptors of its first REST
    capability; the objects may carry any further fields. *)












(** *** Statements about the target window *)

(** The target is a function whose call throws (or whose promise rejects). *)
Definition raising_target (target : Target) : bool :=
  match target with
  | TFunction (Raises _) => true
  | _ => false
  end.

(** The target once a function target has been called. *)
Definition awaited_target (target : Target) : Target :=
  match target with
  | TFunction (Returns t) => t
  | _ => target
  end.

Definition opens (env : Browser) (req : OpenRequest) : bool :=
  match window_open env req with
  | Opened _ => true
  | Blocked | OpenThrows _ => false
  end.

(** The requested viewing context cannot be obtained: the target has an
    invalid type, [window.open] throws or returns [null], there is no top
    window, or no frame has the name asked for. *)
Definition unreachable (env : Browser) (target : Target) (width height : Z) : bool :=
  match target with
  | TObject _ => false
  | TString s =>
      if String.eqb s "_self" || String.eqb s "_parent" then false
      else if String.eqb s "_top" then
        match win_top env with Some _ => false | None => true end
      else if String.eqb s "_blank" then negb (opens env OpenTab)
      else if String.eqb s "popup" then negb (opens env (OpenPopup width height))
      else match frames env s with Some _ => false | None => true end
  | TFunction _ | TNull | TOther => true
  end.

(** A browser in which pop-ups are blocked and tabs cannot be opened. *)
Definition locked_browser : Browser :=
  {| win_self := 0%nat;
     win_parent := 1%nat;
     win_top := Some 2%nat;
     window_open := fun req =>
       match req with
       | OpenTab => OpenThrows (HostError "SecurityError")
       | OpenPopup _ _ => Blocked
       end;
     frames := fun name => if String.eqb name "launch" then Some 3%nat else None |}.

(** *** Paths through own properties

    [plain_path path]: no segment of the path, the white space around it
    apart, names a member of a built-in prototype. *)

Definition builtin_members : list string :=
  object_members ++ array_members ++ string_members ++ number_members.

Definition plain_key (key : string) : bool :=
  negb (named builtin_members (trim key)).

Definition plain_path (path : string) : bool :=
  forallb plain_key (split_dot path).

(** ** Further helpers of the library *)

(** *** Measurement units

    A quantity carries a unit code and a value; the value is a JavaScript
    number (a binary64 float) or something else, kept with its string form. *)

Inductive QuantityValue : Type :=
| QNumber (n : float)
| QOther (shown : string).

Record CodeValue : Type := {
  code : string;
  value_of : QuantityValue
}.

Definition ensureNumerical (pq : CodeValue) : outcome float :=
  match value_of pq with
  | QNumber n => Ok n
  | QOther shown =>
      Throw (Error ("Found a non-numerical unit: " ++ shown ++ " " ++ code pq))
  end.

(** [s.match(/w/)] for a literal [w]: [w] occurs in [s]. *)
Fixpoint contains (w s : string) : bool :=
  String.prefix w s
  || match s with
     | EmptyString => false
     | String _ r => contains w r
     end.

Module units.

Definition cm (pq : CodeValue) : outcome float :=
  value <- ensureNumerical pq ;;
  if String.eqb (code pq) "cm" then Ok value
  else if String.eqb (code pq) "m" then Ok (value * 100)%float
  else if String.eqb (code pq) "in" then Ok (value * 2.54)%float
  else if String.eqb (code pq) "[in_us]" then Ok (value * 2.54)%float
  else if String.eqb (code pq) "[in_i]" then Ok (value * 2.54)%float
  else if String.eqb (code pq) "ft" then Ok (value * 30.48)%float
  else if String.eqb (code pq) "[ft_us]" then Ok (value * 30.48)%float
  else Throw (Error ("Unrecognized length unit: " ++ code pq)).

Definition kg (pq : CodeValue) : outcome float :=
  value <- ensureNumerical pq ;;
  if String.eqb (code pq) "kg" then Ok value
  else if String.eqb (code pq) "g" then Ok (value / 1000)%float
  else if contains "lb" (code pq) then Ok (value / 2.20462)%float
  else if contains "oz" (code pq) then Ok (value / 35.274)%float
  else Throw (Error ("Unrecognized weight unit: " ++ code pq)).

Definition any (pq : CodeValue) : outcome float := ensureNumerical pq.

End units.

(** *** URLs *)

Definition slash : ascii := "/"%char.

Fixpoint strip_leading_slashes (s : string) : string :=
  match s with
  | EmptyString => EmptyString
  | String c r => if Ascii.eqb c slash then strip_leading_slashes r else s
  end.

(** The text before the trailing run of slashes. *)
Fixpoint strip_trailing_slashes (s : string) : string :=
  match s with
  | EmptyString => EmptyString
  | String c r =>
      let r' := strip_trailing_slashes r in
      if Ascii.eqb c slash && is_empty r' then EmptyString else String c r'
  end.

(** [baseUrl] is [None] when the argument is absent. *)
Definition absolute (path : string) (baseUrl : option string) : string :=
  if String.prefix "http" path then path
  else if String.prefix "urn" path then path
  else
    let base := match baseUrl with
                | Some b => if negb (is_empty b) then b else EmptyString
                | None => EmptyString
                end in
    strip_trailing_slashes base ++ "/" ++ strip_leading_slashes path.

(** *** Random strings

    [draw k] is the value of [Math.floor(Math.random() * len)] at the [k]-th
    turn of the loop; the length asked for is a natural number. *)

Definition charAt (s : string) (i : nat) : string :=
  match string_at s i with
  | Some c => String c EmptyString
  | None => EmptyString
  end.

Fixpoint randomString_from (k strLength : nat) (charSet : string) (draw : nat -> nat)
  : string :=
  match strLength with
  | O => EmptyString
  | S n => charAt charSet (draw k) ++ randomString_from (S k) n charSet draw
  end.

Definition randomString (strLength : nat) (charSet : string) (draw : nat -> nat)
  : string :=
  randomString_from 0 strLength charSet draw.

Definition default_charSet : string :=
  "ABCDEFGHIJKLMNOPQRSTUVWXYZabcdefghijklmnopqrstuvwxyz0123456789".

(** *** Times *)

(** The [from] argument: absent, a number of milliseconds, or a [Date]. *)
Inductive TimeArg : Type :=
| TimeAbsent
| TimeNumber (ms : Z)
| TimeDate (ms : Z).

(** [secondsAhead] is a whole number of seconds, [None] when absent. *)
Definition getTimeInFuture (date_now : Z) (secondsAhead : option Z) (from : TimeArg) : Z :=
  let seconds := match secondsAhead with Some s => s | None => 120%Z end in
  let start :=
    match from with
    | TimeNumber ms => if negb (ms =? 0)%Z then ms else date_now
    | TimeDate ms => ms
    | TimeAbsent => date_now
    end in
  (start / 1000 + seconds)%Z.

(** *** Observations by code

    The map under construction is a plain object whose own properties are
    the arrays created here, so it is kept as a map from a code to the list
    of its observations. *)

Definition makeArray (arg : value) : list value :=
  match arg with
  | VArr l => l
  | _ => [arg]
  end.

Definition ObservationMap : Type := list (string * list value).

Fixpoint bank_get (ret : ObservationMap) (c : string) : option (list value) :=
  match ret with
  | [] => None
  | (k, l) :: r => if String.eqb k c then Some l else bank_get r c
  end.

Fixpoint bank_set (ret : ObservationMap) (c : string) (l : list value) : ObservationMap :=
  match ret with
  | [] => [(c, l)]
  | (k, l0) :: r =>
      if String.eqb k c then (k, l) :: r else (k, l0) :: bank_set r c l
  end.

(** The body of the loop over codings.  A code that is not a string would be
    turned into a property name, which is outside the fragment.  Under a code
    that names a member of [Object.prototype], [ret[code] || []] is that
    member, which has no [push]: the call raises a TypeError. *)
Definition push_coding (observation : value) (ret : ObservationMap) (coding : value)
  : outcome ObservationMap :=
  c <- prop_get coding "code" ;;
  if truthy c then
    match c with
    | VStr name =>
        match bank_get ret name with
        | Some current => Ok (bank_set ret name (current ++ [observation]))
        | None =>
            if named object_members name then Throw TypeError
            else Ok (bank_set ret name [observation])
        end
    | _ => Unmodelled
    end
  else Ok ret.

(** [forEach] with the map as the state of the loop. *)
Fixpoint fold_outcome {A S : Type} (f : S -> A -> outcome S) (l : list A) (s : S)
  : outcome S :=
  match l with
  | [] => Ok s
  | x :: r => s1 <- f s x ;; fold_outcome f r s1
  end.

Definition handleCodeableConcept (observation : value) (ret : ObservationMap)
  (concept : value) : outcome ObservationMap :=
  if truthy concept then
    coding <- prop_get concept "coding" ;;
    match coding with
    | VArr codings => fold_outcome (push_coding observation) codings ret
    | _ => Ok ret
    end
  else Ok ret.

Definition index_observation (property : string) (ret : ObservationMap) (o : value)
  : outcome ObservationMap :=
  resourceType <- prop_get o "resourceType" ;;
  if strict_eq_string resourceType "Observation" then
    p <- prop_get o property ;;
    if truthy p then
      match p with
      | VArr concepts => fold_outcome (handleCodeableConcept o) concepts ret
      | _ => handleCodeableConcept o ret p
      end
    else Ok ret
  else Ok ret.

Definition byCode (observations : value) (property : string) : outcome ObservationMap :=
  fold_outcome (index_observation property) (makeArray observations) [].

(** [code in bank]: an own property, or a member of [Object.prototype]. *)
Definition in_bank (bank : ObservationMap) (c : string) : bool :=
  match bank_get bank c with
  | Some _ => true
  | None => named object_members c
  end.

(** The function [byCodes] returns, applied to the codes it is given.  A
    code that names an inherited member passes the filter, and [concat] then
    adds that member to the result, which leaves the fragment. *)
Definition filter_codes (bank : ObservationMap) (codes : list string)
  : outcome (list value) :=
  fold_outcome
    (fun prev c =>
       match bank_get bank c with
       | Some l => Ok (prev ++ l)
       | None => Unmodelled
       end)
    (List.filter (in_bank bank) codes)
    [].

Definition byCodes (observations : value) (property : string)
  : outcome (list string -> outcome (list value)) :=
  bank <- byCode observations property ;;
  Ok (filter_codes bank).

(** The map as the object the caller receives. *)
Definition bank_object (bank : ObservationMap) : value :=
  VObj (map (fun e => (fst e, VArr (snd e))) bank).

(** *** Conformance statement *)

Definition conformance_url (baseUrl : string) : string :=
  strip_trailing_slashes baseUrl ++ "/" ++ "metadata".

(** What the [catch] handler makes of the outcome of the cached promise;
    [describe] is the string form of the exception. *)
Definition conformance_failure (describe : exn -> string) (url : string) (ex : exn) : exn :=
  Error ("Failed to fetch the conformance statement from " ++ quoted url ++ ". "
           ++ describe ex).

(** The promise that [catch] returns is a new one on each call.  It is
    identified by its rank in [chained], which records the promise it follows
    and the URL its failure names. *)
Record ConformanceState : Type := {
  requests : CacheState;
  chained : list (Handed * string)
}.

(** [getAndCache] is called without [force], which takes its default. *)
Definition fetchConformanceStatement (NODE_ENV : option string)
  (baseUrl : option string) (requestOptions : option FetchOptions)
  (st : ConformanceState) : nat * ConformanceState :=
  let url := conformance_url (match baseUrl with Some b => b | None => "/" end) in
  let (h, c) := getAndCache NODE_ENV url requestOptions None (requests st) in
  (List.length (chained st), {| requests := c; chained := chained st ++ [(h, url)] |}).

(** How the promise of rank [k] settles, [settled] telling how the promise
    of each request does. *)
Definition conformance_outcome (describe : exn -> string)
  (settled : nat -> outcome FetchResult) (st : ConformanceState) (k : nat)
  : outcome FetchResult :=
  match nth_error (chained st) k with
  | Some (Shared p, url) =>
      match settled p with
      | Throw ex => Throw (conformance_failure describe url ex)
      | other => other
      end
  | Some (Wrapped, _) | None => Unmodelled
  end.

(** *** When a write through a path is lost

    [blocked createEmpty out segments]: before its last segment, the walk
    from [out] through own entries meets a value that is falsy (an entry
    that is missing and that no prototype supplies, [null], a zero, an empty
    string or [false]) and that [createEmpty] does not replace. *)

Fixpoint blocked (createEmpty : bool) (out : value) (segments : list string) : bool :=
  match segments with
  | key :: ((_ :: _) as rest) =>
      truthy out
      && match prop_get out key with
         | Ok child =>
             if truthy child then blocked createEmpty child rest
             else negb (is_undefined child && createEmpty)
         | _ => false
         end
  | _ => false
  end.

Definition no_empty_segment (segments : list string) : bool :=
  forallb (fun key => negb (is_empty key)) segments.

(** *** Header merge *)



(** A fold that sets one entry per element of a list, and the value its last
    element of a given name leaves. *)
Section Folding.

Context {A : Type} (name : A -> string) (val : A -> value).



End Folding.


(** *** Runs of slashes, and strings drawn from a set *)

Fixpoint all_slashes (s : string) : bool :=
  match s with
  | EmptyString => true
  | String c r => Ascii.eqb c slash && all_slashes r
  end.

Fixpoint ends_with_slash (s : string) : bool :=
  match s with
  | EmptyString => false
  | String c EmptyString => Ascii.eqb c slash
  | String _ r => ends_with_slash r
  end.

Definition starts_with_slash (s : string) : bool :=
  match s with
  | String c _ => Ascii.eqb c slash
  | EmptyString => false
  end.

(** Every character of [s] occurs in [charSet]. *)
Definition drawn_from (charSet s : string) : Prop :=
  forall i c, string_at s i = Some c -> exists j, string_at charSet j = Some c.

(** *** Statements about the observation map *)

(** The observations listed under a code, none when the code is absent. *)
Definition bank_list (bank : ObservationMap) (c : string) : list value :=
  match bank_get bank c with Some l => l | None => [] end.

(** The map holds no entry under the name of a member of
    [Object.prototype]. *)
Definition clean (ret : ObservationMap) : Prop :=
  forall name, named object_members name = true -> bank_get ret name = None.

(** A step of the indexing loop only appends: what it adds under each code
    does not depend on the map it is given, and neither does its failure. *)
Definition additive (step : ObservationMap -> outcome ObservationMap) : Prop :=
  forall ret,
    clean ret ->
    match step [] with
    | Ok d =>
        clean d
        /\ exists ret', step ret = Ok ret'
                        /\ clean ret'
                        /\ forall c, bank_list ret' c = bank_list ret c ++ bank_list d c
    | Throw e => step ret = Throw e
    | Unmodelled => step ret = Unmodelled
    end.

(** The code names no member of [Object.prototype]. *)
Definition plain_code (c : string) : Prop := named object_members c = false.

(** The code names one. *)
Definition member_code (c : string) : Prop := named object_members c = true.

(** [concept] is a CodeableConcept whose codings carry the codes [cs]. *)
Definition concept_codes (concept : value) (cs : list string) : Prop :=
  truthy concept = true
  /\ exists codings,
       prop_get concept "coding" = Ok (VArr codings)
       /\ Forall2 (fun coding c => prop_get coding "code" = Ok (VStr c)
                                   /\ is_empty c = false) codings cs.

Definition sample_observation : value :=
  VObj [("resourceType", VStr "Observation");
        ("category",
         VArr [VObj [("coding", VArr [VObj [("system", VStr "http://hl7.org");
                                            ("code", VStr "vital-signs")];
                                      VObj [("code", VStr "exam")]])];
               VObj [("coding", VArr [VObj [("code", VStr "vital-signs")]])]])].

(** *** The cache and the log of requests

    [latest_request st url p]: the request of rank [p] was for [url], and no
    later request was. *)
Definition latest_request (st : CacheState) (url : string) (p : nat) : Prop :=
  (exists o, nth_error (issued st) p = Some (url, o))
  /\ forall q o, (p < q)%nat -> nth_error (issued st) q <> Some (url, o).

Definition cache_tracks_requests (st : CacheState) : Prop :=
  (forall url p, cache st !! url = Some p -> latest_request st url p)
  /\ (forall q url o, nth_error (issued st) q = Some (url, o) ->
                      exists p, cache st !! url = Some p).

(** * Properties *)

(** ** Outcomes *)

Lemma bind_Ok_inv {A B : Type} (m : outcome A) (k : A -> outcome B) (b : B) :
  bind m k = Ok b -> exists a, m = Ok a /\ k a = Ok b.
Proof.
  destruct m as [a| |]; simpl; intros H; try discriminate.
  exists a; split; [reflexivity | exact H].
Qed.

Lemma map_outcome_total {A B : Type} (f : A -> outcome B) (l : list A) :
  (forall x, exists y, f x = Ok y) -> exists ys, map_outcome f l = Ok ys.
Proof.
  intros Hf. induction l as [|x r IH]; simpl.
  - exists []. reflexivity.
  - destruct (Hf x) as [y Hy]. destruct IH as [ys Hys].
    rewrite Hy, Hys. simpl. exists (y :: ys). reflexivity.
Qed.

(** ** Strings *)

Lemma trim_start_length (s : string) :
  (String.length (trim_start s) <= String.length s)%nat.
Proof.
  induction s as [|c r IH]; simpl; [lia|].
  destruct (is_ws c); simpl; lia.
Qed.

Lemma trim_end_length (s : string) :
  (String.length (trim_end s) <= String.length s)%nat.
Proof.
  induction s as [|c r IH]; simpl; [lia|].
  destruct (is_ws c && is_empty (trim_end r)); simpl; lia.
Qed.

Lemma trim_length (s : string) :
  (String.length (trim s) <= String.length s)%nat.
Proof.
  unfold trim. pose proof (trim_end_length (trim_start s)).
  pose proof (trim_start_length s). lia.
Qed.

Lemma is_empty_true (s : string) : is_empty s = true <-> s = EmptyString.
Proof. destruct s; simpl; split; congruence. Qed.

Lemma is_empty_false_length (s : string) :
  is_empty s = false -> (1 <= String.length s)%nat.
Proof. destruct s; simpl; [discriminate | lia]. Qed.

Lemma split_dot_not_nil (s : string) : split_dot s <> [].
Proof.
  induction s as [|c r IH]; simpl; [discriminate|].
  destruct (Ascii.eqb c dot); [discriminate|].
  destruct (split_dot r); discriminate.
Qed.

Lemma join_split_dot (s : string) : join_dot (split_dot s) = s.
Proof.
  induction s as [|c r IH]; simpl; [reflexivity|].
  destruct (Ascii.eqb c dot) eqn:E.
  - apply Ascii.eqb_eq in E. subst c.
    destruct (split_dot r) as [|h t] eqn:Er.
    + exfalso. exact (split_dot_not_nil r Er).
    + change (join_dot (EmptyString :: h :: t))
        with (EmptyString ++ String dot (join_dot (h :: t)))%string.
      rewrite IH. reflexivity.
  - destruct (split_dot r) as [|h t] eqn:Er.
    + exfalso. exact (split_dot_not_nil r Er).
    + destruct t as [|h' t'].
      * simpl in *. rewrite IH. reflexivity.
      * change (join_dot (String c h :: h' :: t'))
          with (String c (h ++ String dot (join_dot (h' :: t'))))%string.
        change (join_dot (h :: h' :: t'))
          with (h ++ String dot (join_dot (h' :: t')))%string in IH.
        rewrite IH. reflexivity.
Qed.

Lemma append_length (a b : string) :
  String.length (a ++ b)%string = (String.length a + String.length b)%nat.
Proof. induction a as [|c r IH]; simpl; [reflexivity | rewrite IH; reflexivity]. Qed.

Lemma join_dot_tail_length (key : string) (rest : list string) :
  rest <> [] ->
  (String.length (join_dot rest) < String.length (join_dot (key :: rest)))%nat.
Proof.
  intros Hne. destruct rest as [|h t]; [congruence|].
  change (join_dot (key :: h :: t)) with (key ++ String dot (join_dot (h :: t)))%string.
  rewrite append_length. simpl. lia.
Qed.

Lemma trim_end_idempotent (s : string) : trim_end (trim_end s) = trim_end s.
Proof.
  induction s as [|c r IH]; [reflexivity|].
  cbn [trim_end]. destruct (is_ws c && is_empty (trim_end r)) eqn:E; [reflexivity|].
  cbn [trim_end]. rewrite IH, E. reflexivity.
Qed.

Lemma trim_start_end_commute (s : string) :
  trim_start (trim_end s) = trim_end (trim_start s).
Proof.
  induction s as [|c r IH]; [reflexivity|].
  cbn [trim_end trim_start]. destruct (is_ws c) eqn:Hc; cbn [andb].
  - destruct (is_empty (trim_end r)) eqn:E.
    + apply is_empty_true in E. rewrite <- IH, E. reflexivity.
    + cbn [trim_start]. rewrite Hc. exact IH.
  - cbn [trim_start trim_end]. rewrite Hc. reflexivity.
Qed.

Lemma trim_trim_end (s : string) : trim (trim_end s) = trim s.
Proof.
  unfold trim. rewrite trim_start_end_commute, trim_end_idempotent. reflexivity.
Qed.

Lemma trim_start_idempotent (s : string) : trim_start (trim_start s) = trim_start s.
Proof.
  induction s as [|c r IH]; [reflexivity|].
  cbn [trim_start]. destruct (is_ws c) eqn:E; [exact IH|].
  cbn [trim_start]. rewrite E. reflexivity.
Qed.

Lemma trim_trim_start (s : string) : trim (trim_start s) = trim s.
Proof. unfold trim. rewrite trim_start_idempotent. reflexivity. Qed.

Lemma ws_not_dot (c : ascii) : is_ws c = true -> Ascii.eqb c dot = false.
Proof.
  intros H. destruct (Ascii.eqb c dot) eqn:E; [|reflexivity].
  apply Ascii.eqb_eq in E. subst c. discriminate H.
Qed.

(** Trimming a string trims its first segment at the start and its last
    segment at the end, and leaves the segments as many as they were. *)
Lemma split_dot_trim_start (s : string) :
  split_dot (trim_start s)
  = match split_dot s with
    | h :: t => trim_start h :: t
    | [] => []
    end.
Proof.
  induction s as [|c r IH]; [reflexivity|].
  cbn [trim_start split_dot]. destruct (is_ws c) eqn:Hw.
  - rewrite (ws_not_dot c Hw), IH.
    destruct (split_dot r) as [|h t] eqn:E; [exfalso; exact (split_dot_not_nil r E)|].
    cbn [trim_start]. rewrite Hw. reflexivity.
  - cbn [split_dot]. destruct (Ascii.eqb c dot); [reflexivity|].
    destruct (split_dot r) as [|h t]; cbn [trim_start]; rewrite Hw; reflexivity.
Qed.

Lemma split_dot_trim_end (s : string) :
  Forall2 (fun a b => trim_end a = trim_end b) (split_dot s) (split_dot (trim_end s)).
Proof.
  induction s as [|c r IH]; [repeat constructor|].
  cbn [trim_end split_dot]. destruct (Ascii.eqb c dot) eqn:Hd.
  - assert (Hw : is_ws c = false).
    { destruct (is_ws c) eqn:E; [|reflexivity]. rewrite (ws_not_dot c E) in Hd. discriminate. }
    rewrite Hw. cbn [andb split_dot]. rewrite Hd. constructor; [reflexivity | exact IH].
  - destruct (split_dot r) as [|h t] eqn:E1; [exfalso; exact (split_dot_not_nil r E1)|].
    destruct (is_ws c && is_empty (trim_end r)) eqn:E.
    + apply andb_prop in E. destruct E as [Hw He]. apply is_empty_true in He.
      rewrite He in IH. cbn [split_dot] in IH.
      inversion IH as [|? ? ? ? Hh Ht]; subst. inversion Ht; subst.
      cbn [split_dot]. constructor; [|constructor].
      cbn [trim_end]. rewrite Hh. cbn [trim_end is_empty]. rewrite Hw. reflexivity.
    + cbn [split_dot]. rewrite Hd.
      destruct (split_dot (trim_end r)) as [|h' t'] eqn:E2;
        [exfalso; exact (split_dot_not_nil _ E2)|].
      inversion IH as [|? ? ? ? Hh Ht]; subst.
      constructor; [|exact Ht]. cbn [trim_end]. rewrite Hh. reflexivity.
Qed.

(** The segments after the first are the segments of a string. *)
Lemma split_dot_tail (s : string) (k : string) (r : list string) :
  split_dot s = k :: r -> r <> [] -> exists s', r = split_dot s'.
Proof.
  revert k r. induction s as [|c t IH]; intros k r H Hne.
  - cbn in H. injection H as _ <-. congruence.
  - cbn [split_dot] in H. destruct (Ascii.eqb c dot).
    + injection H as _ <-. eauto.
    + destruct (split_dot t) as [|h t'] eqn:E.
      * injection H as _ <-. congruence.
      * injection H as _ <-. exact (IH h t' eq_refl Hne).
Qed.

(** ** Property access *)

Lemma named_app (l1 l2 : list string) (key : string) :
  named (l1 ++ l2) key = named l1 key || named l2 key.
Proof. apply existsb_app. Qed.

Lemma inherited_builtin (o : value) (key : string) :
  named builtin_members key = false -> inherited o key = false.
Proof.
  unfold builtin_members. rewrite !named_app. intros H.
  apply orb_false_iff in H. destruct H as [Ho H].
  apply orb_false_iff in H. destruct H as [Ha H].
  apply orb_false_iff in H. destruct H as [Hs Hn].
  destruct o; unfold inherited; rewrite ?Ho, ?Ha, ?Hs, ?Hn; reflexivity.
Qed.

(** A read of a key that names no built-in member yields a value on every
    truthy receiver. *)
Lemma prop_get_truthy (o : value) (key : string) :
  truthy o = true -> named builtin_members key = false ->
  exists v, prop_get o key = Ok v.
Proof.
  intros H Hk. pose proof (inherited_builtin o key Hk) as Hi.
  assert (Ha : absent o key = Ok VUndefined) by (unfold absent; rewrite Hi; reflexivity).
  destruct o; cbn [prop_get]; try discriminate; rewrite ?Ha; eauto.
  - destruct (String.eqb key "length"); eauto.
    destruct (array_index key); eauto.
    destruct (string_at s n); eauto.
  - destruct (String.eqb key "length"); eauto.
    destruct (array_index key); eauto.
  - destruct (assoc_get props key); eauto.
Qed.

Lemma builtin_members_trimmed :
  forallb (fun n => String.eqb (trim n) n) builtin_members = true.
Proof. vm_compute. reflexivity. Qed.

Lemma named_trim (key : string) :
  named builtin_members key = true -> trim key = key.
Proof.
  unfold named. intros H. apply existsb_exists in H. destruct H as (n & Hin & Heq).
  apply String.eqb_eq in Heq. subst n.
  pose proof (proj1 (forallb_forall _ _) builtin_members_trimmed key Hin) as Ht.
  apply String.eqb_eq in Ht. exact Ht.
Qed.

Lemma plain_key_named (key : string) :
  plain_key key = true -> named builtin_members key = false.
Proof.
  unfold plain_key. intros H. destruct (named builtin_members key) eqn:E; [|reflexivity].
  rewrite (named_trim key E), E in H. discriminate H.
Qed.

Lemma plain_key_trim_eq (a b : string) : trim a = trim b -> plain_key a = plain_key b.
Proof. unfold plain_key. intros ->. reflexivity. Qed.

Lemma forallb_Forall2 {A : Type} (P : A -> bool) (R : A -> A -> Prop) (l l' : list A) :
  (forall a b, R a b -> P a = P b) -> Forall2 R l l' -> forallb P l = forallb P l'.
Proof.
  intros H HF. induction HF as [|a b l l' Hab _ IH]; [reflexivity|].
  cbn [forallb]. rewrite (H a b Hab), IH. reflexivity.
Qed.

(** Trimming a path keeps its segments plain. *)
Lemma plain_path_trim (s : string) : plain_path (trim s) = plain_path s.
Proof.
  unfold plain_path, trim.
  rewrite <- (forallb_Forall2 plain_key _ _ _
                (fun a b (H : trim_end a = trim_end b) =>
                   plain_key_trim_eq a b
                     (eq_trans (eq_sym (trim_trim_end a))
                        (eq_trans (f_equal trim H) (trim_trim_end b))))
                (split_dot_trim_end (trim_start s))).
  rewrite split_dot_trim_start.
  destruct (split_dot s) as [|h t]; [reflexivity|].
  cbn [forallb]. rewrite (plain_key_trim_eq (trim_start h) h (trim_trim_start h)).
  reflexivity.
Qed.

Lemma array_index_not_length (key : string) (i : nat) :
  array_index key = Some i -> String.eqb key "length" = false.
Proof.
  intros H. destruct (String.eqb key "length") eqn:E; [|reflexivity].
  apply String.eqb_eq in E. subst key. discriminate H.
Qed.

Lemma array_index_not_empty (key : string) (i : nat) :
  array_index key = Some i -> is_empty key = false.
Proof. destruct key; simpl; [discriminate | reflexivity]. Qed.

Lemma nth_array_store (l : list value) (i : nat) (v : value) :
  nth i (array_store l i v) VUndefined = v.
Proof.
  revert l. induction i as [|j IH]; intros [|x r]; simpl; auto.
Qed.

Lemma assoc_get_set (ps : list (string * value)) (key : string) (v : value) :
  assoc_get (assoc_set ps key v) key = Some v.
Proof.
  induction ps as [|[k w] r IH]; simpl.
  - rewrite String.eqb_refl. reflexivity.
  - destruct (String.eqb k key) eqn:E; simpl; rewrite E; [reflexivity | exact IH].
Qed.

(** ** Path accessor: reading *)

Lemma getPath_loop_total (f : nat) :
  (forall o p, (String.length p < f)%nat -> plain_path p = true ->
               exists v, getPath_fuel f o p = Ok v) ->
  forall segments result,
    segments = [] \/ (exists s, segments = split_dot s) ->
    forallb plain_key segments = true ->
    (String.length (join_dot segments) <= f)%nat -> (1 <= f)%nat ->
    exists v, getPath_loop (getPath_fuel f) result segments = Ok v.
Proof.
  intros Hrec segments.
  induction segments as [|key rest IH]; intros result Hs Hplain Hlen Hf; simpl.
  - eauto.
  - cbn [forallb] in Hplain. apply andb_prop in Hplain. destruct Hplain as [Hkey Hrest_plain].
    assert (Hrest : (String.length (join_dot rest) < f)%nat).
    { destruct rest as [|h t]; [simpl; lia|].
      pose proof (join_dot_tail_length key (h :: t)) as Hlt.
      assert (h :: t <> []) as Hne by discriminate.
      specialize (Hlt Hne). lia. }
    assert (Hs' : rest = [] \/ exists s, rest = split_dot s).
    { destruct rest as [|h t]; [left; reflexivity | right].
      destruct Hs as [Hs | [s Hs]]; [discriminate|].
      apply (split_dot_tail s key (h :: t)); [symmetry; exact Hs | discriminate]. }
    destruct (truthy result) eqn:Ht; [|eauto].
    assert (Hstep : exists v,
               (r <- prop_get result key ;; getPath_loop (getPath_fuel f) r rest) = Ok v).
    { destruct (prop_get_truthy result key Ht (plain_key_named key Hkey)) as [r Hr].
      rewrite Hr. simpl. apply IH; [exact Hs' | exact Hrest_plain | lia | lia]. }
    destruct result; try exact Hstep.
    destruct (is_empty key); [|exact Hstep].
    destruct (map_outcome_total (fun o => getPath_fuel f o (join_dot rest)) elems)
      as [ys Hys].
    { intros x. apply Hrec; [exact Hrest|].
      destruct Hs' as [-> | [s ->]]; [reflexivity|].
      rewrite join_split_dot. exact Hrest_plain. }
    rewrite Hys. simpl. eauto.
Qed.

Lemma getPath_fuel_total (f : nat) (o : value) (p : string) :
  (String.length p < f)%nat -> plain_path p = true ->
  exists v, getPath_fuel f o p = Ok v.
Proof.
  revert o p. induction f as [|f IH]; intros o p Hlt Hplain; [lia|].
  simpl. destruct (is_empty (trim p)) eqn:E; [eauto|].
  apply getPath_loop_total.
  - exact IH.
  - right. eauto.
  - rewrite <- plain_path_trim in Hplain. exact Hplain.
  - rewrite join_split_dot. pose proof (trim_length p). lia.
  - pose proof (is_empty_false_length _ E). pose proof (trim_length p). lia.
Qed.

(** An empty or blank path yields the root itself. *)
Lemma getPath_blank_path (root : value) (path : string) :
  trim path = EmptyString -> getPath root path = Ok root.
Proof. intros H. unfold getPath. simpl. rewrite H. reflexivity. Qed.

(** A missing entry reads as [undefined], and so does everything below it. *)
Lemma getPath_loop_undefined (rec : value -> string -> outcome value)
  (segments : list string) :
  getPath_loop rec VUndefined segments = Ok VUndefined.
Proof. destruct segments; reflexivity. Qed.

(** The walk stops at the first falsy value and returns that very value. *)
Lemma getPath_loop_falsy (rec : value -> string -> outcome value)
  (result : value) (segments : list string) :
  truthy result = false -> getPath_loop rec result segments = Ok result.
Proof. intros H. destruct segments; simpl; [reflexivity | rewrite H; reflexivity]. Qed.

(** ** Path accessor: writing *)

Lemma writable_container (out : value) (key : string) :
  writable out key = true -> is_container out = true.
Proof. destruct out; simpl; congruence. Qed.

Lemma container_truthy (o : value) : is_container o = true -> truthy o = true.
Proof. destruct o; simpl; congruence. Qed.

Lemma writable_object_set (ps : list (string * value)) (key : string) (v : value) :
  writable (VObj ps) key = true ->
  prop_set (VObj ps) key v = Ok (VObj (assoc_set ps key v)).
Proof.
  cbn [writable prop_set]. destruct (assoc_get ps key); [reflexivity|].
  destruct (String.eqb key "__proto__"); [discriminate | reflexivity].
Qed.

Lemma prop_get_set (out : value) (key : string) (v : value) :
  writable out key = true ->
  exists out', prop_set out key v = Ok out'
               /\ prop_get out' key = Ok v
               /\ writable out' key = true.
Proof.
  destruct out; try discriminate.
  - cbn [writable prop_set].
    destruct (array_index key) as [i|] eqn:E; [|discriminate]. intros _.
    eexists. split; [reflexivity|]. cbn [prop_get writable].
    rewrite (array_index_not_length key i E), E, nth_array_store. auto.
  - intros Hw. rewrite (writable_object_set props key v Hw).
    eexists. split; [reflexivity|]. cbn [prop_get writable].
    rewrite assoc_get_set. auto.
Qed.

Lemma store_back_set (out : value) (key : string) (child child' : value) :
  writable out key = true -> is_container child = true ->
  prop_set out key child' = Ok (store_back out key child child').
Proof.
  intros Hw Hc. unfold store_back. rewrite Hc.
  destruct out; try discriminate.
  - cbn [writable prop_set] in *.
    destruct (array_index key); [reflexivity | discriminate].
  - apply writable_object_set. exact Hw.
Qed.

Lemma settable_writable (ce : bool) (out : value) (key : string) (rest : list string) :
  settable ce out (key :: rest) = true -> writable out key = true.
Proof. simpl. intros H. apply andb_prop in H. tauto. Qed.

Lemma writable_key_not_broadcast (out : value) (key : string) :
  writable out key = true ->
  forall rec rest,
    getPath_loop rec out (key :: rest)
    = (r <- prop_get out key ;; getPath_loop rec r rest).
Proof.
  intros Hw rec rest. simpl.
  rewrite (container_truthy out (writable_container out key Hw)).
  destruct out; try reflexivity.
  simpl in Hw. destruct (array_index key) as [i|] eqn:E; [|discriminate].
  rewrite (array_index_not_empty key i E). reflexivity.
Qed.

Lemma settable_step (ce : bool) (out : value) (key next : string)
  (rest : list string) :
  settable ce out (key :: next :: rest)
  = writable out key
    && match prop_get out key with
       | Ok VUndefined =>
           ce && settable ce (if is_numeric next then VArr [] else VObj [])
                   (next :: rest)
       | Ok child => settable ce child (next :: rest)
       | _ => false
       end.
Proof. reflexivity. Qed.

Lemma setPath_walk_step (ce : bool) (v out : value) (key next : string)
  (rest : list string) :
  setPath_walk out (key :: next :: rest) v ce
  = if truthy out then
      cur <- prop_get out key ;;
      if is_undefined cur && ce then
        out1 <- prop_set out key (if is_numeric next then VArr [] else VObj []) ;;
        child <- prop_get out1 key ;;
        child' <- setPath_walk child (next :: rest) v ce ;;
        Ok (store_back out1 key child child')
      else
        child' <- setPath_walk cur (next :: rest) v ce ;;
        Ok (store_back out key cur child')
    else Ok out.
Proof. reflexivity. Qed.

(** What an intermediate segment hands to the rest of the walk: the child
    found at [key], or the container created there. *)
Lemma setPath_walk_descend (ce : bool) (v out : value) (key next : string)
  (rest : list string) :
  settable ce out (key :: next :: rest) = true ->
  exists out1 child,
    (forall w, prop_set out1 key w = Ok (store_back out1 key child w))
    /\ writable out1 key = true
    /\ settable ce child (next :: rest) = true
    /\ setPath_walk out (key :: next :: rest) v ce
       = (child' <- setPath_walk child (next :: rest) v ce ;;
          Ok (store_back out1 key child child'))
    /\ (prop_get out key = Ok child
        \/ (prop_get out key = Ok VUndefined
            /\ child = if is_numeric next then VArr [] else VObj [])).
Proof.
  intros Hs.
  pose proof (settable_writable ce out key (next :: rest) Hs) as Hw.
  pose proof (container_truthy out (writable_container out key Hw)) as Ht.
  rewrite settable_step, Hw, andb_true_l in Hs.
  rewrite setPath_walk_step, Ht.
  destruct (prop_get out key) as [cur| |] eqn:Hcur; try discriminate.
  cbn [bind].
  destruct (is_undefined cur) eqn:Hu.
  - destruct cur; try discriminate.
    apply andb_prop in Hs. destruct Hs as [Hce Hfresh]. subst ce.
    cbn [andb].
    set (fresh := if is_numeric next then VArr [] else VObj []) in *.
    destruct (prop_get_set out key fresh Hw) as (out1 & Hset & Hget & Hw1).
    exists out1, fresh. rewrite Hset. cbn [bind]. rewrite Hget. cbn [bind].
    split; [|split; [exact Hw1 | split; [exact Hfresh | split; [reflexivity | auto]]]].
    intros w. apply store_back_set; [exact Hw1|].
    apply (writable_container fresh next).
    exact (settable_writable true fresh next rest Hfresh).
  - assert (Hdef : settable ce cur (next :: rest) = true).
    { destruct cur; try discriminate; exact Hs. }
    cbn [andb].
    exists out, cur.
    split; [|split; [exact Hw | split; [exact Hdef | split; [reflexivity | auto]]]].
    intros w. apply store_back_set; [exact Hw|].
    apply (writable_container cur next).
    exact (settable_writable ce cur next rest Hdef).
Qed.

(** The walk of [setPath] along settable segments succeeds, and the walk of
    [getPath] along the same segments then finds the value written. *)
Lemma setPath_walk_round_trip (ce : bool) (v : value) (segments : list string) :
  forall out,
    settable ce out segments = true ->
    exists out',
      setPath_walk out segments v ce = Ok out'
      /\ is_container out' = true
      /\ forall rec, getPath_loop rec out' segments = Ok v.
Proof.
  induction segments as [|key rest IH]; intros out Hs; [discriminate|].
  pose proof (settable_writable ce out key rest Hs) as Hw.
  pose proof (container_truthy out (writable_container out key Hw)) as Ht.
  destruct rest as [|next rest'].
  - (* the last segment *)
    destruct (prop_get_set out key v Hw) as (out' & Hset & Hget & Hw').
    exists out'. split; [simpl; rewrite Ht; exact Hset|].
    split; [exact (writable_container out' key Hw')|].
    intros rec. rewrite (writable_key_not_broadcast out' key Hw').
    rewrite Hget. reflexivity.
  - (* an intermediate segment *)
    destruct (setPath_walk_descend ce v out key next rest' Hs)
      as (out1 & child & Hstore & Hw1 & Hsc & Hwalk & _).
    destruct (IH child Hsc) as (child' & Hc' & _ & Hread).
    destruct (prop_get_set out1 key child' Hw1) as (out' & Hset & Hget & Hw').
    rewrite Hstore in Hset. injection Hset as Hout'.
    exists out'. rewrite Hwalk, Hc'. cbn [bind]. rewrite Hout'.
    split; [reflexivity|]. split; [exact (writable_container out' key Hw')|].
    intros rec. rewrite (writable_key_not_broadcast out' key Hw').
    rewrite Hget. cbn [bind]. apply Hread.
Qed.

Lemma array_store_twice (l : list value) (i : nat) (a b : value) :
  array_store (array_store l i a) i b = array_store l i b.
Proof.
  revert l. induction i as [|j IH]; intros [|x r]; simpl; try reflexivity;
    f_equal; apply IH.
Qed.

Lemma assoc_set_twice (ps : list (string * value)) (key : string) (a b : value) :
  assoc_set (assoc_set ps key a) key b = assoc_set ps key b.
Proof.
  induction ps as [|[k w] r IH]; simpl.
  - rewrite String.eqb_refl. reflexivity.
  - destruct (String.eqb k key) eqn:E; simpl; rewrite E;
      [reflexivity | f_equal; exact IH].
Qed.

Lemma prop_set_twice (out out1 : value) (key : string) (a b : value) :
  prop_set out key a = Ok out1 -> prop_set out1 key b = prop_set out key b.
Proof.
  destruct out; cbn [prop_set]; try discriminate.
  - destruct (array_index key) as [i|] eqn:E; [|discriminate].
    intros H. injection H as <-. cbn [prop_set]. rewrite E, array_store_twice. reflexivity.
  - intros H.
    assert (Hout : out1 = VObj (assoc_set props key a)
                   /\ match assoc_get props key with
                      | Some _ => Ok (VObj (assoc_set props key b))
                      | None =>
                          if String.eqb key "__proto__" then Unmodelled
                          else Ok (VObj (assoc_set props key b))
                      end = Ok (VObj (assoc_set props key b))).
    { destruct (assoc_get props key).
      - injection H as <-. auto.
      - destruct (String.eqb key "__proto__"); [discriminate|]. injection H as <-. auto. }
    destruct Hout as [-> Hb]. rewrite Hb.
    cbn [prop_set]. rewrite assoc_get_set, assoc_set_twice. reflexivity.
Qed.

(** With [createEmpty], a missing intermediate entry is created as an empty
    array when the next segment is purely numeric and as an empty object
    otherwise; the rest of the walk works inside the new container, which
    ends up stored under the key. *)
Lemma setPath_walk_creates (out : value) (key next : string) (rest : list string)
  (v : value) :
  writable out key = true ->
  prop_get out key = Ok VUndefined ->
  setPath_walk out (key :: next :: rest) v true
  = (c <- setPath_walk (if is_numeric next then VArr [] else VObj [])
            (next :: rest) v true ;;
     prop_set out key c).
Proof.
  intros Hw Hget.
  rewrite setPath_walk_step, (container_truthy out (writable_container out key Hw)).
  rewrite Hget. cbn [bind is_undefined andb].
  set (fresh := if is_numeric next then VArr [] else VObj []).
  destruct (prop_get_set out key fresh Hw) as (out1 & Hset & Hget1 & Hw1).
  rewrite Hset. cbn [bind]. rewrite Hget1. cbn [bind].
  destruct (setPath_walk fresh (next :: rest) v true) as [c| |]; cbn [bind];
    try reflexivity.
  rewrite <- (prop_set_twice out out1 key fresh c Hset).
  symmetry. apply store_back_set; [exact Hw1|].
  unfold fresh. destruct (is_numeric next); reflexivity.
Qed.

(** The walk of [setPath] leaves a container a container of the same kind. *)
Lemma setPath_walk_kind (v : value) (ce : bool) (segments : list string) :
  forall out out',
    setPath_walk out segments v ce = Ok out' ->
    isArray out' = isArray out /\ is_container out' = is_container out.
Proof.
  induction segments as [|key rest IH]; intros out out' H.
  - cbn in H. injection H as <-. auto.
  - assert (Hset : forall w o1, prop_set out key w = Ok o1 ->
                                isArray o1 = isArray out
                                /\ is_container o1 = is_container out).
    { intros w o1. destruct out; cbn [prop_set]; try discriminate.
      - destruct (array_index key); [|discriminate]. intros E. injection E as <-. auto.
      - destruct (assoc_get props key);
          [|destruct (String.eqb key "__proto__"); [discriminate|]];
          intros E; injection E as <-; auto. }
    assert (Hback : forall o1 child child',
               isArray (store_back o1 key child child') = isArray o1
               /\ is_container (store_back o1 key child child') = is_container o1).
    { intros o1 child child'. unfold store_back.
      destruct (is_container child); [|auto].
      destruct o1; auto. destruct (array_index key); auto. }
    destruct rest as [|next rest'].
    + cbn [setPath_walk] in H. destruct (truthy out).
      * exact (Hset v out' H).
      * injection H as <-. auto.
    + rewrite setPath_walk_step in H. destruct (truthy out); [|injection H as <-; auto].
      destruct (prop_get out key) as [cur| |]; cbn [bind] in H; try discriminate.
      destruct (is_undefined cur && ce).
      * destruct (prop_set out key (if is_numeric next then VArr [] else VObj []))
          as [out1| |] eqn:E1; cbn [bind] in H; try discriminate.
        destruct (prop_get out1 key) as [child| |]; cbn [bind] in H; try discriminate.
        destruct (setPath_walk child (next :: rest') v ce) as [child'| |];
          cbn [bind] in H; try discriminate.
        injection H as <-. destruct (Hset _ _ E1) as [Ha Hc].
        destruct (Hback out1 child child') as [Ha' Hc']. split; congruence.
      * destruct (setPath_walk cur (next :: rest') v ce) as [child'| |];
          cbn [bind] in H; try discriminate.
        injection H as <-. apply Hback.
Qed.

(** A key that can be written in an empty container reads as [undefined]
    there, unless it names an inherited member. *)
Lemma settable_fresh_get (numeric : bool) (key next : string) (rest : list string) :
  settable true (if numeric then VArr [] else VObj []) (key :: next :: rest) = true ->
  prop_get (if numeric then VArr [] else VObj []) key = Ok VUndefined.
Proof.
  rewrite settable_step. intros H. apply andb_prop in H. destruct H as [Hw H].
  destruct numeric.
  - cbn [writable] in Hw. cbn [prop_get] in *.
    destruct (array_index key) as [i|] eqn:E; [|discriminate].
    rewrite (array_index_not_length key i E). destruct i; reflexivity.
  - cbn [prop_get assoc_get] in *. unfold absent in *.
    destruct (inherited (VObj []) key); [discriminate | reflexivity].
Qed.

(** With [createEmpty], the entry that was missing at the end of the
    segments [pre ++ [key]] holds, after the write, the container created
    for [next], in which the rest of the walk has worked. *)
Lemma setPath_walk_materializes (v : value) (rec : value -> string -> outcome value)
  (key next : string) (rest : list string) (pre : list string) :
  forall out,
    settable true out (pre ++ key :: next :: rest) = true ->
    getPath_loop rec out (pre ++ [key]) = Ok VUndefined ->
    exists out' c,
      setPath_walk out (pre ++ key :: next :: rest) v true = Ok out'
      /\ setPath_walk (if is_numeric next then VArr [] else VObj [])
           (next :: rest) v true = Ok c
      /\ getPath_loop rec out' (pre ++ [key]) = Ok c.
Proof.
  induction pre as [|k pre' IH]; intros out Hs Hread.
  - cbn [app] in *.
    pose proof (settable_writable true out key (next :: rest) Hs) as Hw.
    rewrite (writable_key_not_broadcast out key Hw) in Hread.
    assert (Hget : prop_get out key = Ok VUndefined).
    { destruct (prop_get out key) as [r| |]; cbn [bind getPath_loop] in Hread;
        congruence. }
    rewrite settable_step, Hw, Hget in Hs. cbn [andb] in Hs.
    destruct (setPath_walk_round_trip true v (next :: rest) _ Hs) as (c & Hc & _ & _).
    destruct (prop_get_set out key c Hw) as (out' & Hset & Hget' & Hw').
    exists out', c. rewrite (setPath_walk_creates out key next rest v Hw Hget), Hc.
    cbn [bind]. split; [exact Hset | split; [reflexivity|]].
    rewrite (writable_key_not_broadcast out' key Hw'), Hget'. reflexivity.
  - assert (Hshape : exists n m tl tl',
               pre' ++ key :: next :: rest = n :: m :: tl /\ pre' ++ [key] = n :: tl').
    { destruct pre' as [|a [|b pre'']]; cbn [app]; eauto 7. }
    destruct Hshape as (n & m & tl & tl' & E1 & E2).
    cbn [app] in Hs, Hread |- *.
    pose proof (settable_writable true out k _ Hs) as Hw.
    pose proof Hs as Hs0. rewrite E1 in Hs0.
    destruct (setPath_walk_descend true v out k n (m :: tl) Hs0)
      as (out1 & child & Hstore & Hw1 & Hsc & Hwalk & Hchild).
    rewrite (writable_key_not_broadcast out k Hw) in Hread.
    assert (Hread' : getPath_loop rec child (pre' ++ [key]) = Ok VUndefined).
    { destruct Hchild as [Hg | [Hg ->]].
      - rewrite Hg in Hread. exact Hread.
      - rewrite E2.
        rewrite (writable_key_not_broadcast _ n (settable_writable true _ n _ Hsc)).
        rewrite (settable_fresh_get (is_numeric n) n m tl Hsc). cbn [bind].
        apply getPath_loop_undefined. }
    rewrite <- E1 in Hsc, Hwalk.
    destruct (IH child Hsc Hread') as (child' & c & Hc' & Hc & Hget).
    destruct (prop_get_set out1 k child' Hw1) as (out' & Hset & Hget' & Hw').
    rewrite Hstore in Hset. injection Hset as Hout'.
    exists out', c. rewrite Hwalk, Hc'. cbn [bind]. rewrite Hout'.
    split; [reflexivity | split; [exact Hc|]].
    rewrite (writable_key_not_broadcast out' k Hw'), Hget'. cbn [bind]. exact Hget.
Qed.

(** C7 (amended).  Take a path whose trimmed form is not empty and a
    structure in which each segment addresses an object, or an array through
    an array index, and each segment but the last leads through an own entry
    to such a container (or, when [createEmpty] is set, to a missing entry);
    no segment reads a member inherited from a prototype, and the last does
    not write [__proto__] where it is not an own entry.  Then writing with
    [setPath] succeeds and reading the same path with [getPath] yields
    exactly the value written.  When [createEmpty] is set, every intermediate
    entry that was missing, at whatever depth, holds after the write a
    container created empty, an array if the next segment is purely numeric
    and an object otherwise, in which the rest of the path has been
    written. *)
Theorem setPath_getPath_round_trip :
  (forall (o : value) (p : string) (v : value) (createEmpty : bool),
      is_empty (trim p) = false ->
      settable createEmpty o (split_dot (trim p)) = true ->
      exists o', setPath o p v createEmpty = Ok o' /\ getPath o' p = Ok v)
  /\
  (forall (o : value) (p q : string) (v : value) (pre : list string)
          (key next : string) (rest : list string),
      split_dot (trim p) = pre ++ key :: next :: rest ->
      split_dot (trim q) = pre ++ [key] ->
      settable true o (split_dot (trim p)) = true ->
      getPath o q = Ok VUndefined ->
      exists o' c,
        setPath o p v true = Ok o'
        /\ getPath o' q = Ok c
        /\ isArray c = is_numeric next /\ is_container c = true
        /\ setPath_walk (if is_numeric next then VArr [] else VObj [])
             (next :: rest) v true = Ok c).
Proof.
  split.
  - intros o p v ce Hp Hs.
    destruct (setPath_walk_round_trip ce v (split_dot (trim p)) o Hs)
      as (o' & Hset & _ & Hread).
    exists o'. split; [exact Hset|].
    unfold getPath. cbn [getPath_fuel]. rewrite Hp. apply Hread.
  - intros o p q v pre key next rest Hp Hq Hs Hread.
    unfold getPath in Hread |- *. cbn [getPath_fuel] in Hread |- *.
    destruct (is_empty (trim q)) eqn:Eq.
    + (* the root itself would have to be [undefined] *)
      injection Hread as ->. rewrite Hp in Hs.
      destruct pre; discriminate Hs.
    + rewrite Hq in Hread |- *. rewrite Hp in Hs.
      destruct (setPath_walk_materializes v _ key next rest pre o Hs Hread)
        as (o' & c & Hset & Hc & Hget).
      exists o', c. unfold setPath. rewrite Hp.
      split; [exact Hset | split; [exact Hget|]].
      destruct (setPath_walk_kind v true (next :: rest) _ c Hc) as [Ha Hk].
      rewrite Ha, Hk. destruct (is_numeric next); auto.
Qed.

Lemma setPath_getPath_round_trip_witness :
  (exists o', setPath (VObj []) "a.0.c" (VNum 1) true = Ok o'
              /\ getPath o' "a.0.c" = Ok (VNum 1))
  /\ (exists o' c,
        setPath (VObj [("x", VObj [])]) " x.a.0.c " (VStr "v") true = Ok o'
        /\ getPath o' "x.a" = Ok c
        /\ isArray c = is_numeric "0" /\ is_container c = true
        /\ setPath_walk (if is_numeric "0" then VArr [] else VObj [])
             ["0"; "c"] (VStr "v") true = Ok c).
Proof.
  split.
  - apply (proj1 setPath_getPath_round_trip); reflexivity.
  - apply (proj2 setPath_getPath_round_trip (VObj [("x", VObj [])]) " x.a.0.c " "x.a"
             (VStr "v") ["x"] "a" "0" ["c"]); reflexivity.
Defined.

(** The round trip fails outside those structures.  Without [createEmpty]
    nothing is written below a missing entry, and the value read back is
    [undefined]; below a [null] entry nothing is written even with
    [createEmpty]; and through an empty segment [getPath] maps over the
    array while [setPath] does not. *)
Lemma setPath_getPath_missing_intermediate :
  (setPath (VObj []) "a.b" (VNum 1) false = Ok (VObj [])
   /\ getPath (VObj []) "a.b" = Ok VUndefined)
  /\ (setPath (VObj [("a", VNull)]) "a.b" (VNum 1) true = Ok (VObj [("a", VNull)])
      /\ getPath (VObj [("a", VNull)]) "a.b" = Ok VNull)
  /\ (setPath (VObj [("a", VArr [VObj [("b", VNum 0)]])]) "a..b" (VNum 1) false
      = Ok (VObj [("a", VArr [VObj [("b", VNum 0)]])])
      /\ getPath (VObj [("a", VArr [VObj [("b", VNum 0)]])]) "a..b"
         = Ok (VArr [VNum 0])).
Proof. repeat split; reflexivity. Qed.

(** C6.  An intermediate value that is falsy without being [undefined] is
    returned as it is: the read below [null], [0], the empty string or
    [false] yields that value instead of [undefined]. *)
Theorem getPath_falsy_intermediate :
  getPath (VObj [("a", VNull)]) "a.b" = Ok VNull
  /\ getPath (VObj [("a", VNum 0)]) "a.b" = Ok (VNum 0)
  /\ getPath (VObj [("a", VStr "")]) "a.b" = Ok (VStr "")
  /\ getPath (VObj [("a", VBool false)]) "a.b" = Ok (VBool false)
  /\ getPath (VObj [("b", VArr [VNum 0; VObj [("a", VNum 2)]])]) "b.0.a" = Ok (VNum 0).
Proof. repeat split; reflexivity. Qed.

(** ** JSON-Patch validation *)

Lemma assert_Ok (c : bool) (msg : string) : assert c msg = Ok tt <-> c = true.
Proof. unfold assert. destruct c; split; congruence. Qed.

Lemma bind_unit_Ok (m k : outcome unit) :
  (m ;;; k) = Ok tt <-> m = Ok tt /\ k = Ok tt.
Proof.
  destruct m as [[]| |]; simpl; split; try tauto; try (intros [? ?]; discriminate);
    intros; discriminate.
Qed.

Lemma forEach_Ok (f : value -> outcome unit) (g : value -> bool) (l : list value) :
  (forall x, f x = Ok tt <-> g x = true) ->
  forEach f l = Ok tt <-> forallb g l = true.
Proof.
  intros Hfg. induction l as [|x r IH]; simpl.
  - tauto.
  - rewrite bind_unit_Ok, andb_true_iff, Hfg, IH. tauto.
Qed.

Lemma strict_eq_string_VStr (s t : string) :
  strict_eq_string (VStr s) t = String.eqb s t.
Proof. reflexivity. Qed.

Lemma existsb_known_ops_not_string (v : value) :
  (forall s, v <> VStr s) -> existsb (strict_eq_string v) known_ops = false.
Proof. intros H. destruct v; try reflexivity. exfalso. exact (H s eq_refl). Qed.

Lemma check_operation_not_object (operation : value) :
  (forall ps, operation <> VObj ps) -> check_operation operation <> Ok tt.
Proof.
  intros H. destruct operation as [ | | b | n | s | l | ps]; try discriminate.
  exfalso. exact (H ps eq_refl).
Qed.

Lemma check_operation_valid (operation : value) :
  check_operation operation = Ok tt <-> valid_operation path_truthy operation = true.
Proof.
  destruct operation as [ | | b | n | s | l | ps];
    try (split; [intros H; exfalso; revert H; apply check_operation_not_object;
                 discriminate | discriminate]).
  unfold check_operation, valid_operation. cbn [prop_get].
  destruct (assoc_get ps "op") as [op|] eqn:Hop; cbn [bind];
    [|split; discriminate].
  destruct op as [ | | b | n | s | l | qs];
    try (split; discriminate).
  rewrite bind_unit_Ok, assert_Ok.
  change (existsb (strict_eq_string (VStr s)) known_ops)
    with (existsb (String.eqb s) known_ops).
  rewrite !strict_eq_string_VStr.
  destruct (existsb (String.eqb s) known_ops) eqn:Hknown;
    [|split; [intros [? _]; discriminate | discriminate]].
  cbn [andb].
  assert (Hpath : forall k : outcome unit,
             (path <- match assoc_get ps "path" with
                      | Some v => Ok v
                      | None => Ok VUndefined
                      end ;;
              assert (truthy path)
                (msg_invalid (VStr s) ("Missing " ++ quoted "path" ++ " property")%string) ;;; k)
             = Ok tt
             <-> path_truthy (assoc_get ps "path") = true /\ k = Ok tt).
  { intros k. destruct (assoc_get ps "path") as [pv|]; cbn [bind path_truthy];
      rewrite bind_unit_Ok, assert_Ok; simpl; tauto. }
  rewrite Hpath, andb_true_iff. clear Hpath.
  assert (Hrest :
    (if String.eqb s "add" || String.eqb s "replace" || String.eqb s "test"
     then
       has_value <- has_property (VObj ps) "value" ;;
       assert has_value
         (msg_invalid (VStr s) ("Missing " ++ quoted "value" ++ " property")%string) ;;;
       n <- keys_length (VObj ps) ;;
       assert (n =? 3)%nat (msg_invalid (VStr s) "Contains unknown properties")
     else if String.eqb s "move" || String.eqb s "copy"
     then
       from <- match assoc_get ps "from" with
               | Some v => Ok v
               | None => Ok VUndefined
               end ;;
       assert (typeof_is_string from)
         (msg_invalid (VStr s) ("Requires a string " ++ quoted "from" ++ " property")%string) ;;;
       n <- keys_length (VObj ps) ;;
       assert (n =? 3)%nat (msg_invalid (VStr s) "Contains unknown properties")
     else
       n <- keys_length (VObj ps) ;;
       assert (n =? 2)%nat (msg_invalid (VStr s) "Contains unknown properties"))
    = Ok tt
    <->
    (if String.eqb s "add" || String.eqb s "replace" || String.eqb s "test"
     then match assoc_get ps "value" with
          | Some _ => (field_count ps =? 3)%nat
          | None => false
          end
     else if String.eqb s "move" || String.eqb s "copy"
     then match assoc_get ps "from" with
          | Some (VStr _) => (field_count ps =? 3)%nat
          | _ => false
          end
     else (field_count ps =? 2)%nat) = true).
  { unfold field_count.
    destruct (String.eqb s "add" || String.eqb s "replace" || String.eqb s "test").
    - cbn [has_property bind keys_length].
      change (inherited (VObj ps) "value") with false.
      destruct (assoc_get ps "value"); rewrite bind_unit_Ok, !assert_Ok;
        [tauto | split; [intros [? _]; discriminate | discriminate]].
    - destruct (String.eqb s "move" || String.eqb s "copy").
      + destruct (assoc_get ps "from") as [fv|]; cbn [bind keys_length];
          rewrite bind_unit_Ok, !assert_Ok;
          [destruct fv; simpl; try tauto;
           (split; [intros [? _]; discriminate | discriminate])
          | simpl; split; [intros [? _]; discriminate | discriminate]].
      + cbn [bind keys_length]. rewrite assert_Ok. tauto. }
  rewrite <- Hrest. tauto.
Qed.

(** C8 (amended).  [assertJsonPatch] succeeds if and only if the document is
    a non-empty array and every operation is an object whose [op] is one of
    add, replace, test, move, copy, remove, whose [path] is truthy (present
    and not the empty string), and which has: for add, replace and test a
    [value] field and exactly three fields; for move and copy a string
    [from] and exactly three fields; for remove exactly two fields. *)
Theorem assertJsonPatch_succeeds_iff (patch : value) :
  assertJsonPatch patch = Ok tt <-> valid_patch path_truthy patch = true.
Proof.
  destruct patch as [ | | b | n | s | ops | ps]; try (split; discriminate).
  unfold assertJsonPatch, valid_patch. cbn [isArray].
  rewrite bind_unit_Ok, assert_Ok, bind_unit_Ok, assert_Ok, andb_true_iff.
  rewrite (forEach_Ok check_operation (valid_operation path_truthy) ops
             check_operation_valid).
  destruct ops; simpl; intuition congruence.
Qed.

(** An operation whose [path] is the empty string (the whole document, in
    JSON Pointer) has a path and meets every other requirement, yet is
    rejected as having none. *)
Lemma assertJsonPatch_rejects_empty_path :
  valid_patch path_present (VArr [VObj [("op", VStr "remove"); ("path", VStr "")]]) = true
  /\ assertJsonPatch (VArr [VObj [("op", VStr "remove"); ("path", VStr "")]])
     = Throw (Error (msg_invalid (VStr "remove")
                       ("Missing " ++ quoted "path" ++ " property")%string)).
Proof. split; reflexivity. Qed.

(** The documents the specification lists. *)
Lemma assertJsonPatch_examples :
  assertJsonPatch
    (VArr [VObj [("op", VStr "add"); ("path", VStr "/a"); ("value", VNum 1)]]) = Ok tt
  /\ (exists e, assertJsonPatch (VArr [VObj [("op", VStr "add"); ("path", VStr "/a")]])
                = Throw e)
  /\ (exists e, assertJsonPatch (VArr []) = Throw e)
  /\ (exists e, assertJsonPatch
                  (VArr [VObj [("op", VStr "move"); ("path", VStr "/a"); ("value", VNum 1)]])
                = Throw e).
Proof. repeat split; try reflexivity; eexists; reflexivity. Qed.

(** ** Token lifetime *)

Lemma split_dot_no_dot (s : string) : no_dot s = true -> split_dot s = [s].
Proof.
  induction s as [|c r IH]; simpl; [reflexivity|].
  intros H. apply andb_prop in H. destruct H as [Hc Hr].
  apply negb_true_iff in Hc. rewrite Hc, (IH Hr). reflexivity.
Qed.

Lemma split_dot_segment (h r : string) :
  no_dot h = true -> split_dot (h ++ String dot r)%string = h :: split_dot r.
Proof.
  induction h as [|c h' IH]; simpl.
  - intros _. reflexivity.
  - intros H. apply andb_prop in H. destruct H as [Hc Hh].
    apply negb_true_iff in Hc. rewrite Hc, (IH Hh). reflexivity.
Qed.

Lemma append_empty_r (s : string) : (s ++ EmptyString)%string = s.
Proof.
  induction s as [|c r IH]; [reflexivity|].
  change (String c (r ++ EmptyString)%string = String c r). rewrite IH. reflexivity.
Qed.

Lemma split_dot_head (p tail : string) :
  no_dot p = true ->
  tail = EmptyString \/ (exists t, tail = String dot t) ->
  exists more, split_dot (p ++ tail)%string = p :: more.
Proof.
  intros Hp [-> | [t ->]].
  - exists []. rewrite append_empty_r. apply split_dot_no_dot. exact Hp.
  - exists (split_dot t). apply split_dot_segment. exact Hp.
Qed.

(** C2 (amended).  [jwtDecode] returns [null] when the token has no second
    segment or an empty one.  Otherwise its outcome is that of
    [JSON.parse(env.atob(segment))] on the second segment: the decoded
    claims when both succeed, and the exception of [atob] or of
    [JSON.parse] when either raises. *)
Theorem jwtDecode_outcome :
  (forall (token : string) (env : Adapter),
      no_dot token = true -> jwtDecode token env = Ok VNull)
  /\
  (forall (header payload tail : string) (env : Adapter),
      no_dot header = true -> no_dot payload = true ->
      tail = EmptyString \/ (exists t, tail = String dot t) ->
      jwtDecode (header ++ String dot (payload ++ tail))%string env
      = if is_empty payload then Ok VNull
        else (s <- atob env payload ;; JSON_parse s)).
Proof.
  split.
  - intros token env H. unfold jwtDecode. rewrite (split_dot_no_dot token H).
    reflexivity.
  - intros header payload tail env Hh Hp Htail. unfold jwtDecode.
    rewrite (split_dot_segment header _ Hh).
    destruct (split_dot_head payload tail Hp Htail) as [more ->].
    cbn [nth_error]. destruct (is_empty payload); reflexivity.
Qed.

Lemma jwtDecode_outcome_witness :
  jwtDecode "opaque-token" browser_env = Ok VNull
  /\ jwtDecode "h.eyJleHAiOjE3MDAwMDAwMDB9.s" browser_env
     = Ok (VObj [("exp", VNum 1700000000)]).
Proof.
  split.
  - apply (proj1 jwtDecode_outcome). reflexivity.
  - exact (proj2 jwtDecode_outcome "h" "eyJleHAiOjE3MDAwMDAwMDB9" ".s" browser_env
             eq_refl eq_refl (or_intror (ex_intro _ "s" eq_refl))).
Defined.

(** A token whose second segment is the base64 form of [not json], and one
    whose second segment is not base64 at all: [jwtDecode] raises. *)
Lemma jwtDecode_raises_on_malformed_token :
  jwtDecode "x.bm90IGpzb24=.y" browser_env = Throw SyntaxError
  /\ jwtDecode "a.b" browser_env = Throw InvalidCharacterError.
Proof. split; reflexivity. Qed.

(** C3 (amended).  [getAccessTokenExpiration] returns [now + expires_in]
    whenever [expires_in] is present and not zero; otherwise the [exp] claim
    of the access token when the token is not empty, decodes to a truthy
    value and that value carries a truthy [exp]; and [now + 300] when there
    is no access token, when it is empty, when it decodes to a falsy value or
    when the decoded value has no truthy [exp].  In particular
    [{expires_in: 3600}] gives [now + 3600], and a token whose middle segment
    encodes an [exp] of 1700000000, without [expires_in], gives exactly
    1700000000. *)
Theorem getAccessTokenExpiration_priority :
  (forall (date_now : Z) (tr : TokenResponse) (env : Adapter) (e : Z),
      expires_in tr = Some e -> e <> 0%Z ->
      getAccessTokenExpiration date_now tr env = Ok (VNum (date_now / 1000 + e)))
  /\
  (forall (date_now : Z) (tr : TokenResponse) (env : Adapter)
          (token : string) (body exp : value),
      expires_in tr = None \/ expires_in tr = Some 0%Z ->
      access_token tr = Some token -> is_empty token = false ->
      jwtDecode token env = Ok body -> truthy body = true ->
      prop_get body "exp" = Ok exp -> truthy exp = true ->
      getAccessTokenExpiration date_now tr env = Ok exp)
  /\
  (forall (date_now : Z) (tr : TokenResponse) (env : Adapter),
      expires_in tr = None \/ expires_in tr = Some 0%Z ->
      access_token tr = None \/ access_token tr = Some EmptyString
      \/ (exists token body,
             access_token tr = Some token /\ jwtDecode token env = Ok body
             /\ (truthy body = false
                 \/ exists exp, prop_get body "exp" = Ok exp /\ truthy exp = false)) ->
      getAccessTokenExpiration date_now tr env = Ok (VNum (date_now / 1000 + 300)))
  /\
  (forall (date_now : Z) (env : Adapter) (token : option string),
      getAccessTokenExpiration date_now
        {| expires_in := Some 3600%Z; access_token := token |} env
      = Ok (VNum (date_now / 1000 + 3600)))
  /\
  (forall (date_now : Z),
      getAccessTokenExpiration date_now
        {| expires_in := None; access_token := Some "h.eyJleHAiOjE3MDAwMDAwMDB9.s" |}
        browser_env
      = Ok (VNum 1700000000)).
Proof.
  assert (Hskip : forall tr, expires_in tr = None \/ expires_in tr = Some 0%Z ->
            match expires_in tr with
            | Some e => negb (e =? 0)%Z
            | None => false
            end = false).
  { intros tr [-> | ->]; reflexivity. }
  split; [|split; [|split; [|split]]].
  - intros date_now tr env e He Hne. unfold getAccessTokenExpiration.
    rewrite He. apply Z.eqb_neq in Hne. rewrite Hne. reflexivity.
  - intros date_now tr env token body exp Hexp Htok Hne Hdec Hbody Hget Htruthy.
    unfold getAccessTokenExpiration.
    rewrite (Hskip tr Hexp), Htok, Hne. cbn [negb].
    rewrite Hdec. cbn [bind]. rewrite Hbody, Hget. cbn [bind].
    rewrite Htruthy. reflexivity.
  - intros date_now tr env Hexp Htok. unfold getAccessTokenExpiration.
    rewrite (Hskip tr Hexp).
    destruct Htok as [-> | [-> | (token & body & -> & Hdec & Hbody)]];
      [reflexivity | reflexivity |].
    destruct (is_empty token); cbn [negb]; [reflexivity|].
    rewrite Hdec. cbn [bind].
    destruct Hbody as [-> | (exp & Hget & Hexpf)]; [reflexivity|].
    destruct (truthy body); [|reflexivity].
    rewrite Hget. cbn [bind]. rewrite Hexpf. reflexivity.
  - intros. reflexivity.
  - intros. reflexivity.
Qed.

Lemma getAccessTokenExpiration_priority_witness :
  getAccessTokenExpiration 5000 {| expires_in := Some 7%Z; access_token := None |}
    browser_env = Ok (VNum 12)
  /\ getAccessTokenExpiration 5000
       {| expires_in := Some 0%Z; access_token := Some "not-a-jwt" |} browser_env
     = Ok (VNum 305).
Proof.
  split.
  - apply (proj1 getAccessTokenExpiration_priority 5000%Z _ browser_env 7%Z);
      [reflexivity | discriminate].
  - apply (proj1 (proj2 (proj2 getAccessTokenExpiration_priority)) 5000%Z _ browser_env).
    + right. reflexivity.
    + right. right. exists "not-a-jwt", VNull.
      split; [reflexivity | split; [reflexivity | left; reflexivity]].
Defined.

(** An [expires_in] of zero is present, but is passed over: the result is
    [now + 300] where the wording of the specification gives [now + 0]. *)
Lemma getAccessTokenExpiration_zero_expires_in :
  getAccessTokenExpiration 5000 {| expires_in := Some 0%Z; access_token := None |}
    browser_env = Ok (VNum 305)
  /\ getAccessTokenExpiration_as_stated 5000
       {| expires_in := Some 0%Z; access_token := None |} browser_env = Ok (VNum 5).
Proof. split; reflexivity. Qed.

(** An opaque token that happens to contain a dot is not decodable, and the
    exception of the decoder escapes instead of the fallback being used. *)
Lemma getAccessTokenExpiration_opaque_token :
  getAccessTokenExpiration 5000
    {| expires_in := None; access_token := Some "abc.def" |} browser_env
  = Throw SyntaxError.
Proof. reflexivity. Qed.

(** ** Request pipeline *)

Lemma created_is_ok (res : Response) : status res = 201%Z -> ok res = true.
Proof. intros H. unfold ok. rewrite H. reflexivity. Qed.

(** A 201 reply whose body reads as falsy and which names a location is
    answered by a GET of that location, issued with the same options except
    that the method is GET and the body is dropped; the result of that
    second request is the result of the first. *)
Lemma request_follows_location
  (parse : Response -> outcome string)
  (fetch : string -> RequestInit -> outcome Response) (url : string)
  (o : FetchOptions) (res : Response) (body : value) (location : string)
  (fuel : nat) :
  fetch url (fetch_init o) = Ok res ->
  status res = 201%Z ->
  read_body res = Ok body -> truthy body = false ->
  headers_get (headers res) "location" = Some location ->
  is_empty location = false ->
  request (S fuel) parse fetch url o = request fuel parse fetch location (follow_up_options o)
  /\ opt_method (follow_up_options o) = Some "GET"
  /\ opt_body (follow_up_options o) = None
  /\ opt_headers (follow_up_options o) = opt_headers o
  /\ opt_mode (follow_up_options o) = opt_mode o
  /\ opt_other (follow_up_options o) = opt_other o
  /\ includeResponse (follow_up_options o) = includeResponse o.
Proof.
  intros Hfetch Hstatus Hbody Hfalsy Hloc Hne.
  split; [|repeat split].
  cbn [request]. rewrite Hfetch. cbn [bind].
  unfold checkResponse. rewrite (created_is_ok res Hstatus). cbn [negb bind].
  rewrite Hbody. cbn [bind].
  unfold location_to_follow. rewrite Hfalsy, Hstatus, Hloc, Hne. reflexivity.
Qed.

(** The rule at work on a reply that declares a text body and has none. *)
Lemma request_follows_location_text
  (parse : Response -> outcome string)
  (fetch : string -> RequestInit -> outcome Response) (url : string)
  (o : FetchOptions) (res : Response) (location : string) (fuel : nat) :
  fetch url (fetch_init o) = Ok res ->
  status res = 201%Z ->
  word_match "json" (content_type res) = false ->
  word_match "text" (content_type res) = true ->
  body_text res = EmptyString ->
  headers_get (headers res) "location" = Some location ->
  is_empty location = false ->
  request (S fuel) parse fetch url o = request fuel parse fetch location (follow_up_options o).
Proof.
  intros Hfetch Hstatus Hjson Htext Hempty Hloc Hne.
  apply (request_follows_location parse fetch url o res (VStr EmptyString) location fuel);
    try assumption; try reflexivity.
  unfold read_body. rewrite Hjson, Htext, Hempty. reflexivity.
Qed.

(** The rule applies again to the reply of the follow-up request: the first
    request yields exactly what the request of the location yields, however
    many hops that one takes. *)
Lemma request_yields_through_location
  (parse : Response -> outcome string)
  (fetch : string -> RequestInit -> outcome Response) (url : string)
  (o : FetchOptions) (res : Response) (body : value) (location : string)
  (r : FetchResult) :
  fetch url (fetch_init o) = Ok res ->
  status res = 201%Z ->
  read_body res = Ok body -> truthy body = false ->
  headers_get (headers res) "location" = Some location ->
  is_empty location = false ->
  request_yields parse fetch url o r
  <-> request_yields parse fetch location (follow_up_options o) r.
Proof.
  intros Hfetch Hstatus Hbody Hfalsy Hloc Hne. unfold request_yields. split.
  - intros [fuel H]. destruct fuel as [|fuel]; [discriminate|].
    exists fuel. rewrite <- H. symmetry.
    apply (request_follows_location parse fetch url o res body location fuel); assumption.
  - intros [fuel H]. exists (S fuel). rewrite <- H.
    apply (request_follows_location parse fetch url o res body location fuel); assumption.
Qed.

Lemma JSON_parse_empty : JSON_parse EmptyString = Throw SyntaxError.
Proof. reflexivity. Qed.

(** C5.  A 201 reply that declares a JSON body and has an empty one makes
    [request] raise the parse error of the empty text: the location it
    carries is never requested. *)
Theorem request_created_empty_json_raises
  (parse : Response -> outcome string)
  (fetch : string -> RequestInit -> outcome Response) (url : string)
  (o : FetchOptions) (res : Response) (fuel : nat) :
  fetch url (fetch_init o) = Ok res ->
  status res = 201%Z ->
  word_match "json" (content_type res) = true ->
  body_text res = EmptyString ->
  request (S fuel) parse fetch url o = Throw SyntaxError.
Proof.
  intros Hfetch Hstatus Hjson Hempty.
  cbn [request]. rewrite Hfetch. cbn [bind].
  unfold checkResponse. rewrite (created_is_ok res Hstatus). cbn [negb bind].
  unfold read_body. rewrite Hjson, Hempty, JSON_parse_empty. reflexivity.
Qed.

(** [responseToJSON], which the pipeline does not use, reads the same reply
    without raising, as the falsy body the location rule waits for. *)
Lemma responseToJSON_created_reply :
  responseToJSON created_reply = Ok (VStr EmptyString)
  /\ location_to_follow created_reply (VStr EmptyString)
     = Some "https://fhir.example/Patient/1"
  /\ read_body created_reply = Throw SyntaxError.
Proof. repeat split; reflexivity. Qed.

Lemma request_created_empty_json_raises_witness :
  request 3 sample_parse sample_server "https://fhir.example/Patient"
    {| opt_mode := None; opt_method := Some "POST"; opt_body := Some "{}";
       opt_headers := VUndefined; opt_other := []; includeResponse := false |}
  = Throw SyntaxError.
Proof.
  apply (request_created_empty_json_raises sample_parse sample_server _ _ created_reply 2);
    reflexivity.
Defined.

(** The same reply declared as text is followed to the resource. *)
Lemma request_follows_location_example :
  request 3 sample_parse
    (fun url init =>
       if String.eqb url "https://fhir.example/Patient" then
         Ok {| status := 201;
               headers := [("content-type", "text/plain");
                           ("location", "https://fhir.example/Patient/1")];
               body_text := EmptyString |}
       else Ok patient_reply)
    "https://fhir.example/Patient"
    {| opt_mode := None; opt_method := Some "POST"; opt_body := Some "{}";
       opt_headers := VUndefined; opt_other := []; includeResponse := false |}
  = Ok (Body (VObj [])).
Proof. reflexivity. Qed.

(** ** The per-URL cache *)

Lemma requests_for_app (url : string) (c : gmap string nat)
  (log : list (string * option FetchOptions)) (u : string) (o : option FetchOptions) :
  requests_for url {| cache := c; issued := log ++ [(u, o)] |}
  = (List.length (List.filter (fun e => String.eqb (fst e) url) log)
     + (if String.eqb u url then 1 else 0))%nat.
Proof.
  unfold requests_for. cbn [issued].
  rewrite List.filter_app, List.length_app. cbn [List.filter fst].
  destruct (String.eqb u url); reflexivity.
Qed.

Lemma filter_other_requests (url : string) (l : list (string * option FetchOptions)) :
  Forall (fun e => fst e <> url) l ->
  List.filter (fun e => String.eqb (fst e) url) l = [].
Proof.
  induction 1 as [|e l He _ IH]; [reflexivity|].
  cbn [List.filter]. apply String.eqb_neq in He. rewrite He. exact IH.
Qed.

(** One request added for the URL is one more request counted for it. *)
Lemma one_request_added_count (url : string) (before after : CacheState) (p : nat)
  (o : option FetchOptions) :
  one_request_added url before after p o ->
  requests_for url after = S (requests_for url before)
  /\ nth_error (issued after) p = Some (url, o).
Proof.
  intros (pre & post & Hlog & Hp & Hnone). apply Forall_app in Hnone.
  destruct Hnone as [Hpre Hpost]. split.
  - unfold requests_for. rewrite Hlog, !List.filter_app. cbn [List.filter fst].
    rewrite String.eqb_refl, (filter_other_requests url pre Hpre),
      (filter_other_requests url post Hpost).
    rewrite List.length_app. cbn [List.length app]. lia.
  - rewrite Hlog, Hp, List.app_assoc, nth_error_app2 by lia.
    rewrite Nat.sub_diag. reflexivity.
Qed.

(** A URL that names no inherited member and has no entry reads as
    [undefined], whatever else the cache holds. *)
Lemma plain_url_read (url : string) (st : CacheState) :
  plain_url url = true -> cache st !! url = None -> cache_read st url = Missing.
Proof.
  unfold plain_url, cache_read. intros Hp ->.
  apply negb_true_iff, orb_false_iff in Hp. destruct Hp as [-> ->].
  destruct (cache st !! "__proto__"); reflexivity.
Qed.

(** A call that finds a promise cached and does not reload returns that
    promise and changes nothing. *)
Lemma getAndCache_hit (NODE_ENV : option string) (url : string)
  (o : option FetchOptions) (force : option bool) (st : CacheState) (p : nat) :
  effective_force NODE_ENV force = false -> cache st !! url = Some p ->
  getAndCache NODE_ENV url o force st = (Shared p, st).
Proof.
  intros Hf H. unfold getAndCache, cache_read. rewrite Hf, H. reflexivity.
Qed.

(** A call that reloads, or reads [undefined] in the cache, issues a request
    and stores its promise. *)
Lemma getAndCache_issue (NODE_ENV : option string) (url : string)
  (o : option FetchOptions) (force : option bool) (st : CacheState) :
  effective_force NODE_ENV force = true \/ cache_read st url = Missing ->
  getAndCache NODE_ENV url o force st = issue_request url o st.
Proof.
  intros H. unfold getAndCache.
  destruct (effective_force NODE_ENV force); [reflexivity|].
  destruct H as [H | ->]; [discriminate | reflexivity].
Qed.

(** Whatever it is handed, a call leaves the state as it was or issues one
    request. *)
Lemma getAndCache_cases (NODE_ENV : option string) (url : string)
  (o : option FetchOptions) (force : option bool) (st : CacheState) :
  snd (getAndCache NODE_ENV url o force st) = st
  \/ getAndCache NODE_ENV url o force st = issue_request url o st.
Proof.
  unfold getAndCache. destruct (effective_force NODE_ENV force); [auto|].
  destruct (cache_read st url); auto.
Qed.

(** Under [NODE_ENV = "test"] the default of [force] makes every call that
    passes no [force] issue a request. *)
Lemma getAndCache_default_force_in_test (url : string) (o : option FetchOptions)
  (st : CacheState) :
  fst (getAndCache (Some "test") url o None st) = Shared (List.length (issued st))
  /\ requests_for url (snd (getAndCache (Some "test") url o None st))
     = S (requests_for url st).
Proof.
  rewrite (getAndCache_issue (Some "test") url o None st (or_introl eq_refl)).
  cbn [issue_request fst snd]. split; [reflexivity|].
  rewrite requests_for_app, String.eqb_refl. unfold requests_for. lia.
Qed.

(** A call for another URL leaves the entry of [url] as it was and adds no
    request for it. *)
Lemma getAndCache_other (NODE_ENV : option string) (url : string) (c : Call)
  (st : CacheState) :
  call_url c <> url ->
  let st' := snd (getAndCache NODE_ENV (call_url c) (call_options c) (call_force c) st) in
  cache st' !! url = cache st !! url /\ no_request_added url st st'.
Proof.
  intros Hne st'. subst st'.
  destruct (getAndCache_cases NODE_ENV (call_url c) (call_options c) (call_force c) st)
    as [-> | ->].
  - split; [reflexivity|]. exists []. rewrite List.app_nil_r. split; [reflexivity | constructor].
  - cbn [issue_request snd cache issued]. split; [apply lookup_insert_ne; exact Hne|].
    exists [(call_url c, call_options c)]. split; [reflexivity|].
    constructor; [exact Hne | constructor].
Qed.

Lemma no_request_added_trans (url : string) (a b c : CacheState) :
  no_request_added url a b -> no_request_added url b c -> no_request_added url a c.
Proof.
  intros (l1 & H1 & F1) (l2 & H2 & F2). exists (l1 ++ l2).
  rewrite H2, H1, List.app_assoc. split; [reflexivity|].
  apply Forall_app. auto.
Qed.

(** Once [url] is cached, a run that does not reload it hands the cached
    promise to every caller and issues nothing for it. *)
Lemma run_calls_cached (NODE_ENV : option string) (url : string) (p : nat)
  (calls : list Call) :
  forall st,
    cache st !! url = Some p -> unforced NODE_ENV url calls ->
    all_handed url (Shared p) calls (fst (run_calls NODE_ENV calls st))
    /\ cache (snd (run_calls NODE_ENV calls st)) !! url = Some p
    /\ no_request_added url st (snd (run_calls NODE_ENV calls st)).
Proof.
  induction calls as [|c r IH]; intros st Hc Hu.
  - cbn. split; [constructor | split; [exact Hc|]].
    exists []. rewrite List.app_nil_r. split; [reflexivity | constructor].
  - inversion Hu as [|c' r' Hforce Hrest]; subst.
    cbn [run_calls].
    destruct (getAndCache NODE_ENV (call_url c) (call_options c) (call_force c) st)
      as [q st1] eqn:Hcall.
    assert (Hst1 : cache st1 !! url = Some p
                   /\ no_request_added url st st1
                   /\ (call_url c = url -> q = Shared p)).
    { destruct (String.eq_dec (call_url c) url) as [Heq | Hne].
      - rewrite Heq, (getAndCache_hit NODE_ENV url _ _ st p (Hforce Heq) Hc) in Hcall.
        injection Hcall as <- <-. split; [exact Hc | split; [|auto]].
        exists []. rewrite List.app_nil_r. split; [reflexivity | constructor].
      - pose proof (getAndCache_other NODE_ENV url c st Hne) as [H1 H2].
        rewrite Hcall in H1, H2. cbn [snd] in H1, H2.
        rewrite H1. split; [exact Hc | split; [exact H2 | congruence]]. }
    destruct Hst1 as (Hc1 & Hn1 & Hq).
    destruct (IH st1 Hc1 Hrest) as (Hall & Hc2 & Hn2).
    destruct (run_calls NODE_ENV r st1) as [ps st2]. cbn [fst snd] in *.
    split; [constructor; assumption | split; [exact Hc2|]].
    exact (no_request_added_trans url st st1 st2 Hn1 Hn2).
Qed.

(** From a state where [url] has no entry, a run that does not reload it
    issues exactly one request for it, at its first call for it and with the
    options of that call, and hands the promise of that request to every
    caller. *)
Lemma run_calls_uncached (NODE_ENV : option string) (url : string)
  (calls : list Call) :
  forall st c0,
    plain_url url = true -> cache st !! url = None ->
    unforced NODE_ENV url calls -> first_call url calls = Some c0 ->
    exists p,
      all_handed url (Shared p) calls (fst (run_calls NODE_ENV calls st))
      /\ cache (snd (run_calls NODE_ENV calls st)) !! url = Some p
      /\ one_request_added url st (snd (run_calls NODE_ENV calls st)) p (call_options c0).
Proof.
  induction calls as [|c r IH]; intros st c0 Hplain Hc Hu Hfirst; [discriminate|].
  inversion Hu as [|c' r' Hforce Hrest]; subst.
  cbn [run_calls]. unfold first_call in Hfirst. cbn [List.find] in Hfirst.
  destruct (String.eqb (call_url c) url) eqn:Heq.
  - (* the first caller: the request is issued here *)
    injection Hfirst as <-. apply String.eqb_eq in Heq.
    rewrite Heq, (getAndCache_issue NODE_ENV url _ _ st
                    (or_intror (plain_url_read url st Hplain Hc))).
    cbn [issue_request].
    set (p := List.length (issued st)).
    set (st1 := {| cache := <[url := p]> (cache st);
                   issued := issued st ++ [(url, call_options c)] |}).
    assert (Hc1 : cache st1 !! url = Some p) by apply lookup_insert_eq.
    destruct (run_calls_cached NODE_ENV url p r st1 Hc1 Hrest) as (Hall & Hc2 & Hn2).
    destruct (run_calls NODE_ENV r st1) as [ps st2]. cbn [fst snd] in *.
    exists p. split; [constructor; auto | split; [exact Hc2|]].
    destruct Hn2 as (post & Hlog & Hpost).
    exists [], post. cbn [app]. rewrite List.app_nil_r.
    split; [|split; [reflexivity | exact Hpost]].
    rewrite Hlog. unfold st1. cbn [issued]. rewrite <- List.app_assoc. reflexivity.
  - apply String.eqb_neq in Heq.
    pose proof (getAndCache_other NODE_ENV url c st Heq) as [H1 H2].
    destruct (getAndCache NODE_ENV (call_url c) (call_options c) (call_force c) st)
      as [q st1]. cbn [snd] in H1, H2.
    rewrite <- H1 in Hc.
    destruct (IH st1 c0 Hplain Hc Hrest Hfirst) as (p & Hall & Hc2 & Hn2).
    destruct (run_calls NODE_ENV r st1) as [ps st2]. cbn [fst snd] in *.
    exists p. split; [constructor; [intros; contradiction | exact Hall]|].
    split; [exact Hc2|].
    destruct H2 as (added & Hlog1 & Hadded).
    destruct Hn2 as (pre & post & Hlog2 & Hp & Hnone).
    exists (added ++ pre), post. rewrite Hlog2, Hlog1, Hp, Hlog1.
    rewrite <- !List.app_assoc. split; [reflexivity | split; [reflexivity|]].
    apply Forall_app. exact (conj Hadded Hnone).
Qed.

Lemma promises_known_empty : promises_known empty_cache.
Proof. intros u p H. cbn in H. rewrite lookup_empty in H. discriminate. Qed.

Lemma promises_known_step (NODE_ENV : option string) (c : Call) (st : CacheState) :
  promises_known st ->
  promises_known
    (snd (getAndCache NODE_ENV (call_url c) (call_options c) (call_force c) st)).
Proof.
  intros Hk.
  destruct (getAndCache_cases NODE_ENV (call_url c) (call_options c) (call_force c) st)
    as [-> | ->]; [exact Hk|].
  intros u p. cbn [issue_request snd cache issued]. rewrite List.length_app.
  cbn [List.length].
  destruct (String.eq_dec (call_url c) u) as [-> | Hne].
  - rewrite lookup_insert_eq. intros H. injection H as <-. lia.
  - rewrite lookup_insert_ne by exact Hne. intros H. specialize (Hk u p H). lia.
Qed.

Lemma promises_known_run (NODE_ENV : option string) (calls : list Call) :
  forall st, promises_known st -> promises_known (snd (run_calls NODE_ENV calls st)).
Proof.
  induction calls as [|c r IH]; intros st H; [exact H|].
  cbn [run_calls].
  pose proof (promises_known_step NODE_ENV c st H) as H1.
  destruct (getAndCache NODE_ENV (call_url c) (call_options c) (call_force c) st)
    as [h st1]. cbn [snd] in H1. specialize (IH st1 H1).
  destruct (run_calls NODE_ENV r st1) as [hs st2]. exact IH.
Qed.

(** *** The cache follows the log of requests *)

Lemma cache_tracks_requests_empty : cache_tracks_requests empty_cache.
Proof.
  split.
  - intros url p H. cbn in H. rewrite lookup_empty in H. discriminate.
  - intros q url o H. destruct q; discriminate H.
Qed.

Lemma nth_error_snoc {A : Type} (l : list A) (x : A) (q : nat) (y : A) :
  nth_error (l ++ [x]) q = Some y ->
  (q < List.length l /\ nth_error l q = Some y)%nat \/ (q = List.length l /\ y = x).
Proof.
  intros H. destruct (Nat.lt_ge_cases q (List.length l)) as [Hlt | Hge].
  - left. split; [exact Hlt|]. rewrite nth_error_app1 in H by exact Hlt. exact H.
  - right. rewrite nth_error_app2 in H by exact Hge.
    destruct (q - List.length l)%nat as [|k] eqn:E.
    + cbn in H. injection H as <-. split; [lia | reflexivity].
    + cbn in H. destruct k; discriminate H.
Qed.

Lemma cache_tracks_requests_issue (url : string) (o : option FetchOptions)
  (st : CacheState) :
  cache_tracks_requests st ->
  cache_tracks_requests (snd (issue_request url o st)).
Proof.
  intros [Hc Hi]. split; cbn [issue_request snd cache issued].
  - intros u p Hu. destruct (String.eq_dec url u) as [<- | Hne].
    + rewrite lookup_insert_eq in Hu. injection Hu as <-. split.
      * exists o. cbn [issued]. rewrite nth_error_app2 by lia.
        rewrite Nat.sub_diag. reflexivity.
      * intros q o' Hq Hn. cbn [issued] in Hn.
        apply nth_error_snoc in Hn. destruct Hn as [[Hlt _] | [Heq _]]; lia.
    + rewrite lookup_insert_ne in Hu by exact Hne.
      destruct (Hc u p Hu) as [[o' Hp] Hlast]. split.
      * exists o'. cbn [issued]. rewrite nth_error_app1; [exact Hp|].
        apply nth_error_Some. rewrite Hp. discriminate.
      * intros q o'' Hq Hn. cbn [issued] in Hn.
        apply nth_error_snoc in Hn. destruct Hn as [[_ Hn] | [_ Hn]].
        -- exact (Hlast q o'' Hq Hn).
        -- injection Hn as Hu' _. exact (Hne (eq_sym Hu')).
  - intros q u o' Hn. apply nth_error_snoc in Hn.
    destruct (String.eq_dec url u) as [<- | Hne].
    + exists (List.length (issued st)). apply lookup_insert_eq.
    + rewrite lookup_insert_ne by exact Hne.
      destruct Hn as [[_ Hn] | [_ Hn]]; [exact (Hi q u o' Hn)|].
      injection Hn as Hu' _. exfalso. exact (Hne (eq_sym Hu')).
Qed.

Lemma cache_tracks_requests_step (NODE_ENV : option string) (url : string)
  (o : option FetchOptions) (force : option bool) (st : CacheState) :
  cache_tracks_requests st ->
  cache_tracks_requests (snd (getAndCache NODE_ENV url o force st)).
Proof.
  intros H. destruct (getAndCache_cases NODE_ENV url o force st) as [-> | ->];
    [exact H | apply cache_tracks_requests_issue; exact H].
Qed.

Lemma cache_tracks_requests_run (NODE_ENV : option string) (calls : list Call) :
  forall st, cache_tracks_requests st ->
             cache_tracks_requests (snd (run_calls NODE_ENV calls st)).
Proof.
  induction calls as [|c r IH]; intros st H; [exact H|].
  cbn [run_calls].
  pose proof (cache_tracks_requests_step NODE_ENV (call_url c) (call_options c)
                (call_force c) st H) as H1.
  destruct (getAndCache NODE_ENV (call_url c) (call_options c) (call_force c) st)
    as [p st1].
  cbn [snd] in H1. specialize (IH st1 H1).
  destruct (run_calls NODE_ENV r st1) as [ps st2]. exact IH.
Qed.

(** C4 (amended).  Take a URL that names no member the cache object
    inherits and has no entry, and any run of calls none of which reloads it
    (its [force] is [false], or absent outside [NODE_ENV = "test"]), calls
    for other URLs in between included.  The run issues exactly one request
    for the URL, at its first call for it and with the options of that call;
    every caller is handed the promise of that very request, which is the
    cache entry afterwards.  A call whose [force] is [true], by its argument
    or by the default, issues a new request for its URL, whose promise is
    none of those cached before and becomes the entry.  No call removes an
    entry, and only a reloading call for the same URL changes it. *)
Theorem getAndCache_single_flight (NODE_ENV : option string) :
  (forall (url : string) (calls : list Call) (st : CacheState) (c0 : Call),
      plain_url url = true -> cache st !! url = None ->
      unforced NODE_ENV url calls -> first_call url calls = Some c0 ->
      let r := run_calls NODE_ENV calls st in
      exists p,
        all_handed url (Shared p) calls (fst r)
        /\ cache (snd r) !! url = Some p
        /\ one_request_added url st (snd r) p (call_options c0)
        /\ nth_error (issued (snd r)) p = Some (url, call_options c0)
        /\ requests_for url (snd r) = S (requests_for url st))
  /\
  (forall (prior : list Call) (url : string) (o : option FetchOptions)
          (force : option bool),
      effective_force NODE_ENV force = true ->
      let st := snd (run_calls NODE_ENV prior empty_cache) in
      let r := getAndCache NODE_ENV url o force st in
      fst r = Shared (List.length (issued st))
      /\ issued (snd r) = issued st ++ [(url, o)]
      /\ cache (snd r) !! url = Some (List.length (issued st))
      /\ forall u p, cache st !! u = Some p -> p <> List.length (issued st))
  /\
  (forall (c : Call) (st : CacheState) (url : string) (p : nat),
      cache st !! url = Some p ->
      let st' :=
        snd (getAndCache NODE_ENV (call_url c) (call_options c) (call_force c) st) in
      (exists p', cache st' !! url = Some p')
      /\ (~ (call_url c = url /\ effective_force NODE_ENV (call_force c) = true) ->
          cache st' !! url = Some p)).
Proof.
  split; [|split].
  - intros url calls st c0 Hplain Hc Hu Hfirst r. subst r.
    destruct (run_calls_uncached NODE_ENV url calls st c0 Hplain Hc Hu Hfirst)
      as (p & Hall & Hentry & Hone).
    destruct (one_request_added_count url _ _ p _ Hone) as [Hcount Hnth].
    exists p. auto.
  - intros prior url o force Hf st r. subst r.
    rewrite (getAndCache_issue NODE_ENV url o force st (or_introl Hf)).
    cbn [issue_request fst snd cache issued].
    split; [reflexivity | split; [reflexivity | split; [apply lookup_insert_eq|]]].
    intros u p H.
    pose proof (promises_known_run NODE_ENV prior empty_cache promises_known_empty u p H)
      as Hk.
    fold st in Hk. lia.
  - intros c st url p Hc st'. subst st'.
    destruct (String.eq_dec (call_url c) url) as [Heq | Hne].
    + destruct (effective_force NODE_ENV (call_force c)) eqn:Hf.
      * rewrite Heq, (getAndCache_issue NODE_ENV url _ _ st (or_introl Hf)).
        cbn [issue_request snd cache]. rewrite lookup_insert_eq.
        split; [eauto | intros H; exfalso; apply H; auto].
      * rewrite Heq, (getAndCache_hit NODE_ENV url _ _ st p Hf Hc). cbn [snd]. eauto.
    + destruct (getAndCache_other NODE_ENV url c st Hne) as [H1 _]. rewrite H1. eauto.
Qed.

Lemma getAndCache_single_flight_witness :
  let calls := [sample_call "https://fhir.example/metadata" (Some false);
                sample_call "https://other.example/metadata" None;
                sample_call "https://fhir.example/metadata" None;
                sample_call "https://fhir.example/metadata" None] in
  let r := run_calls (Some "production") calls empty_cache in
  exists p,
    all_handed "https://fhir.example/metadata" (Shared p) calls (fst r)
    /\ cache (snd r) !! "https://fhir.example/metadata" = Some p
    /\ one_request_added "https://fhir.example/metadata" empty_cache (snd r) p None
    /\ nth_error (issued (snd r)) p = Some ("https://fhir.example/metadata", None)
    /\ requests_for "https://fhir.example/metadata" (snd r)
       = S (requests_for "https://fhir.example/metadata" empty_cache).
Proof.
  apply (proj1 (getAndCache_single_flight (Some "production"))
           "https://fhir.example/metadata" _ empty_cache
           (sample_call "https://fhir.example/metadata" (Some false))).
  - reflexivity.
  - apply lookup_empty.
  - repeat constructor.
  - reflexivity.
Defined.

(** The claim as first stated fails twice.  A URL that names a member of
    [Object.prototype] has no entry, yet its callers cause no request at
    all and are handed promises that no request backs.  And under
    [NODE_ENV = "test"] two callers that pass no [force] cause two requests
    and are handed two different promises. *)
Lemma getAndCache_single_flight_fails :
  (cache empty_cache !! "constructor" = None
   /\ fst (run_calls None [sample_call "constructor" None;
                           sample_call "constructor" None] empty_cache)
      = [Wrapped; Wrapped]
   /\ requests_for "constructor"
        (snd (run_calls None [sample_call "constructor" None;
                              sample_call "constructor" None] empty_cache)) = 0%nat)
  /\ (fst (run_calls (Some "test")
             [sample_call "https://fhir.example/metadata" None;
              sample_call "https://fhir.example/metadata" None] empty_cache)
      = [Shared 0; Shared 1]
      /\ requests_for "https://fhir.example/metadata"
           (snd (run_calls (Some "test")
                   [sample_call "https://fhir.example/metadata" None;
                    sample_call "https://fhir.example/metadata" None] empty_cache))
         = 2%nat).
Proof.
  split; [split; [apply lookup_empty | split; reflexivity] | split; reflexivity].
Qed.




(** ** Patient-scoping parameter *)









(** ** Target window *)

Lemma resolve_target_unreachable (env : Browser) (t : Target) (width height : Z) :
  unreachable env t width height = true ->
  resolve_target env t width height = win_self env.
Proof.
  destruct t as [inv | w | | s | ]; cbn [unreachable resolve_target];
    try reflexivity; try discriminate.
  unfold open_or_self, opens.
  destruct (String.eqb s "_self"); [reflexivity|].
  destruct (String.eqb s "_parent"); [discriminate|]. cbn [orb].
  destruct (String.eqb s "_top").
  { destruct (win_top env); [discriminate | reflexivity]. }
  destruct (String.eqb s "_blank").
  { destruct (window_open env OpenTab); [discriminate | reflexivity | reflexivity]. }
  destruct (String.eqb s "popup").
  { destruct (window_open env (OpenPopup width height));
      [discriminate | reflexivity | reflexivity]. }
  destruct (frames env s); [discriminate | reflexivity].
Qed.

(** C1 (amended).  Unless the target is a function whose own call raises,
    [getTargetWindow] returns a window for every target (a function that
    returns, a window, [null], any string, any other value); and when the
    viewing context asked for cannot be obtained ([window.open] throws or
    returns [null], no frame has that name, the target has an invalid type)
    that window is the current one. *)
Theorem getTargetWindow_never_raises (env : Browser) (target : Target)
  (width height : Z) :
  raising_target target = false ->
  exists w,
    getTargetWindow env target width height = Ok w
    /\ (unreachable env (awaited_target target) width height = true ->
        w = win_self env).
Proof.
  intros Hcall.
  exists (resolve_target env (awaited_target target) width height).
  split.
  - destruct target as [[t | e] | w | | s | ]; try reflexivity. discriminate Hcall.
  - apply resolve_target_unreachable.
Qed.

Lemma getTargetWindow_never_raises_witness :
  exists w,
    getTargetWindow locked_browser (TFunction (Returns (TString "popup"))) 800 720 = Ok w
    /\ (unreachable locked_browser
          (awaited_target (TFunction (Returns (TString "popup")))) 800 720 = true ->
        w = win_self locked_browser).
Proof. apply getTargetWindow_never_raises. reflexivity. Defined.

(** A function target whose call throws makes [getTargetWindow] fail with
    that very exception. *)
Lemma getTargetWindow_raising_function :
  getTargetWindow locked_browser (TFunction (Raises (Error "no frame"))) 800 720
  = Throw (Error "no frame").
Proof. reflexivity. Qed.

(** The fallbacks at work. *)
Lemma getTargetWindow_fallbacks :
  getTargetWindow locked_browser (TString "popup") 800 720 = Ok (win_self locked_browser)
  /\ getTargetWindow locked_browser (TString "_blank") 800 720
     = Ok (win_self locked_browser)
  /\ getTargetWindow locked_browser (TString "nowhere") 800 720
     = Ok (win_self locked_browser)
  /\ getTargetWindow locked_browser TOther 800 720 = Ok (win_self locked_browser)
  /\ getTargetWindow locked_browser (TString "launch") 800 720 = Ok 3%nat
  /\ getTargetWindow locked_browser (TString "_parent") 800 720 = Ok 1%nat.
Proof. repeat split; reflexivity. Qed.

(** * Further properties *)

(** ** Path accessor *)

Lemma map_outcome_ext {A B : Type} (f g : A -> outcome B) (l : list A) :
  (forall x, f x = g x) -> map_outcome f l = map_outcome g l.
Proof.
  intros H. induction l as [|x r IH]; [reflexivity|].
  cbn [map_outcome]. rewrite H, IH. reflexivity.
Qed.

Lemma getPath_loop_fuel (f g : nat) :
  (forall o p, (String.length p < f)%nat -> (String.length p < g)%nat ->
               getPath_fuel f o p = getPath_fuel g o p) ->
  forall segments result,
    (String.length (join_dot segments) <= f)%nat -> (1 <= f)%nat ->
    (String.length (join_dot segments) <= g)%nat -> (1 <= g)%nat ->
    getPath_loop (getPath_fuel f) result segments
    = getPath_loop (getPath_fuel g) result segments.
Proof.
  intros Hrec segments.
  induction segments as [|key rest IH]; intros result Hf H1 Hg H2; [reflexivity|].
  assert (Hrest : (String.length (join_dot rest) < f)%nat
                  /\ (String.length (join_dot rest) < g)%nat).
  { destruct rest as [|h t]; [simpl; lia|].
    assert (h :: t <> []) as Hne by discriminate.
    pose proof (join_dot_tail_length key (h :: t) Hne). lia. }
  destruct Hrest as [Hrf Hrg].
  cbn [getPath_loop]. destruct (truthy result); [|reflexivity].
  assert (Hstep : (r <- prop_get result key ;; getPath_loop (getPath_fuel f) r rest)
                  = (r <- prop_get result key ;; getPath_loop (getPath_fuel g) r rest)).
  { destruct (prop_get result key) as [r| |]; cbn [bind]; try reflexivity.
    apply IH; lia. }
  destruct result; try exact Hstep.
  destruct (is_empty key); [|exact Hstep].
  rewrite (map_outcome_ext (fun o => getPath_fuel f o (join_dot rest))
             (fun o => getPath_fuel g o (join_dot rest))); [reflexivity|].
  intros x. apply Hrec; assumption.
Qed.

Lemma getPath_fuel_irrelevant (f : nat) :
  forall g o p, (String.length p < f)%nat -> (String.length p < g)%nat ->
                getPath_fuel f o p = getPath_fuel g o p.
Proof.
  induction f as [|f IH]; intros g o p Hf Hg; [lia|].
  destruct g as [|g]; [lia|]. cbn [getPath_fuel].
  destruct (is_empty (trim p)) eqn:E; [reflexivity|].
  pose proof (trim_length p). pose proof (is_empty_false_length _ E).
  apply getPath_loop_fuel; try (rewrite join_split_dot); try lia.
  intros o' p' H1 H2. apply IH; assumption.
Qed.

Lemma getPath_fuel_step (f : nat) (o : value) (p : string) :
  getPath_fuel (S f) o p
  = if is_empty (trim p) then Ok o
    else getPath_loop (getPath_fuel f) o (split_dot (trim p)).
Proof. reflexivity. Qed.

Lemma getPath_fuel_enough (f : nat) (o : value) (p : string) :
  (String.length p < f)%nat -> getPath_fuel f o p = getPath o p.
Proof. intros H. unfold getPath. apply getPath_fuel_irrelevant; lia. Qed.

Lemma getPath_trim_eq (o : value) (p q : string) :
  trim p = trim q -> getPath o p = getPath o q.
Proof.
  intros H.
  rewrite <- (getPath_fuel_enough (S (String.length p + String.length q)) o p) by lia.
  rewrite <- (getPath_fuel_enough (S (String.length p + String.length q)) o q) by lia.
  cbn [getPath_fuel]. rewrite H. reflexivity.
Qed.

(** X1.  On a path none of whose segments, the white space around it
    apart, names a member of a built-in prototype, [getPath] never raises
    and never fails to return: for every root (an object, an array, a
    primitive, [null] or [undefined]) it yields a value. *)
Theorem getPath_returns_a_value (root : value) (path : string) :
  plain_path path = true -> exists v, getPath root path = Ok v.
Proof. intros H. unfold getPath. apply getPath_fuel_total; [lia | exact H]. Qed.

Lemma getPath_returns_a_value_witness :
  plain_path " rest.0.resource..type" = true
  /\ exists v, getPath (VObj [("rest", VArr [VNum 7])]) " rest.0.resource..type" = Ok v.
Proof.
  split; [reflexivity|].
  apply (getPath_returns_a_value (VObj [("rest", VArr [VNum 7])])
           " rest.0.resource..type").
  reflexivity.
Defined.

(** X2.  An empty leading segment applied to an array maps the rest of the
    path over its elements: [getPath(array, "." + p)] is the array of the
    [getPath(element, p)], in order. *)
Theorem getPath_maps_over_array (l : list value) (p : string) :
  getPath (VArr l) (String dot p)
  = (r <- map_outcome (fun o => getPath o p) l ;; Ok (VArr r)).
Proof.
  unfold getPath at 1. rewrite getPath_fuel_step.
  assert (Htrim : trim (String dot p) = String dot (trim_end p)) by reflexivity.
  rewrite Htrim. cbn [is_empty split_dot].
  change (Ascii.eqb dot dot) with true. cbn [getPath_loop truthy is_empty].
  rewrite join_split_dot.
  rewrite (map_outcome_ext _ (fun o => getPath o p)); [reflexivity|].
  intros o. pose proof (trim_end_length p). cbn [String.length].
  rewrite getPath_fuel_enough by lia.
  apply getPath_trim_eq, trim_trim_end.
Qed.

Lemma split_dot_app (p q : string) :
  split_dot (p ++ String dot q)%string = split_dot p ++ split_dot q.
Proof.
  induction p as [|c r IH]; [reflexivity|].
  change ((String c r ++ String dot q)%string) with (String c (r ++ String dot q)%string).
  cbn [split_dot]. rewrite IH.
  destruct (Ascii.eqb c dot); [reflexivity|].
  destruct (split_dot r) as [|h t] eqn:E; [|reflexivity].
  exfalso. exact (split_dot_not_nil r E).
Qed.

Lemma trim_start_fixed_app (p q : string) :
  is_empty p = false -> trim_start p = p -> trim_start (p ++ q)%string = (p ++ q)%string.
Proof.
  destruct p as [|c r]; [discriminate|]. intros _ H.
  change ((String c r ++ q)%string) with (String c (r ++ q)%string).
  cbn [trim_start] in *. destruct (is_ws c) eqn:Hc; [|reflexivity].
  exfalso. pose proof (trim_start_length r) as Hlen. rewrite H in Hlen.
  cbn [String.length] in Hlen. lia.
Qed.

Lemma trim_end_not_empty (q : string) :
  is_empty q = false -> trim_end q = q -> is_empty (trim_end q) = false.
Proof. intros H ->. exact H. Qed.

Lemma trim_end_fixed_app (p q : string) :
  is_empty q = false -> trim_end q = q -> trim_end (p ++ q)%string = (p ++ q)%string.
Proof.
  intros Hq H. induction p as [|c r IH]; [exact H|].
  change ((String c r ++ q)%string) with (String c (r ++ q)%string).
  cbn [trim_end]. rewrite IH.
  assert (Hne : is_empty (r ++ q)%string = false).
  { destruct r; [exact Hq | reflexivity]. }
  rewrite Hne, andb_false_r. reflexivity.
Qed.

Lemma getPath_loop_app (rec : value -> string -> outcome value)
  (s1 s2 : list string) :
  no_empty_segment s1 = true ->
  forall o,
    getPath_loop rec o (s1 ++ s2)
    = (x <- getPath_loop rec o s1 ;; getPath_loop rec x s2).
Proof.
  intros Hs1. induction s1 as [|key rest IH]; intros o; [reflexivity|].
  cbn [no_empty_segment forallb] in Hs1. apply andb_prop in Hs1.
  destruct Hs1 as [Hkey Hrest]. apply negb_true_iff in Hkey.
  change ((key :: rest) ++ s2) with (key :: (rest ++ s2)).
  cbn [getPath_loop]. rewrite Hkey.
  destruct (truthy o) eqn:Ht.
  - assert (Hstep : (r <- prop_get o key ;; getPath_loop rec r (rest ++ s2))
                    = (x <- (r <- prop_get o key ;; getPath_loop rec r rest) ;;
                       getPath_loop rec x s2)).
    { destruct (prop_get o key) as [r| |]; cbn [bind]; try reflexivity.
      apply IH. exact Hrest. }
    destruct o; exact Hstep.
  - cbn [bind]. symmetry. apply getPath_loop_falsy. exact Ht.
Qed.

Lemma getPath_loop_no_rec (rec rec' : value -> string -> outcome value)
  (segments : list string) :
  no_empty_segment segments = true ->
  forall o, getPath_loop rec o segments = getPath_loop rec' o segments.
Proof.
  intros Hs. induction segments as [|key rest IH]; intros o; [reflexivity|].
  cbn [no_empty_segment forallb] in Hs. apply andb_prop in Hs.
  destruct Hs as [Hkey Hrest]. apply negb_true_iff in Hkey.
  cbn [getPath_loop]. rewrite Hkey.
  destruct (truthy o); [|reflexivity].
  assert (Hstep : (r <- prop_get o key ;; getPath_loop rec r rest)
                  = (r <- prop_get o key ;; getPath_loop rec' r rest)).
  { destruct (prop_get o key) as [r| |]; cbn [bind]; try reflexivity.
    apply IH. exact Hrest. }
  destruct o; exact Hstep.
Qed.

Lemma getPath_loop_enough (f : nat) (o : value) (p : string) :
  (String.length p <= f)%nat -> is_empty p = false -> trim p = p ->
  getPath_loop (getPath_fuel f) o (split_dot p) = getPath o p.
Proof.
  intros Hf Hne Htrim.
  rewrite <- (getPath_fuel_enough (S f) o p) by lia.
  rewrite getPath_fuel_step, Htrim, Hne. reflexivity.
Qed.

Lemma trim_start_fixed (s : string) : trim s = s -> trim_start s = s.
Proof.
  intros H. pose proof (trim_end_length (trim_start s)) as H1.
  unfold trim in H. rewrite H in H1.
  destruct s as [|c r]; [reflexivity|]. cbn [trim_start] in *.
  destruct (is_ws c); [|reflexivity].
  pose proof (trim_start_length r). cbn [String.length] in H1. lia.
Qed.

Lemma trim_end_fixed (s : string) : trim s = s -> trim_end s = s.
Proof.
  intros H. pose proof (trim_start_fixed s H) as Hs.
  unfold trim in H. rewrite Hs in H. exact H.
Qed.

(** X3.  Reading through a path in two steps: when [p] and [q] carry no
    white space at their ends, [q] is not empty and no segment of [p] is
    empty, [getPath(o, p + "." + q)] is [getPath(getPath(o, p), q)]. *)
Theorem getPath_composes (o : value) (p q : string) :
  trim p = p -> trim q = q -> is_empty q = false ->
  no_empty_segment (split_dot p) = true ->
  getPath o (p ++ String dot q)%string = (x <- getPath o p ;; getPath x q).
Proof.
  intros Hp Hq Hqne Hsegs.
  assert (Hpne : is_empty p = false).
  { destruct p; [discriminate Hsegs | reflexivity]. }
  assert (Hwhole : trim (p ++ String dot q)%string = (p ++ String dot q)%string).
  { unfold trim.
    rewrite (trim_start_fixed_app p _ Hpne (trim_start_fixed p Hp)).
    apply trim_end_fixed_app; [reflexivity|].
    cbn [trim_end]. rewrite (trim_end_fixed q Hq). reflexivity. }
  assert (Hlen : String.length (p ++ String dot q)%string
                 = (String.length p + S (String.length q))%nat).
  { rewrite append_length. reflexivity. }
  unfold getPath at 1. rewrite getPath_fuel_step, Hwhole.
  assert (Hne : is_empty (p ++ String dot q)%string = false).
  { destruct p; reflexivity. }
  rewrite Hne, split_dot_app, (getPath_loop_app _ _ _ Hsegs).
  rewrite (getPath_loop_enough _ o p) by (try assumption; lia).
  destruct (getPath o p) as [x| |]; cbn [bind]; try reflexivity.
  apply getPath_loop_enough; try assumption. lia.
Qed.

Lemma getPath_composes_witness :
  getPath (VObj [("a", VObj [("b", VArr [VNum 1; VNum 2])])]) "a.b.1"
  = (x <- getPath (VObj [("a", VObj [("b", VArr [VNum 1; VNum 2])])]) "a.b" ;;
     getPath x "1").
Proof.
  exact (getPath_composes (VObj [("a", VObj [("b", VArr [VNum 1; VNum 2])])])
           "a.b" "1" eq_refl eq_refl eq_refl eq_refl).
Defined.

Lemma assoc_set_same (ps : list (string * value)) (key : string) (v : value) :
  assoc_get ps key = Some v -> assoc_set ps key v = ps.
Proof.
  induction ps as [|[k w] r IH]; cbn [assoc_get assoc_set]; [discriminate|].
  destruct (String.eqb k key).
  - intros H. injection H as ->. reflexivity.
  - intros H. rewrite (IH H). reflexivity.
Qed.

Lemma array_store_same (l : list value) (i : nat) :
  (i < List.length l)%nat -> array_store l i (nth i l VUndefined) = l.
Proof.
  revert l. induction i as [|j IH]; intros [|x r] H; cbn in H; try lia.
  - reflexivity.
  - cbn [array_store nth]. rewrite IH by lia. reflexivity.
Qed.

Lemma store_back_same (out : value) (key : string) (child : value) :
  prop_get out key = Ok child -> store_back out key child child = out.
Proof.
  intros Hget. unfold store_back.
  destruct (is_container child) eqn:Hc; [|reflexivity].
  destruct out as [ | | b | n | s | l | ps]; try reflexivity.
  - destruct (array_index key) as [i|] eqn:Hi; [|reflexivity].
    cbn [prop_get] in Hget. rewrite (array_index_not_length key i Hi), Hi in Hget.
    injection Hget as <-.
    destruct (Nat.lt_ge_cases i (List.length l)) as [Hlt | Hge].
    + rewrite array_store_same by exact Hlt. reflexivity.
    + rewrite nth_overflow in Hc by exact Hge. discriminate Hc.
  - cbn [prop_get] in Hget.
    destruct (assoc_get ps key) as [w|] eqn:Hw.
    + injection Hget as ->. rewrite (assoc_set_same ps key child Hw). reflexivity.
    + unfold absent in Hget. destruct (inherited (VObj ps) key); [discriminate|].
      injection Hget as <-. discriminate Hc.
Qed.

Lemma setPath_walk_falsy (out : value) (segments : list string) (v : value)
  (ce : bool) :
  truthy out = false -> setPath_walk out segments v ce = Ok out.
Proof.
  intros H. destruct segments as [|key [|next rest]]; cbn [setPath_walk];
    [reflexivity | rewrite H; reflexivity | rewrite H; reflexivity].
Qed.

Lemma blocked_step (ce : bool) (out : value) (key next : string) (rest : list string) :
  blocked ce out (key :: next :: rest)
  = truthy out
    && match prop_get out key with
       | Ok child =>
           if truthy child then blocked ce child (next :: rest)
           else negb (is_undefined child && ce)
       | _ => false
       end.
Proof. reflexivity. Qed.

Lemma setPath_walk_blocked (ce : bool) (v : value) (segments : list string) :
  forall out, blocked ce out segments = true ->
              setPath_walk out segments v ce = Ok out.
Proof.
  induction segments as [|key rest IH]; intros out Hb; [discriminate|].
  destruct rest as [|next rest']; [discriminate|].
  rewrite blocked_step in Hb. apply andb_prop in Hb. destruct Hb as [Ht Hb].
  rewrite setPath_walk_step, Ht.
  destruct (prop_get out key) as [child| |] eqn:Hget; try discriminate.
  cbn [bind].
  assert (Hwalk : setPath_walk child (next :: rest') v ce = Ok child
                  /\ is_undefined child && ce = false).
  { destruct (truthy child) eqn:Hc.
    - split; [apply IH; exact Hb|].
      destruct child; try reflexivity. discriminate Hc.
    - split; [apply setPath_walk_falsy; exact Hc|].
      apply negb_true_iff. exact Hb. }
  destruct Hwalk as [Hwalk Hnew]. rewrite Hnew, Hwalk. cbn [bind].
  rewrite (store_back_same out key child Hget). reflexivity.
Qed.

(** X4.  [setPath] is all or nothing along the way: when, before its last
    segment, the path reaches through own entries a value that is falsy
    ([null], a zero, an empty string, [false], or an entry that is missing
    and that no prototype supplies, when [createEmpty] is not set), the
    structure is returned exactly as it was and nothing is raised. *)
Theorem setPath_blocked_unchanged (o : value) (p : string) (v : value)
  (createEmpty : bool) :
  blocked createEmpty o (split_dot (trim p)) = true ->
  setPath o p v createEmpty = Ok o.
Proof. intros H. unfold setPath. apply setPath_walk_blocked. exact H. Qed.

Lemma setPath_blocked_unchanged_witness :
  setPath (VObj [("a", VObj [("b", VNull)])]) "a.b.c.d" (VNum 1) true
  = Ok (VObj [("a", VObj [("b", VNull)])])
  /\ setPath (VObj [("x", VNum 1)]) "a.b" (VNum 1) false = Ok (VObj [("x", VNum 1)]).
Proof.
  split; apply setPath_blocked_unchanged; reflexivity.
Defined.

(** ** Request pipeline *)

(** X5.  A reply whose status is outside 200..299 never yields a result.
    [request] raises the [HttpError] made from the reply, which carries its
    status and the message that [HttpError.parse] leaves, or it raises what
    that parsing raises; whatever the reply holds, [request] itself neither
    reads its body nor follows its location. *)
Theorem request_rejects_error_status
  (parse : Response -> outcome string)
  (fetch : string -> RequestInit -> outcome Response) (url : string)
  (o : FetchOptions) (res : Response) (fuel : nat) :
  fetch url (fetch_init o) = Ok res ->
  ok res = false ->
  request (S fuel) parse fetch url o
  = (message <- parse res ;; Throw (HttpError (status res) message))
  /\ forall r, request (S fuel) parse fetch url o <> Ok r.
Proof.
  intros Hfetch Hok.
  assert (H : request (S fuel) parse fetch url o
              = (message <- parse res ;; Throw (HttpError (status res) message))).
  { cbn [request]. rewrite Hfetch. cbn [bind].
    unfold checkResponse. rewrite Hok. cbn [negb].
    destruct (parse res); reflexivity. }
  split; [exact H|]. intros r. rewrite H. destruct (parse res); discriminate.
Qed.

Lemma request_rejects_error_status_witness :
  request 4 sample_parse
    (fun _ _ => Ok {| status := 404;
                      headers := [("content-type", "application/json");
                                  ("location", "https://fhir.example/Patient/1")];
                      body_text := "not json" |})
    "https://fhir.example/Patient/2" no_options
  = Throw (HttpError 404 "not json").
Proof.
  apply (proj1 (request_rejects_error_status sample_parse _ _ _
           {| status := 404;
              headers := [("content-type", "application/json");
                          ("location", "https://fhir.example/Patient/1")];
              body_text := "not json" |} 3 eq_refl eq_refl)).
Defined.

(** X6.  A 201 reply that names a non-empty location and whose body reads
    as falsy is replaced by the result of a GET of that location, issued with
    the caller's options except for the method and the body; a body that is
    neither JSON nor text is not read at all, so such a reply is followed
    whatever it contains.  The first request yields a result exactly when the
    request of the location does, and the same one. *)
Theorem request_follows_created
  (parse : Response -> outcome string)
  (fetch : string -> RequestInit -> outcome Response) (url : string)
  (o : FetchOptions) (res : Response) (location : string) :
  fetch url (fetch_init o) = Ok res ->
  status res = 201%Z ->
  headers_get (headers res) "location" = Some location ->
  is_empty location = false ->
  (exists body, read_body res = Ok body /\ truthy body = false)
  \/ (word_match "json" (content_type res) = false
      /\ word_match "text" (content_type res) = false) ->
  (forall fuel,
      request (S fuel) parse fetch url o
      = request fuel parse fetch location (follow_up_options o))
  /\ (forall r, request_yields parse fetch url o r
                <-> request_yields parse fetch location (follow_up_options o) r)
  /\ follow_up_options o
     = {| opt_mode := opt_mode o; opt_method := Some "GET"; opt_body := None;
          opt_headers := opt_headers o; opt_other := opt_other o;
          includeResponse := includeResponse o |}.
Proof.
  intros Hfetch Hstatus Hloc Hne Hbody.
  assert (Hread : exists body, read_body res = Ok body /\ truthy body = false).
  { destruct Hbody as [H | [Hj Ht]]; [exact H|].
    exists VUndefined. unfold read_body. rewrite Hj, Ht. split; reflexivity. }
  destruct Hread as (body & Hread & Hfalsy).
  split; [|split; [|reflexivity]].
  - intros fuel.
    apply (request_follows_location parse fetch url o res body location fuel); assumption.
  - intros r.
    apply (request_yields_through_location parse fetch url o res body location r);
      assumption.
Qed.

Lemma request_follows_created_witness :
  request 3 sample_parse
    (fun url _ =>
       if String.eqb url "https://fhir.example/Binary" then
         Ok {| status := 201;
               headers := [("content-type", "application/octet-stream");
                           ("location", "https://fhir.example/Binary/7")];
               body_text := "raw bytes" |}
       else Ok patient_reply)
    "https://fhir.example/Binary" no_options
  = request 2 sample_parse
      (fun url _ =>
         if String.eqb url "https://fhir.example/Binary" then
           Ok {| status := 201;
                 headers := [("content-type", "application/octet-stream");
                             ("location", "https://fhir.example/Binary/7")];
                 body_text := "raw bytes" |}
         else Ok patient_reply)
      "https://fhir.example/Binary/7" (follow_up_options no_options).
Proof.
  apply (proj1 (request_follows_created sample_parse _ "https://fhir.example/Binary" no_options
                  {| status := 201;
                     headers := [("content-type", "application/octet-stream");
                                 ("location", "https://fhir.example/Binary/7")];
                     body_text := "raw bytes" |}
                  "https://fhir.example/Binary/7"
                  eq_refl eq_refl eq_refl eq_refl
                  (or_intror (conj eq_refl eq_refl)))).
Defined.

Lemma parse_number_defined (s : string) (v : value) (rest : string) :
  parse_number s = Ok (v, rest) -> is_undefined v = false.
Proof.
  unfold parse_number.
  destruct (match s with
            | String c r => if Ascii.eqb c "-" then (true, r) else (false, s)
            | EmptyString => (false, s)
            end) as [neg body].
  destruct body as [|c r]; [discriminate|].
  destruct (negb (is_digit c)); [discriminate|].
  destruct (if Ascii.eqb c "0" then (String c EmptyString, r)
            else take_digits (String c r)) as [digits rest'].
  destruct (starts_fraction_or_exponent rest'); [discriminate|].
  intros H. injection H as <- _. reflexivity.
Qed.

Lemma parse_value_defined (fuel : nat) (s : string) (v : value) (rest : string) :
  parse_value fuel s = Ok (v, rest) -> is_undefined v = false.
Proof.
  destruct fuel as [|f]; [discriminate|]. cbn [parse_value].
  destruct (skip_ws s) as [|c r]; [discriminate|].
  destruct (Ascii.eqb c "{").
  { destruct (skip_ws r) as [|c1 r1]; [discriminate|].
    destruct (Ascii.eqb c1 "}"); [intros H; injection H as <- _; reflexivity|].
    destruct (parse_members f r []) as [[ps rest']| |]; cbn [bind];
      try discriminate. intros H; injection H as <- _; reflexivity. }
  destruct (Ascii.eqb c "[").
  { destruct (skip_ws r) as [|c1 r1]; [discriminate|].
    destruct (Ascii.eqb c1 "]"); [intros H; injection H as <- _; reflexivity|].
    destruct (parse_elements f r []) as [[l rest']| |]; cbn [bind];
      try discriminate. intros H; injection H as <- _; reflexivity. }
  destruct (Ascii.eqb c quote).
  { destruct (parse_string_body r) as [[t rest']| |]; cbn [bind];
      try discriminate. intros H; injection H as <- _; reflexivity. }
  destruct (Ascii.eqb c "t").
  { destruct (expect "rue" r); [|discriminate].
    intros H; injection H as <- _; reflexivity. }
  destruct (Ascii.eqb c "f").
  { destruct (expect "alse" r); [|discriminate].
    intros H; injection H as <- _; reflexivity. }
  destruct (Ascii.eqb c "n").
  { destruct (expect "ull" r); [|discriminate].
    intros H; injection H as <- _; reflexivity. }
  apply parse_number_defined.
Qed.

(** [JSON.parse] never yields [undefined]. *)
Lemma JSON_parse_defined (text : string) (v : value) :
  JSON_parse text = Ok v -> is_undefined v = false.
Proof.
  unfold JSON_parse.
  destruct (parse_value (2 * String.length text + 2) text) as [[w rest]| |] eqn:E;
    cbn [bind]; try discriminate.
  destruct (is_empty (skip_ws rest)); [|discriminate].
  intros H. injection H as <-. exact (parse_value_defined _ _ _ _ E).
Qed.

(** X7.  For a successful reply other than a 201, and without
    [includeResponse], [request] hands back the response object itself
    exactly when the content type is neither JSON nor text; a JSON or text
    reply never comes back as the raw response. *)
Theorem request_returns_raw_response_iff
  (parse : Response -> outcome string)
  (fetch : string -> RequestInit -> outcome Response) (url : string)
  (o : FetchOptions) (res : Response) (fuel : nat) :
  fetch url (fetch_init o) = Ok res ->
  ok res = true -> status res <> 201%Z -> includeResponse o = false ->
  request (S fuel) parse fetch url o = Ok (RawResponse res)
  <-> word_match "json" (content_type res) = false
      /\ word_match "text" (content_type res) = false.
Proof.
  intros Hfetch Hok Hstatus Hinc.
  cbn [request]. rewrite Hfetch. cbn [bind].
  unfold checkResponse. rewrite Hok. cbn [negb bind].
  assert (Hno : forall body, location_to_follow res body = None).
  { intros body. unfold location_to_follow.
    apply Z.eqb_neq in Hstatus. rewrite Hstatus, andb_false_r. reflexivity. }
  unfold read_body.
  destruct (word_match "json" (content_type res)).
  - destruct (JSON_parse (body_text res)) as [body| |] eqn:E; cbn [bind].
    + rewrite Hno, Hinc, (JSON_parse_defined _ _ E).
      split; [discriminate | intros [H _]; discriminate].
    + split; [discriminate | intros [H _]; discriminate].
    + split; [discriminate | intros [H _]; discriminate].
  - destruct (word_match "text" (content_type res)); cbn [bind];
      rewrite Hno, Hinc; cbn [is_undefined].
    + split; [discriminate | intros [_ H]; discriminate].
    + split; auto.
Qed.

Lemma request_returns_raw_response_iff_witness :
  request 1 sample_parse
    (fun _ _ => Ok {| status := 200; headers := [("content-type", "image/png")];
                      body_text := "PNG" |})
    "https://fhir.example/Binary/7" no_options
  = Ok (RawResponse {| status := 200; headers := [("content-type", "image/png")];
                       body_text := "PNG" |}).
Proof.
  apply (proj2 (request_returns_raw_response_iff sample_parse _ "https://fhir.example/Binary/7"
                  no_options
                  {| status := 200; headers := [("content-type", "image/png")];
                     body_text := "PNG" |} 0
                  eq_refl eq_refl ltac:(discriminate) eq_refl)).
  split; reflexivity.
Defined.

(** ** Header merge *)





Section Folding.

Context {A : Type} (name : A -> string) (val : A -> value).




End Folding.









(** ** URLs and the conformance statement *)

Lemma strip_trailing_all_slashes (t : string) :
  all_slashes t = true -> strip_trailing_slashes t = EmptyString.
Proof.
  induction t as [|c r IH]; [reflexivity|]. cbn [all_slashes strip_trailing_slashes].
  intros H. apply andb_prop in H. destruct H as [Hc Hr].
  rewrite Hc, (IH Hr). reflexivity.
Qed.

Lemma strip_trailing_app_slashes (b t : string) :
  all_slashes t = true ->
  strip_trailing_slashes (b ++ t)%string = strip_trailing_slashes b.
Proof.
  intros Ht. induction b as [|c r IH]; [exact (strip_trailing_all_slashes t Ht)|].
  change ((String c r ++ t)%string) with (String c (r ++ t)%string).
  cbn [strip_trailing_slashes]. rewrite IH. reflexivity.
Qed.

Lemma strip_trailing_split (b : string) :
  exists t, all_slashes t = true /\ b = (strip_trailing_slashes b ++ t)%string.
Proof.
  induction b as [|c r (t & Ht & Hr)]; [exists EmptyString; auto|].
  cbn [strip_trailing_slashes].
  destruct (Ascii.eqb c slash && is_empty (strip_trailing_slashes r)) eqn:E.
  - apply andb_prop in E. destruct E as [Hc He]. apply is_empty_true in He.
    rewrite He in Hr. exists (String c t). cbn [all_slashes]. rewrite Hc, Ht.
    split; [reflexivity|]. rewrite Hr at 1. reflexivity.
  - exists t. split; [exact Ht|].
    change ((String c (strip_trailing_slashes r) ++ t)%string)
      with (String c (strip_trailing_slashes r ++ t)%string).
    rewrite <- Hr. reflexivity.
Qed.

Lemma strip_trailing_no_slash (b : string) :
  ends_with_slash (strip_trailing_slashes b) = false.
Proof.
  induction b as [|c r IH]; [reflexivity|]. cbn [strip_trailing_slashes].
  destruct (Ascii.eqb c slash && is_empty (strip_trailing_slashes r)) eqn:E;
    [reflexivity|].
  cbn [ends_with_slash]. destruct (strip_trailing_slashes r) as [|c' r'] eqn:Er.
  - cbn [is_empty] in E. rewrite andb_true_r in E. exact E.
  - exact IH.
Qed.

Lemma strip_leading_split (p : string) :
  exists t, all_slashes t = true /\ p = (t ++ strip_leading_slashes p)%string
            /\ starts_with_slash (strip_leading_slashes p) = false.
Proof.
  induction p as [|c r (t & Ht & Hr & Hs)]; [exists EmptyString; auto|].
  cbn [strip_leading_slashes]. destruct (Ascii.eqb c slash) eqn:Hc.
  - exists (String c t). cbn [all_slashes]. rewrite Hc, Ht.
    split; [reflexivity|]. split; [|exact Hs].
    change ((String c t ++ strip_leading_slashes r)%string)
      with (String c (t ++ strip_leading_slashes r)%string).
    rewrite <- Hr. reflexivity.
  - exists EmptyString. split; [reflexivity|]. split; [reflexivity|].
    cbn [starts_with_slash]. exact Hc.
Qed.

Lemma strip_leading_app_slashes (t p : string) :
  all_slashes t = true ->
  strip_leading_slashes (t ++ p)%string = strip_leading_slashes p.
Proof.
  induction t as [|c r IH]; [reflexivity|]. cbn [all_slashes].
  intros H. apply andb_prop in H. destruct H as [Hc Hr].
  change ((String c r ++ p)%string) with (String c (r ++ p)%string).
  cbn [strip_leading_slashes]. rewrite Hc. exact (IH Hr).
Qed.

Lemma prefix_after_slashes (w t p : string) :
  all_slashes t = true -> String.prefix w p = false ->
  starts_with_slash w = false -> is_empty w = false ->
  String.prefix w (t ++ p)%string = false.
Proof.
  intros Ht Hp Hw Hwne. destruct t as [|c r]; [exact Hp|].
  cbn [all_slashes] in Ht. apply andb_prop in Ht. destruct Ht as [Hc _].
  apply Ascii.eqb_eq in Hc. subst c.
  destruct w as [|a w']; [discriminate|].
  change ((String slash r ++ p)%string) with (String slash (r ++ p)%string).
  cbn [String.prefix]. cbn [starts_with_slash] in Hw.
  destruct (ascii_dec a slash) as [-> | Hne]; [|reflexivity].
  rewrite Ascii.eqb_refl in Hw. discriminate.
Qed.

(** X9.  A path that does not begin with [http] or [urn] is appended to the
    base with exactly one slash between them: the trailing slashes of the
    base and the leading slashes of the path are dropped, so that adding
    slashes at either place changes nothing.  Without a base the result is a
    rooted path. *)
Theorem absolute_joins_with_one_slash (path : string) (baseUrl : option string) :
  String.prefix "http" path = false -> String.prefix "urn" path = false ->
  (exists b p t1 t2,
      absolute path baseUrl = (b ++ "/" ++ p)%string
      /\ ends_with_slash b = false /\ starts_with_slash p = false
      /\ all_slashes t1 = true /\ all_slashes t2 = true
      /\ match baseUrl with Some base => base | None => EmptyString end
         = (b ++ t1)%string
      /\ path = (t2 ++ p)%string)
  /\ (forall base t1 t2,
         all_slashes t1 = true -> all_slashes t2 = true ->
         absolute (t2 ++ path) (Some (base ++ t1)%string) = absolute path (Some base))
  /\ starts_with_slash (absolute path None) = true.
Proof.
  intros Hhttp Hurn. split; [|split].
  - unfold absolute. rewrite Hhttp, Hurn.
    set (base := match baseUrl with
                 | Some b => if negb (is_empty b) then b else EmptyString
                 | None => EmptyString
                 end).
    assert (Hbase : base = match baseUrl with Some b => b | None => EmptyString end).
    { unfold base. destruct baseUrl as [[|c r]|]; reflexivity. }
    destruct (strip_trailing_split base) as (t1 & Ht1 & Hb).
    destruct (strip_leading_split path) as (t2 & Ht2 & Hp & Hs).
    exists (strip_trailing_slashes base), (strip_leading_slashes path), t1, t2.
    split; [reflexivity|]. split; [apply strip_trailing_no_slash|].
    split; [exact Hs|]. split; [exact Ht1|]. split; [exact Ht2|].
    split; [rewrite <- Hbase; exact Hb | exact Hp].
  - intros base t1 t2 Ht1 Ht2. unfold absolute.
    rewrite (prefix_after_slashes "http" t2 path Ht2 Hhttp eq_refl eq_refl).
    rewrite (prefix_after_slashes "urn" t2 path Ht2 Hurn eq_refl eq_refl).
    rewrite Hhttp, Hurn, (strip_leading_app_slashes t2 path Ht2).
    f_equal.
    assert (Hstrip : forall s, strip_trailing_slashes
                                 (if negb (is_empty s) then s else EmptyString)
                               = strip_trailing_slashes s).
    { intros [|c r]; reflexivity. }
    rewrite !Hstrip. apply strip_trailing_app_slashes. exact Ht1.
  - unfold absolute. rewrite Hhttp, Hurn. reflexivity.
Qed.

Lemma absolute_joins_with_one_slash_witness :
  absolute "//Patient/1" (Some "https://fhir.example/base///")
  = absolute "Patient/1" (Some "https://fhir.example/base").
Proof.
  exact (proj1 (proj2 (absolute_joins_with_one_slash "Patient/1" None eq_refl eq_refl))
           "https://fhir.example/base" "///" "//" eq_refl eq_refl).
Defined.

Lemma prefix_app (w s : string) : String.prefix w (w ++ s)%string = true.
Proof.
  induction w as [|c r IH]; [destruct s; reflexivity|].
  change ((String c r ++ s)%string) with (String c (r ++ s)%string).
  cbn [String.prefix]. destruct (ascii_dec c c) as [_ | H]; [exact IH | contradiction].
Qed.

Lemma contains_app (w a b : string) : contains w (a ++ w ++ b)%string = true.
Proof.
  induction a as [|c r IH].
  - change ((EmptyString ++ w ++ b)%string) with ((w ++ b)%string).
    destruct (w ++ b)%string eqn:E; cbn [contains];
      rewrite <- E, prefix_app; reflexivity.
  - change ((String c r ++ w ++ b)%string) with (String c (r ++ w ++ b)%string).
    cbn [contains]. rewrite IH. apply orb_true_r.
Qed.

(** No name that is free of slashes is a URL ending in [/metadata]. *)
Lemma slash_not_named (names : list string) (a b : string) :
  forallb (fun n => negb (contains "/" n)) names = true ->
  named names (a ++ "/" ++ b) = false.
Proof.
  intros H. unfold named.
  destruct (existsb (String.eqb (a ++ "/" ++ b)) names) eqn:E; [|reflexivity].
  apply existsb_exists in E. destruct E as (n & Hin & Heq).
  apply String.eqb_eq in Heq. subst n.
  pose proof (proj1 (forallb_forall _ _) H _ Hin) as Hn.
  cbn beta in Hn. rewrite contains_app in Hn. discriminate Hn.
Qed.

(** The URL of the conformance statement never reads as an inherited member:
    a call without reload is handed the promise of a request, which is the
    cache entry afterwards. *)
Lemma getAndCache_conformance (NODE_ENV : option string) (base : string)
  (o : option FetchOptions) (st : CacheState) :
  default_force NODE_ENV = false ->
  exists p,
    fst (getAndCache NODE_ENV (conformance_url base) o None st) = Shared p
    /\ cache (snd (getAndCache NODE_ENV (conformance_url base) o None st))
         !! conformance_url base = Some p.
Proof.
  intros Hf. unfold getAndCache, effective_force. rewrite Hf.
  unfold cache_read.
  destruct (cache st !! conformance_url base) as [p|] eqn:E.
  - exists p. split; [reflexivity | exact E].
  - unfold conformance_url.
    rewrite (slash_not_named object_members _ "metadata" eq_refl),
      (slash_not_named promise_members _ "metadata" eq_refl), andb_false_r.
    cbn [orb issue_request fst snd cache]. eexists. split; [reflexivity|].
    apply lookup_insert_eq.
Qed.

(** X10.  Outside [NODE_ENV = "test"], the conformance statement is
    requested at the base URL without its trailing slashes, followed by
    [/metadata]; two base URLs that differ only in trailing slashes therefore
    share one cache entry.  The second call issues no request and leaves the
    cache as it was; it returns a promise of its own, which follows the
    promise of the same request as the one the first call returned, names
    the same URL in its failure, and so settles as that one does. *)
Theorem fetchConformanceStatement_shares_entry (NODE_ENV : option string)
  (base t : string) (o o' : option FetchOptions) (describe : exn -> string)
  (settled : nat -> outcome FetchResult) (st : ConformanceState) :
  all_slashes t = true -> default_force NODE_ENV = false ->
  let r1 := fetchConformanceStatement NODE_ENV (Some base) o st in
  let r2 := fetchConformanceStatement NODE_ENV (Some (base ++ t)%string) o' (snd r1) in
  conformance_url (base ++ t) = conformance_url base
  /\ fst r2 <> fst r1
  /\ requests (snd r2) = requests (snd r1)
  /\ (exists p,
        cache (requests (snd r1)) !! conformance_url base = Some p
        /\ nth_error (chained (snd r2)) (fst r1) = Some (Shared p, conformance_url base)
        /\ nth_error (chained (snd r2)) (fst r2) = Some (Shared p, conformance_url base))
  /\ conformance_outcome describe settled (snd r2) (fst r2)
     = conformance_outcome describe settled (snd r2) (fst r1).
Proof.
  intros Ht Hf r1 r2.
  assert (Hurl : conformance_url (base ++ t) = conformance_url base).
  { unfold conformance_url. rewrite (strip_trailing_app_slashes base t Ht). reflexivity. }
  destruct (getAndCache_conformance NODE_ENV base o (requests st) Hf) as (p & Hh & Hc).
  destruct (getAndCache NODE_ENV (conformance_url base) o None (requests st))
    as [h c1] eqn:E1.
  cbn [fst snd] in Hh, Hc. subst h.
  assert (Hr1 : r1 = (List.length (chained st),
                      {| requests := c1;
                         chained := chained st ++ [(Shared p, conformance_url base)] |})).
  { subst r1. unfold fetchConformanceStatement. rewrite E1. reflexivity. }
  assert (Hr2 : r2 = (List.length (chained st ++ [(Shared p, conformance_url base)]),
                      {| requests := c1;
                         chained := (chained st ++ [(Shared p, conformance_url base)])
                                      ++ [(Shared p, conformance_url base)] |})).
  { subst r2. rewrite Hr1. unfold fetchConformanceStatement. cbn [snd requests chained].
    rewrite Hurl, (getAndCache_hit NODE_ENV _ o' None c1 p Hf Hc). reflexivity. }
  rewrite Hr2, Hr1. cbn [fst snd requests chained].
  assert (H1 : nth_error ((chained st ++ [(Shared p, conformance_url base)])
                            ++ [(Shared p, conformance_url base)])
                 (List.length (chained st))
               = Some (Shared p, conformance_url base)).
  { rewrite nth_error_app1 by (rewrite List.length_app; cbn; lia).
    rewrite nth_error_app2 by lia. rewrite Nat.sub_diag. reflexivity. }
  assert (H2 : nth_error ((chained st ++ [(Shared p, conformance_url base)])
                            ++ [(Shared p, conformance_url base)])
                 (List.length (chained st ++ [(Shared p, conformance_url base)]))
               = Some (Shared p, conformance_url base)).
  { rewrite nth_error_app2 by lia. rewrite Nat.sub_diag. reflexivity. }
  split; [exact Hurl|]. split; [rewrite List.length_app; cbn [List.length]; lia|].
  split; [reflexivity|]. split; [exists p; auto|].
  unfold conformance_outcome. cbn [chained]. rewrite H1, H2. reflexivity.
Qed.

Lemma fetchConformanceStatement_shares_entry_witness :
  let st := {| requests := empty_cache; chained := [] |} in
  let r1 := fetchConformanceStatement None (Some "https://fhir.example/r4") None st in
  let r2 := fetchConformanceStatement None (Some "https://fhir.example/r4//") None
              (snd r1) in
  fst r2 <> fst r1
  /\ requests (snd r2) = requests (snd r1)
  /\ conformance_outcome (fun _ => "HttpError: 503")
       (fun _ => Throw (HttpError 503 "503")) (snd r2) (fst r2)
     = conformance_outcome (fun _ => "HttpError: 503")
         (fun _ => Throw (HttpError 503 "503")) (snd r2) (fst r1).
Proof.
  pose proof (fetchConformanceStatement_shares_entry None "https://fhir.example/r4" "//"
                None None (fun _ => "HttpError: 503")
                (fun _ => Throw (HttpError 503 "503"))
                {| requests := empty_cache; chained := [] |} eq_refl eq_refl)
    as (_ & H1 & H2 & _ & H3).
  exact (conj H1 (conj H2 H3)).
Defined.

(** ** Random strings *)

Lemma string_at_lt (s : string) (i : nat) :
  (i < String.length s)%nat -> exists c, string_at s i = Some c.
Proof.
  revert i. induction s as [|c r IH]; intros i H; cbn in H; [lia|].
  destruct i as [|j]; [exists c; reflexivity|].
  cbn [string_at]. apply IH. lia.
Qed.

Lemma randomString_from_spec (charSet : string) (draw : nat -> nat) (n : nat) :
  (forall k, (draw k < String.length charSet)%nat) ->
  forall k,
    String.length (randomString_from k n charSet draw) = n
    /\ drawn_from charSet (randomString_from k n charSet draw).
Proof.
  intros Hdraw. induction n as [|n IH]; intros k.
  - split; [reflexivity|]. intros i c H. destruct i; discriminate H.
  - cbn [randomString_from]. unfold charAt.
    destruct (string_at_lt charSet (draw k) (Hdraw k)) as [c Hc]. rewrite Hc.
    destruct (IH (S k)) as [Hlen Hin].
    change ((String c EmptyString ++ randomString_from (S k) n charSet draw)%string)
      with (String c (randomString_from (S k) n charSet draw)).
    split; [cbn [String.length]; rewrite Hlen; reflexivity|].
    intros i c' H. destruct i as [|j].
    + cbn [string_at] in H. injection H as <-. exists (draw k). exact Hc.
    + cbn [string_at] in H. exact (Hin j c' H).
Qed.

Lemma randomString_from_empty (draw : nat -> nat) (n : nat) :
  forall k, randomString_from k n EmptyString draw = EmptyString.
Proof.
  induction n as [|n IH]; intros k; [reflexivity|].
  cbn [randomString_from]. rewrite IH. reflexivity.
Qed.

(** X11.  [draw k] being what [Math.floor(Math.random() * len)] yields at
    the [k]-th turn, a whole number from 0 to [len - 1], or 0 when [len] is
    0: for a character set that is not empty, [randomString] returns exactly
    as many characters as the whole number asked for, every one of them taken
    from the character set; for the empty character set it returns the empty
    string, whatever the length asked for. *)
Theorem randomString_length_and_alphabet (strLength : nat) (charSet : string)
  (draw : nat -> nat) :
  (forall k, (draw k <= String.length charSet - 1)%nat) ->
  (charSet <> EmptyString ->
   String.length (randomString strLength charSet draw) = strLength
   /\ drawn_from charSet (randomString strLength charSet draw))
  /\ (charSet = EmptyString -> randomString strLength charSet draw = EmptyString).
Proof.
  intros H. split.
  - intros Hne. apply randomString_from_spec. intros k. specialize (H k).
    destruct charSet as [|c r]; [congruence|]. cbn [String.length] in *. lia.
  - intros ->. apply randomString_from_empty.
Qed.

Lemma randomString_length_and_alphabet_witness :
  (String.length (randomString 8 default_charSet (fun k => (7 * k + 3) mod 62)%nat)
   = 8%nat
   /\ drawn_from default_charSet
        (randomString 8 default_charSet (fun k => (7 * k + 3) mod 62)%nat))
  /\ randomString 8 EmptyString (fun _ => 0%nat) = EmptyString.
Proof.
  split.
  - apply (proj1 (randomString_length_and_alphabet 8 default_charSet
                    (fun k => (7 * k + 3) mod 62)%nat
                    (fun k => proj1 (Nat.lt_succ_r _ _)
                                (Nat.mod_upper_bound (7 * k + 3) 62
                                   (Nat.neq_succ_0 61))))).
    discriminate.
  - apply (proj2 (randomString_length_and_alphabet 8 EmptyString (fun _ => 0%nat)
                    (fun _ => Nat.le_refl 0))).
    reflexivity.
Defined.

(** ** Times *)

(** X12.  [getTimeInFuture] is the whole second at or just before the
    instant [secondsAhead] seconds after the start: never later than that
    instant and less than a second earlier.  The start is the [from]
    argument, except that a [from] of zero milliseconds given as a number
    counts as absent and is replaced by the current time. *)
Theorem getTimeInFuture_whole_second (date_now seconds : Z) (from : TimeArg) :
  let start := match from with
               | TimeNumber ms => if (ms =? 0)%Z then date_now else ms
               | TimeDate ms => ms
               | TimeAbsent => date_now
               end in
  let r := getTimeInFuture date_now (Some seconds) from in
  (1000 * r <= start + 1000 * seconds < 1000 * r + 1000)%Z
  /\ getTimeInFuture date_now (Some seconds) (TimeNumber 0)
     = getTimeInFuture date_now (Some seconds) TimeAbsent
  /\ getTimeInFuture date_now None from = getTimeInFuture date_now (Some 120%Z) from.
Proof.
  intros start r. split; [|split; reflexivity].
  assert (Hr : r = (start / 1000 + seconds)%Z).
  { unfold r, getTimeInFuture, start. destruct from as [ | ms | ms]; try reflexivity.
    destruct (ms =? 0)%Z; reflexivity. }
  rewrite Hr. pose proof (Z.div_mod start 1000 ltac:(lia)) as Hdm.
  pose proof (Z.mod_pos_bound start 1000 ltac:(lia)) as Hb. lia.
Qed.

(** ** Observations by code *)

Lemma bank_get_set_any (ret : ObservationMap) (k c : string) (l : list value) :
  bank_get (bank_set ret k l) c = if String.eqb k c then Some l else bank_get ret c.
Proof.
  induction ret as [|[a w] r IH]; cbn [bank_set bank_get]; [reflexivity|].
  destruct (String.eqb a k) eqn:Ea; cbn [bank_get].
  - apply String.eqb_eq in Ea. subst a. destruct (String.eqb k c); reflexivity.
  - destruct (String.eqb a c) eqn:Ec.
    + apply String.eqb_eq in Ec. subst a. rewrite String.eqb_sym, Ea. reflexivity.
    + exact IH.
Qed.

Lemma fold_outcome_app {A S : Type} (f : S -> A -> outcome S) (l1 l2 : list A) (s : S) :
  fold_outcome f (l1 ++ l2) s = (s1 <- fold_outcome f l1 s ;; fold_outcome f l2 s1).
Proof.
  revert s. induction l1 as [|x r IH]; intros s; [reflexivity|].
  cbn [app fold_outcome]. destruct (f s x) as [s1| |]; cbn [bind]; try reflexivity.
  apply IH.
Qed.

Lemma clean_nil : clean [].
Proof. intros name _. reflexivity. Qed.

Lemma additive_Ok : additive (fun ret => Ok ret).
Proof.
  intros ret Hret. split; [exact clean_nil|]. exists ret.
  split; [reflexivity | split; [exact Hret|]].
  intros c. change (bank_list [] c) with (@nil value). rewrite app_nil_r. reflexivity.
Qed.

Lemma additive_bind (f g : ObservationMap -> outcome ObservationMap) :
  additive f -> additive g -> additive (fun ret => r <- f ret ;; g r).
Proof.
  intros Hf Hg ret Hret. pose proof (Hf ret Hret) as Hfr.
  destruct (f []) as [d1| |]; cbn [bind].
  - destruct Hfr as (Hd1 & r1 & -> & Hr1 & H1). cbn [bind].
    pose proof (Hg d1 Hd1) as Hgd. pose proof (Hg r1 Hr1) as Hgr.
    destruct (g []) as [d2| |].
    + destruct Hgd as (_ & d & -> & Hd & Hld). destruct Hgr as (_ & r2 & -> & Hr2 & H2).
      split; [exact Hd|]. exists r2. split; [reflexivity | split; [exact Hr2|]].
      intros c. rewrite H2, H1, Hld. rewrite app_assoc. reflexivity.
    + rewrite Hgd. exact Hgr.
    + rewrite Hgd. exact Hgr.
  - rewrite Hfr. reflexivity.
  - rewrite Hfr. reflexivity.
Qed.

Lemma additive_fold {A : Type} (f : ObservationMap -> A -> outcome ObservationMap)
  (l : list A) :
  (forall x, additive (fun ret => f ret x)) ->
  additive (fun ret => fold_outcome f l ret).
Proof.
  intros Hf. induction l as [|x r IH]; [exact additive_Ok|].
  exact (additive_bind (fun ret => f ret x) (fun s => fold_outcome f r s) (Hf x) IH).
Qed.

(** Under a code that names no inherited member the observation is added
    at the end of the list of that code, which is created when missing. *)
Lemma push_coding_plain (o coding : value) (name : string) (ret : ObservationMap) :
  prop_get coding "code" = Ok (VStr name) -> is_empty name = false ->
  plain_code name -> clean ret ->
  exists ret',
    push_coding o ret coding = Ok ret'
    /\ clean ret'
    /\ forall c, bank_list ret' c
                 = bank_list ret c ++ (if String.eqb name c then [o] else []).
Proof.
  intros Hcode Hne Hm Hret. unfold push_coding, plain_code in *.
  rewrite Hcode. cbn [bind truthy]. rewrite Hne. cbn [negb]. rewrite Hm.
  assert (Hset : forall l,
             clean (bank_set ret name l)
             /\ forall c, bank_list (bank_set ret name l) c
                          = if String.eqb name c then l else bank_list ret c).
  { intros l. split.
    - intros m Hmm. rewrite bank_get_set_any.
      destruct (String.eqb name m) eqn:E; [|exact (Hret m Hmm)].
      apply String.eqb_eq in E. subst m. congruence.
    - intros c. unfold bank_list. rewrite bank_get_set_any.
      destruct (String.eqb name c); reflexivity. }
  destruct (bank_get ret name) as [current|] eqn:Hcur.
  - eexists. split; [reflexivity|]. split; [apply Hset|].
    intros c. rewrite (proj2 (Hset _)).
    destruct (String.eqb name c) eqn:E; [|rewrite app_nil_r; reflexivity].
    apply String.eqb_eq in E. subst c. unfold bank_list. rewrite Hcur. reflexivity.
  - eexists. split; [reflexivity|]. split; [apply Hset|].
    intros c. rewrite (proj2 (Hset _)).
    destruct (String.eqb name c) eqn:E; [|rewrite app_nil_r; reflexivity].
    apply String.eqb_eq in E. subst c. unfold bank_list. rewrite Hcur. reflexivity.
Qed.

(** Under a code that names an inherited member the push raises. *)
Lemma push_coding_member (o coding : value) (name : string) (ret : ObservationMap) :
  prop_get coding "code" = Ok (VStr name) -> is_empty name = false ->
  member_code name -> clean ret ->
  push_coding o ret coding = Throw TypeError.
Proof.
  intros Hcode Hne Hm Hret. unfold push_coding, member_code in *.
  rewrite Hcode. cbn [bind truthy]. rewrite Hne. cbn [negb].
  rewrite (Hret name Hm), Hm. reflexivity.
Qed.

Lemma additive_push_coding (o coding : value) :
  additive (fun ret => push_coding o ret coding).
Proof.
  intros ret Hret.
  destruct (prop_get coding "code") as [c| |] eqn:Hcode;
    [|unfold push_coding; rewrite Hcode; reflexivity
     |unfold push_coding; rewrite Hcode; reflexivity].
  destruct (truthy c) eqn:Ht;
    [|unfold push_coding; rewrite Hcode; cbn [bind]; rewrite Ht;
      exact (additive_Ok ret Hret)].
  destruct c as [ | | b | n | name | l | ps];
    try (unfold push_coding; rewrite Hcode; cbn [bind]; rewrite Ht; reflexivity).
  assert (Hne : is_empty name = false).
  { cbn [truthy] in Ht. apply negb_true_iff. exact Ht. }
  destruct (named object_members name) eqn:Hm.
  - rewrite (push_coding_member o coding name [] Hcode Hne Hm clean_nil).
    exact (push_coding_member o coding name ret Hcode Hne Hm Hret).
  - destruct (push_coding_plain o coding name [] Hcode Hne Hm clean_nil)
      as (d & -> & Hd & Hld).
    destruct (push_coding_plain o coding name ret Hcode Hne Hm Hret)
      as (ret' & -> & Hr & Hl).
    split; [exact Hd|]. exists ret'. split; [reflexivity | split; [exact Hr|]].
    intros c. rewrite Hl, Hld. reflexivity.
Qed.

Lemma additive_handleCodeableConcept (o concept : value) :
  additive (fun ret => handleCodeableConcept o ret concept).
Proof.
  unfold handleCodeableConcept.
  destruct (truthy concept); [|exact additive_Ok].
  destruct (prop_get concept "coding") as [coding| |]; cbn [bind];
    [|intros ret _; reflexivity | intros ret _; reflexivity].
  destruct coding; try exact additive_Ok.
  apply additive_fold. intros x. apply additive_push_coding.
Qed.

Lemma additive_index_observation (property : string) (o : value) :
  additive (fun ret => index_observation property ret o).
Proof.
  unfold index_observation.
  destruct (prop_get o "resourceType") as [t| |]; cbn [bind];
    [|intros ret _; reflexivity | intros ret _; reflexivity].
  destruct (strict_eq_string t "Observation"); [|exact additive_Ok].
  destruct (prop_get o property) as [p| |]; cbn [bind];
    [|intros ret _; reflexivity | intros ret _; reflexivity].
  destruct (truthy p); [|exact additive_Ok].
  destruct p; try apply additive_handleCodeableConcept.
  apply additive_fold. intros x. apply additive_handleCodeableConcept.
Qed.

(** X13.  Indexing a sequence of observations amounts to indexing its parts:
    under every code, the observations of [l1 ++ l2] are those of [l1]
    followed by those of [l2], in the order of the input; and a failure on
    [l1] is the failure of the whole. *)
Theorem byCode_app (property : string) (l1 l2 : list value) :
  (forall b1 b2,
      byCode (VArr l1) property = Ok b1 -> byCode (VArr l2) property = Ok b2 ->
      exists b, byCode (VArr (l1 ++ l2)) property = Ok b
                /\ forall c, bank_list b c = bank_list b1 c ++ bank_list b2 c)
  /\ (forall e, byCode (VArr l1) property = Throw e ->
                byCode (VArr (l1 ++ l2)) property = Throw e).
Proof.
  unfold byCode. cbn [makeArray]. split.
  - intros b1 b2 H1 H2. rewrite fold_outcome_app, H1. cbn [bind].
    pose proof (additive_fold (index_observation property) l1
                  (additive_index_observation property) [] clean_nil) as Hb1.
    cbn beta in Hb1. rewrite H1 in Hb1. destruct Hb1 as [Hclean _].
    pose proof (additive_fold (index_observation property) l2
                  (additive_index_observation property) b1 Hclean) as Hadd.
    cbn beta in Hadd. rewrite H2 in Hadd.
    destruct Hadd as (_ & b & Hb & _ & Hl). exists b. auto.
  - intros e H. rewrite fold_outcome_app, H. reflexivity.
Qed.

Lemma byCode_app_witness :
  exists b,
    byCode (VArr ([sample_observation] ++ [sample_observation])) "category" = Ok b
    /\ forall c,
         bank_list b c
         = bank_list [("vital-signs", [sample_observation; sample_observation]);
                      ("exam", [sample_observation])] c
           ++ bank_list [("vital-signs", [sample_observation; sample_observation]);
                         ("exam", [sample_observation])] c.
Proof.
  apply (proj1 (byCode_app "category" [sample_observation] [sample_observation]));
    reflexivity.
Defined.

Lemma plain_or_member (cs : list string) :
  Forall plain_code cs \/ Exists member_code cs.
Proof.
  induction cs as [|c r [IH | IH]]; [left; constructor | |right; constructor 2; exact IH].
  destruct (named object_members c) eqn:E.
  - right. constructor. exact E.
  - left. constructor; assumption.
Qed.

Lemma push_codings_codes (o : value) (codings : list value) (cs : list string) :
  Forall2 (fun coding c => prop_get coding "code" = Ok (VStr c) /\ is_empty c = false)
    codings cs ->
  forall ret,
    clean ret ->
    (Forall plain_code cs ->
     exists ret',
       fold_outcome (push_coding o) codings ret = Ok ret'
       /\ clean ret'
       /\ forall c, bank_list ret' c
                    = bank_list ret c ++ repeat o (count_occ string_dec cs c))
    /\ (Exists member_code cs ->
        fold_outcome (push_coding o) codings ret = Throw TypeError).
Proof.
  intros HF. induction HF as [|coding name codings cs [Hcode Hne] _ IH]; intros ret Hret.
  - split; [|intros H; inversion H].
    intros _. exists ret. split; [reflexivity | split; [exact Hret|]].
    intros c. cbn. rewrite app_nil_r. reflexivity.
  - cbn [fold_outcome]. destruct (named object_members name) eqn:Hm.
    + rewrite (push_coding_member o coding name ret Hcode Hne Hm Hret). cbn [bind].
      split; [|reflexivity]. intros H. inversion H; subst.
      unfold plain_code in *. congruence.
    + destruct (push_coding_plain o coding name ret Hcode Hne Hm Hret)
        as (ret1 & -> & Hr1 & H1).
      cbn [bind]. destruct (IH ret1 Hr1) as [IHok IHthrow]. split.
      * intros H. inversion H as [|? ? _ Hrest]; subst.
        destruct (IHok Hrest) as (ret' & Hfold & Hr' & Hl).
        exists ret'. split; [exact Hfold | split; [exact Hr'|]].
        intros c. rewrite Hl, H1. cbn [count_occ].
        destruct (string_dec name c) as [-> | Hneq].
        -- rewrite String.eqb_refl. cbn [repeat]. rewrite <- app_assoc. reflexivity.
        -- apply String.eqb_neq in Hneq. rewrite Hneq, app_nil_r. reflexivity.
      * intros H. inversion H as [? ? Hhead | ? ? Hrest]; subst.
        -- unfold member_code in Hhead. congruence.
        -- exact (IHthrow Hrest).
Qed.

Lemma handle_concepts_codes (o : value) (concepts : list value)
  (css : list (list string)) :
  Forall2 concept_codes concepts css ->
  forall ret,
    clean ret ->
    (Forall plain_code (concat css) ->
     exists ret',
       fold_outcome (handleCodeableConcept o) concepts ret = Ok ret'
       /\ clean ret'
       /\ forall c, bank_list ret' c
                    = bank_list ret c ++ repeat o (count_occ string_dec (concat css) c))
    /\ (Exists member_code (concat css) ->
        fold_outcome (handleCodeableConcept o) concepts ret = Throw TypeError).
Proof.
  intros HF. induction HF as [|concept cs concepts css Hc _ IH]; intros ret Hret.
  - split; [|intros H; inversion H].
    intros _. exists ret. split; [reflexivity | split; [exact Hret|]].
    intros c. cbn. rewrite app_nil_r. reflexivity.
  - destruct Hc as (Ht & codings & Hcoding & Hcodes).
    cbn [fold_outcome concat]. unfold handleCodeableConcept at 1 3.
    rewrite Ht, Hcoding. cbn [bind].
    destruct (push_codings_codes o codings cs Hcodes ret Hret) as [Pok Pthrow].
    split.
    + intros H. apply Forall_app in H. destruct H as [Hcs Hrest].
      destruct (Pok Hcs) as (r1 & -> & Hr1 & H1). cbn [bind].
      destruct (proj1 (IH r1 Hr1) Hrest) as (ret' & Hfold & Hr' & Hl).
      exists ret'. split; [exact Hfold | split; [exact Hr'|]].
      intros c. rewrite Hl, H1, count_occ_app, repeat_app, app_assoc. reflexivity.
    + intros H. destruct (plain_or_member cs) as [Hcs | Hcs].
      * destruct (Pok Hcs) as (r1 & -> & Hr1 & _). cbn [bind].
        apply (proj2 (IH r1 Hr1)).
        apply Exists_app in H. destruct H as [H | H]; [|exact H].
        exfalso. apply Exists_exists in H. destruct H as (c & Hin & Hc).
        pose proof (proj1 (Forall_forall _ _) Hcs c Hin) as Hp.
        unfold plain_code, member_code in *. congruence.
      * rewrite (Pthrow Hcs). reflexivity.
Qed.

(** The concepts of a property are looped over when it holds an array, and
    a single concept is handled as an array of one. *)
Lemma index_concepts (o p : value) (ret : ObservationMap) :
  match p with
  | VArr concepts => fold_outcome (handleCodeableConcept o) concepts ret
  | _ => handleCodeableConcept o ret p
  end
  = fold_outcome (handleCodeableConcept o) (makeArray p) ret.
Proof.
  destruct p; cbn [makeArray fold_outcome]; try reflexivity;
    match goal with |- ?m = _ => destruct m; reflexivity end.
Qed.

(** X14.  Take an observation whose property holds a CodeableConcept, or an
    array of them, whose codings carry codes that are strings and not
    empty.  When no code names a member of [Object.prototype], the
    observation is listed under each code once per coding that carries it
    (so under several codes when it has several, and twice under a code two
    of its codings share), and under no other code.  When some code names
    such a member, [byCode] raises a TypeError. *)
Theorem byCode_lists_each_coding (property : string) (o p : value)
  (css : list (list string)) :
  prop_get o "resourceType" = Ok (VStr "Observation") ->
  prop_get o property = Ok p -> truthy p = true ->
  Forall2 concept_codes (makeArray p) css ->
  (Forall plain_code (concat css) ->
   exists bank,
     byCode o property = Ok bank
     /\ byCode (VArr [o]) property = Ok bank
     /\ forall c, bank_list bank c = repeat o (count_occ string_dec (concat css) c))
  /\ (Exists member_code (concat css) -> byCode o property = Throw TypeError).
Proof.
  intros Hrt Hp Htp HF.
  assert (Hmk : makeArray o = [o]).
  { destruct o; try reflexivity. cbv in Hrt. discriminate Hrt. }
  assert (Hone : fold_outcome (index_observation property) [o] []
                 = fold_outcome (handleCodeableConcept o) (makeArray p) []).
  { cbn [fold_outcome]. unfold index_observation. rewrite Hrt. cbn [bind strict_eq_string].
    change (String.eqb "Observation" "Observation") with true.
    rewrite Hp. cbn [bind]. rewrite Htp, index_concepts.
    destruct (fold_outcome (handleCodeableConcept o) (makeArray p) []); reflexivity. }
  destruct (handle_concepts_codes o (makeArray p) css HF [] clean_nil) as [Pok Pthrow].
  unfold byCode. cbn [makeArray]. rewrite Hmk, Hone. split.
  - intros H. destruct (Pok H) as (bank & Hfold & _ & Hl).
    exists bank. auto.
  - exact Pthrow.
Qed.

Lemma byCode_lists_each_coding_witness :
  (exists bank,
      byCode sample_observation "category" = Ok bank
      /\ byCode (VArr [sample_observation]) "category" = Ok bank
      /\ forall c,
           bank_list bank c
           = repeat sample_observation
               (count_occ string_dec
                  (concat [["vital-signs"; "exam"]; ["vital-signs"]]) c))
  /\ byCode (VObj [("resourceType", VStr "Observation");
                   ("code", VObj [("coding", VArr [VObj [("code", VStr "toString")]])])])
       "code"
     = Throw TypeError.
Proof.
  split.
  - apply (proj1 (byCode_lists_each_coding "category" sample_observation
                    (VArr [VObj [("coding",
                                  VArr [VObj [("system", VStr "http://hl7.org");
                                              ("code", VStr "vital-signs")];
                                        VObj [("code", VStr "exam")]])];
                           VObj [("coding", VArr [VObj [("code", VStr "vital-signs")]])]])
                    [["vital-signs"; "exam"]; ["vital-signs"]]
                    eq_refl eq_refl eq_refl
                    ltac:(repeat constructor; eexists; (split; [reflexivity|]);
                          repeat constructor))).
    repeat constructor.
  - apply (proj2 (byCode_lists_each_coding "code"
                    (VObj [("resourceType", VStr "Observation");
                           ("code", VObj [("coding",
                                           VArr [VObj [("code", VStr "toString")]])])])
                    (VObj [("coding", VArr [VObj [("code", VStr "toString")]])])
                    [["toString"]]
                    eq_refl eq_refl eq_refl
                    ltac:(repeat constructor; eexists; (split; [reflexivity|]);
                          repeat constructor))).
    repeat constructor.
Defined.

(** X15.  Resources that are not observations are passed over: removing
    from the input an element whose [resourceType] is not [Observation], or
    an observation that lacks the property, leaves the result unchanged. *)
Theorem byCode_skips_other_resources (property : string) (l1 l2 : list value)
  (x t : value) :
  prop_get x "resourceType" = Ok t ->
  strict_eq_string t "Observation" = false
  \/ (exists p, prop_get x property = Ok p /\ truthy p = false) ->
  byCode (VArr (l1 ++ x :: l2)) property = byCode (VArr (l1 ++ l2)) property.
Proof.
  intros Hrt Hskip. unfold byCode. cbn [makeArray].
  rewrite !fold_outcome_app.
  destruct (fold_outcome (index_observation property) l1 []) as [s| |]; cbn [bind];
    try reflexivity.
  cbn [fold_outcome].
  assert (Hx : index_observation property s x = Ok s).
  { unfold index_observation. rewrite Hrt. cbn [bind].
    destruct (strict_eq_string t "Observation"); [|reflexivity].
    destruct Hskip as [H | (p & Hp & Hf)]; [discriminate H|].
    rewrite Hp. cbn [bind]. rewrite Hf. reflexivity. }
  rewrite Hx. reflexivity.
Qed.

Lemma byCode_skips_other_resources_witness :
  byCode (VArr ([sample_observation]
                ++ VObj [("resourceType", VStr "Patient")] :: [sample_observation]))
    "category"
  = byCode (VArr ([sample_observation] ++ [sample_observation])) "category".
Proof.
  apply (byCode_skips_other_resources "category" _ _ _ (VStr "Patient"));
    [reflexivity | left; reflexivity].
Defined.

Lemma fold_concat_acc {A : Type} (g : A -> outcome (list value)) (l : list A) :
  forall acc,
    fold_outcome (fun prev c => r <- g c ;; Ok (prev ++ r)) l acc
    = (r <- fold_outcome (fun prev c => r <- g c ;; Ok (prev ++ r)) l [] ;;
       Ok (acc ++ r)).
Proof.
  induction l as [|x r IH]; intros acc; cbn [fold_outcome].
  - cbn [bind]. rewrite app_nil_r. reflexivity.
  - destruct (g x) as [lx| |]; cbn [bind app]; try reflexivity.
    rewrite (IH (acc ++ lx)), (IH lx).
    destruct (fold_outcome (fun prev c => r0 <- g c ;; Ok (prev ++ r0)) r [])
      as [rest| |]; cbn [bind]; try reflexivity.
    rewrite app_assoc. reflexivity.
Qed.

(** The filter as a fold over the codes it keeps. *)
Lemma filter_codes_fold (bank : ObservationMap) (codes : list string) :
  filter_codes bank codes
  = fold_outcome
      (fun prev c => r <- match bank_get bank c with
                          | Some l => Ok l
                          | None => Unmodelled
                          end ;; Ok (prev ++ r))
      (List.filter (in_bank bank) codes) [].
Proof.
  unfold filter_codes. generalize (@nil value).
  induction (List.filter (in_bank bank) codes) as [|c r IH]; intros acc; [reflexivity|].
  cbn [fold_outcome]. destruct (bank_get bank c); cbn [bind]; [apply IH | reflexivity].
Qed.

Lemma filter_codes_app (bank : ObservationMap) (cs1 cs2 : list string)
  (r1 r2 : list value) :
  filter_codes bank cs1 = Ok r1 -> filter_codes bank cs2 = Ok r2 ->
  filter_codes bank (cs1 ++ cs2) = Ok (r1 ++ r2).
Proof.
  rewrite !filter_codes_fold, List.filter_app, fold_outcome_app.
  intros -> H2. cbn [bind]. rewrite fold_concat_acc, H2. reflexivity.
Qed.

Lemma filter_codes_flat_map (bank : ObservationMap) (codes : list string) :
  Forall plain_code codes ->
  filter_codes bank codes = Ok (flat_map (bank_list bank) codes).
Proof.
  induction 1 as [|c r Hc _ IH]; [reflexivity|].
  change (c :: r) with ([c] ++ r). rewrite flat_map_app.
  apply filter_codes_app; [|exact IH].
  unfold filter_codes, in_bank, bank_list. cbn [List.filter flat_map].
  unfold plain_code in Hc. rewrite Hc.
  destruct (bank_get bank c) as [l|] eqn:E; cbn [fold_outcome];
    [rewrite E; cbn [bind app]; rewrite app_nil_r|]; reflexivity.
Qed.

(** X16.  The filter that [byCodes] returns yields, for codes none of which
    names a member of [Object.prototype], the observations listed under the
    first code, then those under the second, and so on; such a code under
    which nothing is listed contributes nothing; and whenever two batches of
    codes each yield a result, asking for all of them at once yields the two
    results one after the other. *)
Theorem byCodes_concatenates (observations : value) (property : string)
  (f : list string -> outcome (list value)) :
  byCodes observations property = Ok f ->
  exists bank,
    byCode observations property = Ok bank
    /\ (forall codes, Forall plain_code codes ->
                      f codes = Ok (flat_map (bank_list bank) codes))
    /\ (forall cs1 cs2 r1 r2, f cs1 = Ok r1 -> f cs2 = Ok r2 ->
                              f (cs1 ++ cs2) = Ok (r1 ++ r2))
    /\ (forall c, plain_code c -> bank_get bank c = None -> f [c] = Ok []).
Proof.
  unfold byCodes.
  destruct (byCode observations property) as [bank| |]; cbn [bind]; try discriminate.
  intros H. injection H as <-. exists bank. split; [reflexivity|].
  split; [apply filter_codes_flat_map|]. split.
  - apply filter_codes_app.
  - intros c Hp Hc. rewrite filter_codes_flat_map by (constructor; [exact Hp | constructor]).
    cbn [flat_map]. unfold bank_list. rewrite Hc. reflexivity.
Qed.

Lemma byCodes_concatenates_witness :
  exists bank,
    byCode sample_observation "category" = Ok bank
    /\ (forall codes, Forall plain_code codes ->
           filter_codes [("vital-signs", [sample_observation; sample_observation]);
                         ("exam", [sample_observation])] codes
           = Ok (flat_map (bank_list bank) codes))
    /\ (forall cs1 cs2 r1 r2,
           filter_codes [("vital-signs", [sample_observation; sample_observation]);
                         ("exam", [sample_observation])] cs1 = Ok r1 ->
           filter_codes [("vital-signs", [sample_observation; sample_observation]);
                         ("exam", [sample_observation])] cs2 = Ok r2 ->
           filter_codes [("vital-signs", [sample_observation; sample_observation]);
                         ("exam", [sample_observation])] (cs1 ++ cs2)
           = Ok (r1 ++ r2))
    /\ (forall c, plain_code c -> bank_get bank c = None ->
                  filter_codes [("vital-signs", [sample_observation; sample_observation]);
                                ("exam", [sample_observation])] [c] = Ok []).
Proof.
  apply (byCodes_concatenates sample_observation "category"). reflexivity.
Defined.

(** ** Measurement units *)

(** A value that is not a number is refused before the unit is looked
    at: [units.cm], [units.kg] and [units.any] all raise the same error,
    which names the value and the code, whether or not the code is a known
    unit. *)
Theorem units_validate_the_value_first (c shown : string) :
  let pq := {| code := c; value_of := QOther shown |} in
  let refusal :=
    Throw (Error ("Found a non-numerical unit: " ++ shown ++ " " ++ c)) in
  units.cm pq = refusal /\ units.kg pq = refusal /\ units.any pq = refusal.
Proof. repeat split. Qed.

(** X17.  [units.cm] succeeds exactly when the value is a number and the
    code is one of [cm], [m], [in], [[in_us]], [[in_i]], [ft], [[ft_us]];
    the three inch codes give one and the same result, and so do the two
    foot codes; any other code raises an error naming it. *)
Theorem units_cm_recognised_codes (c : string) (n : float) :
  let known := ["cm"; "m"; "in"; "[in_us]"; "[in_i]"; "ft"; "[ft_us]"] in
  ((exists r, units.cm {| code := c; value_of := QNumber n |} = Ok r)
   <-> In c known)
  /\ (~ In c known ->
      units.cm {| code := c; value_of := QNumber n |}
      = Throw (Error ("Unrecognized length unit: " ++ c)))
  /\ units.cm {| code := "[in_us]"; value_of := QNumber n |}
     = units.cm {| code := "in"; value_of := QNumber n |}
  /\ units.cm {| code := "[in_i]"; value_of := QNumber n |}
     = units.cm {| code := "in"; value_of := QNumber n |}
  /\ units.cm {| code := "[ft_us]"; value_of := QNumber n |}
     = units.cm {| code := "ft"; value_of := QNumber n |}
  /\ units.cm {| code := "cm"; value_of := QNumber n |} = Ok n.
Proof.
  intros known.
  assert (Hcases :
    (In c known /\ exists r, units.cm {| code := c; value_of := QNumber n |} = Ok r)
    \/ (~ In c known
        /\ units.cm {| code := c; value_of := QNumber n |}
           = Throw (Error ("Unrecognized length unit: " ++ c)))).
  { unfold units.cm, known. cbn [ensureNumerical value_of bind code].
    destruct (String.eqb c "cm") eqn:E1;
      [apply String.eqb_eq in E1; subst c; left; split; [cbn; tauto | eauto]|].
    destruct (String.eqb c "m") eqn:E2;
      [apply String.eqb_eq in E2; subst c; left; split; [cbn; tauto | eauto]|].
    destruct (String.eqb c "in") eqn:E3;
      [apply String.eqb_eq in E3; subst c; left; split; [cbn; tauto | eauto]|].
    destruct (String.eqb c "[in_us]") eqn:E4;
      [apply String.eqb_eq in E4; subst c; left; split; [cbn; tauto | eauto]|].
    destruct (String.eqb c "[in_i]") eqn:E5;
      [apply String.eqb_eq in E5; subst c; left; split; [cbn; tauto | eauto]|].
    destruct (String.eqb c "ft") eqn:E6;
      [apply String.eqb_eq in E6; subst c; left; split; [cbn; tauto | eauto]|].
    destruct (String.eqb c "[ft_us]") eqn:E7;
      [apply String.eqb_eq in E7; subst c; left; split; [cbn; tauto | eauto]|].
    right. split; [|reflexivity].
    apply String.eqb_neq in E1, E2, E3, E4, E5, E6, E7.
    cbn [In]. intros [H | [H | [H | [H | [H | [H | [H | []]]]]]]]; congruence. }
  split; [|split; [|repeat split]].
  - destruct Hcases as [[Hin Hok] | [Hnot Hthrow]]; [tauto|].
    split; [intros [r Hr]; rewrite Hthrow in Hr; discriminate | contradiction].
  - intros Hnot. destruct Hcases as [[Hin _] | [_ Hthrow]]; [contradiction | exact Hthrow].
Qed.

(** X18.  [units.kg] goes by substring: for a number, every code other than
    [kg] and [g] that contains [lb] is converted as pounds, also when it
    contains [oz] as well; a code containing [oz] and no [lb] is converted as
    ounces; a code with neither is refused with an error naming it. *)
Theorem units_kg_by_substring (c : string) (n : float) :
  String.eqb c "kg" = false -> String.eqb c "g" = false ->
  (forall a b, c = (a ++ "lb" ++ b)%string ->
               units.kg {| code := c; value_of := QNumber n |}
               = Ok (n / 2.20462)%float)
  /\ (forall a b, contains "lb" c = false -> c = (a ++ "oz" ++ b)%string ->
                  units.kg {| code := c; value_of := QNumber n |}
                  = Ok (n / 35.274)%float)
  /\ (contains "lb" c = false -> contains "oz" c = false ->
      units.kg {| code := c; value_of := QNumber n |}
      = Throw (Error ("Unrecognized weight unit: " ++ c))).
Proof.
  intros Hkg Hg. unfold units.kg. cbn [ensureNumerical value_of bind code].
  rewrite Hkg, Hg. split; [|split].
  - intros a b ->. rewrite contains_app. reflexivity.
  - intros a b Hlb ->. rewrite Hlb, contains_app. reflexivity.
  - intros Hlb Hoz. rewrite Hlb, Hoz. reflexivity.
Qed.

Lemma units_kg_by_substring_witness :
  units.kg {| code := "[lb_av]"; value_of := QNumber 1%float |}
  = Ok (1 / 2.20462)%float.
Proof.
  exact (proj1 (units_kg_by_substring "[lb_av]" 1%float eq_refl eq_refl)
           "[" "_av]" eq_refl).
Defined.

(** ** Token lifetime *)

(** X19.  When [expires_in] is absent or zero and the access token has a
    non-empty second segment, a failure of the decoder is not absorbed: the
    exception raised by [env.atob], or by [JSON.parse] on what it returns,
    is the outcome of [getAccessTokenExpiration], and the five-minute default
    is not used. *)
Theorem getAccessTokenExpiration_decoder_failure
  (date_now : Z) (tr : TokenResponse) (env : Adapter)
  (header payload tail : string) (e : exn) :
  expires_in tr = None \/ expires_in tr = Some 0%Z ->
  access_token tr = Some (header ++ String dot (payload ++ tail))%string ->
  no_dot header = true -> no_dot payload = true -> is_empty payload = false ->
  tail = EmptyString \/ (exists t, tail = String dot t) ->
  atob env payload = Throw e
  \/ (exists s, atob env payload = Ok s /\ JSON_parse s = Throw e) ->
  getAccessTokenExpiration date_now tr env = Throw e.
Proof.
  intros Hexp Htok Hh Hp Hne Htail Hfail.
  assert (Hdec : jwtDecode (header ++ String dot (payload ++ tail))%string env = Throw e).
  { unfold jwtDecode. rewrite (split_dot_segment header _ Hh).
    destruct (split_dot_head payload tail Hp Htail) as [more ->].
    cbn [nth_error]. rewrite Hne. cbn [negb].
    destruct Hfail as [-> | (s & -> & Hs)]; [reflexivity | exact Hs]. }
  unfold getAccessTokenExpiration.
  assert (Hskip : match expires_in tr with
                  | Some e0 => negb (e0 =? 0)%Z
                  | None => false
                  end = false).
  { destruct Hexp as [-> | ->]; reflexivity. }
  rewrite Hskip, Htok.
  assert (Hnonempty : is_empty (header ++ String dot (payload ++ tail))%string = false).
  { destruct header; reflexivity. }
  rewrite Hnonempty. cbn [negb]. rewrite Hdec. reflexivity.
Qed.

Lemma getAccessTokenExpiration_decoder_failure_witness :
  getAccessTokenExpiration 5000
    {| expires_in := None; access_token := Some "opaque.token" |} browser_env
  = Throw InvalidCharacterError.
Proof.
  apply (getAccessTokenExpiration_decoder_failure 5000 _ browser_env
           "opaque" "token" EmptyString InvalidCharacterError);
    try reflexivity; left; reflexivity.
Defined.

(** ** JSON-Patch validation *)

Lemma forEach_first_failure (f : value -> outcome unit) (good rest : list value)
  (bad : value) :
  Forall (fun g => f g = Ok tt) good ->
  forEach f (good ++ bad :: rest) = (f bad ;;; forEach f rest).
Proof.
  intros HF. induction HF as [|g good Hg _ IH]; [reflexivity|].
  cbn [app forEach]. rewrite Hg. cbn [bind]. exact IH.
Qed.

(** X20.  Validation stops at the first operation that is not valid: the
    error raised is the one of that operation, whatever follows it. *)
Theorem assertJsonPatch_first_invalid_operation (good rest : list value)
  (bad : value) (e : exn) :
  Forall (fun g => check_operation g = Ok tt) good ->
  check_operation bad = Throw e ->
  assertJsonPatch (VArr (good ++ bad :: rest)) = Throw e.
Proof.
  intros HF Hbad. unfold assertJsonPatch. cbn [isArray assert bind].
  assert (Hlen : (0 <? List.length (good ++ bad :: rest))%nat = true).
  { apply Nat.ltb_lt. rewrite List.length_app. cbn [List.length]. lia. }
  rewrite Hlen. cbn [bind].
  rewrite (forEach_first_failure check_operation good rest bad HF), Hbad.
  reflexivity.
Qed.

Lemma assertJsonPatch_first_invalid_operation_witness :
  assertJsonPatch
    (VArr ([VObj [("op", VStr "remove"); ("path", VStr "/a")]]
           ++ VObj [("op", VStr "move"); ("path", VStr "/b")]
              :: [VObj [("op", VStr "bogus")]]))
  = Throw (Error (msg_invalid (VStr "move")
                    ("Requires a string " ++ quoted "from" ++ " property"))).
Proof.
  apply assertJsonPatch_first_invalid_operation; [repeat constructor | reflexivity].
Defined.

(** ** Target window *)

(** X21.  The width and the height only matter for a popup: for every other
    target (a function returning one included) the outcome is the same
    whatever the two numbers are. *)
Theorem getTargetWindow_size_only_for_popup (env : Browser) (target : Target)
  (width height width' height' : Z) :
  awaited_target target <> TString "popup" ->
  getTargetWindow env target width height = getTargetWindow env target width' height'.
Proof.
  intros Hpop.
  assert (Hres : forall t, t <> TString "popup" ->
                           resolve_target env t width height
                           = resolve_target env t width' height').
  { intros t Ht. destruct t as [inv | w | | s | ]; try reflexivity.
    cbn [resolve_target].
    destruct (String.eqb s "_self"); [reflexivity|].
    destruct (String.eqb s "_parent"); [reflexivity|].
    destruct (String.eqb s "_top"); [reflexivity|].
    destruct (String.eqb s "_blank"); [reflexivity|].
    destruct (String.eqb s "popup") eqn:E; [|reflexivity].
    apply String.eqb_eq in E. subst s. contradiction. }
  destruct target as [[t | e] | w | | s | ]; cbn [getTargetWindow awaited_target] in *;
    try reflexivity; f_equal; apply Hres; assumption.
Qed.

Lemma getTargetWindow_size_only_for_popup_witness :
  getTargetWindow locked_browser (TFunction (Returns (TString "launch"))) 800 720
  = getTargetWindow locked_browser (TFunction (Returns (TString "launch"))) 1 1.
Proof.
  apply getTargetWindow_size_only_for_popup. discriminate.
Defined.

(** ** The per-URL cache *)

(** X22.  After any run of calls from the empty cache, forced or not, the
    cache holds for every URL requested so far the promise of the most recent
    request for it, and it holds nothing else: every entry is the promise of
    a request made for that very URL, and every URL ever requested has an
    entry. *)
Theorem getAndCache_tracks_latest_request (NODE_ENV : option string)
  (calls : list Call) :
  let st := snd (run_calls NODE_ENV calls empty_cache) in
  (forall url p, cache st !! url = Some p -> latest_request st url p)
  /\ (forall q url o, nth_error (issued st) q = Some (url, o) ->
                      exists p, cache st !! url = Some p).
Proof.
  exact (cache_tracks_requests_run NODE_ENV calls empty_cache cache_tracks_requests_empty).
Qed.
